(** * InnerGraphPlugin: usage graph of top-level declarations

    A shallow embedding of [lib/optimize/InnerGraphPlugin.js]: the usage
    graph ([InnerGraph]), [TopLevelSymbol.addDependency], the flattening
    pass of the [finish] hook with its publication loop, and the parser
    hooks that register symbols and record usages. *)

From stdpp Require Import base decidable option list strings gmap.
From Stdlib Require Import ZArith Lia.

Local Open Scope nat_scope.

(** ** JavaScript containers

    A JavaScript [Set] and [Map] iterate in insertion order, so both are
    kept as lists: a [Set] as the list of its members in insertion order,
    a [Map] as the list of its entries in insertion order of the keys. *)

Module JsSet.
Section JsSet.
Context {A : Type} `{EqDecision A}.

Definition has (x : A) (s : list A) : bool := bool_decide (x ∈ s).

(** [s.add(x)]: a member keeps its place, a new value goes last. *)
Definition add (x : A) (s : list A) : list A :=
  if has x s then s else s ++ [x].

(** [s.delete(x)]. *)
Definition delete (x : A) (s : list A) : list A :=
  filter (λ y, y ≠ x) s.

(** [new Set(iterable)]. *)
Definition of_list (l : list A) : list A :=
  foldl (λ s x, add x s) [] l.
End JsSet.
End JsSet.

Module JsMap.
Section JsMap.
Context {K V : Type} `{EqDecision K}.

(** [m.get(k)]; [None] is the [undefined] of an absent key. *)
Fixpoint get (k : K) (m : list (K * V)) : option V :=
  match m with
  | [] => None
  | (k', v) :: m => if decide (k' = k) then Some v else get k m
  end.

Definition has (k : K) (m : list (K * V)) : bool :=
  match get k m with Some _ => true | None => false end.

(** [m.set(k, v)]: an existing key keeps its place in the order. *)
Fixpoint set (k : K) (v : V) (m : list (K * V)) : list (K * V) :=
  match m with
  | [] => [(k, v)]
  | (k', v') :: m =>
      if decide (k' = k) then (k', v) :: m else (k', v') :: set k v m
  end.

(** [m.keys()]. *)
Definition keys (m : list (K * V)) : list K := m.*1.
End JsMap.
End JsMap.

(** ** Data model *)

(** Source positions: [range] is a pair of offsets, [loc] a pair of
    line/column positions. *)
Definition Range : Type := Z * Z.
Definition SourceLocation : Type := (nat * nat) * (nat * nat).

(** [class TopLevelSymbol].  Objects are compared by identity in the
    source ([Map] keys, [Set] members); [sym_id] is the identity of the
    object, handed out by [new].  The [innerGraph] field of the source
    always refers to the graph of the module being parsed and is passed
    to the methods instead of being stored. *)
Record TopLevelSymbol : Type := { sym_id : nat; name : string }.

(** [PureExpressionDependency]: [dep_id] is the identity of the object;
    its mutable field [usedByExports] lives in the parser state. *)
Record Dependency : Type :=
  { dep_id : nat; dep_range : Range; dep_loc : SourceLocation }.

(** Keys of the graph: [TopLevelSymbol | Dependency]. *)
Inductive Key : Type :=
  | KSymbol (s : TopLevelSymbol)
  | KDependency (d : Dependency).

(** Members of a usage set: [string | TopLevelSymbol]. *)
Inductive Item : Type :=
  | IString (s : string)
  | ISymbol (s : TopLevelSymbol).

(** What [innerGraph.get(key)] can return: [undefined] (also stored
    explicitly by the flattening pass), [true], or a [Set]. *)
Inductive Value : Type :=
  | VUndefined
  | VTrue
  | VSet (items : list Item).

(** The argument of [addDependency]: [string | TopLevelSymbol | true]. *)
Inductive DepArg : Type :=
  | ArgTrue
  | ArgItem (i : Item).

#[global] Instance TopLevelSymbol_eq_dec : EqDecision TopLevelSymbol.
Proof. solve_decision. Defined.
#[global] Instance Dependency_eq_dec : EqDecision Dependency.
Proof. solve_decision. Defined.
#[global] Instance Key_eq_dec : EqDecision Key.
Proof. solve_decision. Defined.
#[global] Instance Item_eq_dec : EqDecision Item.
Proof. solve_decision. Defined.
#[global] Instance Value_eq_dec : EqDecision Value.
Proof. solve_decision. Defined.

(** [InnerGraph = Map<TopLevelSymbol | Dependency, Set<...> | true>]. *)
Definition InnerGraph : Type := list (Key * Value).

(** [innerGraph.get(key)]: an absent key reads as [undefined]. *)
Definition graph_get (innerGraph : InnerGraph) (key : Key) : Value :=
  default VUndefined (JsMap.get key innerGraph).

(** [typeof item === "string"]. *)
Definition is_string (item : Item) : bool :=
  match item with IString _ => true | ISymbol _ => false end.

(** ** [TopLevelSymbol.addDependency] (lines 46-55) *)

Definition addDependency
    (this : TopLevelSymbol) (dep : DepArg) (innerGraph : InnerGraph)
    : InnerGraph :=
  let info := graph_get innerGraph (KSymbol this) in
  match dep with
  | ArgTrue => JsMap.set (KSymbol this) VTrue innerGraph
  | ArgItem d =>
      match info with
      | VUndefined =>
          JsMap.set (KSymbol this) (VSet (JsSet.of_list [d])) innerGraph
      | VSet items =>
          (* [info.add(dep)] updates the Set held by the entry *)
          JsMap.set (KSymbol this) (VSet (JsSet.add d items)) innerGraph
      | VTrue => innerGraph
      end
  end.

(** ** Flattening (lines 86-120) *)

(** The two variables the closure [expand] works on. *)
Record FlattenState : Type :=
  { innerGraph : InnerGraph; unexpanded : list Key }.

Definition set_value (key : Key) (v : Value) (st : FlattenState)
    : FlattenState :=
  {| innerGraph := JsMap.set key v (innerGraph st);
     unexpanded := unexpanded st |}.

(** The inner loop [for (const i of itemValue) if (typeof i === "string")
    newSet.add(i)]. *)
Definition add_strings (itemValue newSet : list Item) : list Item :=
  foldl (λ acc i, if is_string i then JsSet.add i acc else acc)
        newSet itemValue.

(** The end of [expand]: [newSet.size === 0] stores [undefined]. *)
Definition store_newSet (key : Key) (newSet : list Item)
    (st : FlattenState) : FlattenState :=
  match newSet with
  | [] => set_value key VUndefined st
  | _ => set_value key (VSet newSet) st
  end.

(** The loop [for (const item of value)] of [expand], over the items
    still to visit; [rec] is the recursive call [expand(item)].  The
    [return] after [innerGraph.set(key, true)] leaves the loop. *)
Fixpoint expand_items
    (rec : Key → FlattenState → option FlattenState)
    (key : Key) (items newSet : list Item) (st : FlattenState)
    : option FlattenState :=
  match items with
  | [] => Some (store_newSet key newSet st)
  | IString s :: items =>
      expand_items rec key items (JsSet.add (IString s) newSet) st
  | ISymbol item :: items =>
      match rec (KSymbol item) st with
      | None => None
      | Some st =>
          match graph_get (innerGraph st) (KSymbol item) with
          | VTrue => Some (set_value key VTrue st)
          | VUndefined => expand_items rec key items newSet st
          | VSet itemValue =>
              expand_items rec key items (add_strings itemValue newSet) st
          end
      end
  end.

(** [expand(key)].  The recursion of the source is bounded by the size
    of [unexpanded]; [fuel] bounds the depth of the calls and [None]
    means it ran out. *)
Fixpoint expand (fuel : nat) (key : Key) (st : FlattenState)
    : option FlattenState :=
  match fuel with
  | O => None
  | S fuel =>
      if negb (JsSet.has key (unexpanded st)) then Some st
      else
        let st := {| innerGraph := innerGraph st;
                     unexpanded := JsSet.delete key (unexpanded st) |} in
        match graph_get (innerGraph st) key with
        | VSet value => expand_items (expand fuel) key value [] st
        | VTrue | VUndefined => Some st
        end
  end.

(** [for (const item of order) expand(item)]. *)
Fixpoint expand_all (fuel : nat) (order : list Key) (st : FlattenState)
    : option FlattenState :=
  match order with
  | [] => Some st
  | item :: order =>
      match expand fuel item st with
      | None => None
      | Some st => expand_all fuel order st
      end
  end.

(** Flattening with the keys expanded in the given [order].  The working
    set is [new Set(innerGraph.keys())]. *)
Definition flatten_in_order (order : list Key) (g : InnerGraph)
    : option InnerGraph :=
  let unexpanded := JsSet.of_list (JsMap.keys g) in
  innerGraph <$>
    expand_all (S (length unexpanded)) order
      {| innerGraph := g; unexpanded := unexpanded |}.

(** The source iterates over [unexpanded] itself while [expand] deletes
    from it: a JavaScript Set iterator visits the members in insertion
    order and skips those deleted before it reaches them.  Calling
    [expand] on a deleted member returns at once, so the loop is the
    iteration over the initial members. *)
Definition flatten (g : InnerGraph) : option InnerGraph :=
  flatten_in_order (JsSet.of_list (JsMap.keys g)) g.

(** ** Syntax tree

    The ESTree nodes the plugin looks at, with the fields it reads. *)

(** Initializers.  The first six types are the ones the plugin tells
    apart; the others stand for the shapes it does not recognise. *)
Inductive Expression : Type :=
  | Identifier (range : Range) (name : string)
  | Literal (range : Range)
  | ConditionalExpression (range : Range)
      (test consequent alternate : Expression)
  | FunctionExpression (range : Range)
  | ArrowFunctionExpression (range : Range)
  | ClassExpression (range : Range)
  | CallExpression (range : Range)
  | NewExpression (range : Range)
  | MemberExpression (range : Range)
  | ObjectExpression (range : Range)
  | ArrayExpression (range : Range)
  | TemplateLiteral (range : Range).

(** [expr.range]. *)
Definition expr_range (expr : Expression) : Range :=
  match expr with
  | Identifier r _ | Literal r | ConditionalExpression r _ _ _
  | FunctionExpression r | ArrowFunctionExpression r | ClassExpression r
  | CallExpression r | NewExpression r | MemberExpression r
  | ObjectExpression r | ArrayExpression r | TemplateLiteral r => r
  end.

(** The binding of a declarator, [decl.id]. *)
Inductive Pattern : Type :=
  | IdentifierPattern (range : Range) (name : string)
  | ObjectPattern (range : Range)
  | ArrayPattern (range : Range).

Definition pattern_range (p : Pattern) : Range :=
  match p with
  | IdentifierPattern r _ | ObjectPattern r | ArrayPattern r => r
  end.

(** A [VariableDeclarator]; [decl_init = None] is [init: null]. *)
Record VariableDeclarator : Type :=
  { decl_id : Pattern;
    decl_init : option Expression;
    decl_loc : SourceLocation }.

(** What [export default] carries, by its [type]. *)
Inductive DefaultDeclaration : Type :=
  | DefaultExpression (e : Expression)
  | DefaultFunctionDeclaration (id : option string)
  | DefaultClassDeclaration (id : option string).

(** Statements; [id] is [statement.id.name], [None] when [statement.id]
    is [null]. *)
Inductive Statement : Type :=
  | FunctionDeclaration (range : Range) (id : option string)
  | ClassDeclaration (range : Range) (id : option string)
  | ExportDefaultDeclaration (range : Range)
      (declaration : DefaultDeclaration)
  | VariableDeclaration (range : Range)
      (declarations : list VariableDeclarator)
  | ExpressionStatement (range : Range) (expression : Expression)
  | OtherStatement (range : Range).

(** Comments; [value] is the text of the comment as UTF-16 code units. *)
Inductive CommentType : Type := Block | Line.

Record Comment : Type :=
  { comment_type : CommentType; comment_value : list N }.

#[global] Instance Expression_eq_dec : EqDecision Expression.
Proof. solve_decision. Defined.
#[global] Instance Pattern_eq_dec : EqDecision Pattern.
Proof. solve_decision. Defined.
#[global] Instance VariableDeclarator_eq_dec : EqDecision VariableDeclarator.
Proof. solve_decision. Defined.
#[global] Instance DefaultDeclaration_eq_dec : EqDecision DefaultDeclaration.
Proof. solve_decision. Defined.
#[global] Instance Statement_eq_dec : EqDecision Statement.
Proof. solve_decision. Defined.
#[global] Instance CommentType_eq_dec : EqDecision CommentType.
Proof. solve_decision. Defined.

(** ** [isPure] (lines 18-30) *)

Fixpoint isPure (expr : Expression) : bool :=
  match expr with
  | Identifier _ _ => true
  | Literal _ => true
  | ConditionalExpression _ test consequent alternate =>
      isPure test && isPure consequent && isPure alternate
  | _ => false
  end.

(** ** The regular expression [/^\s*(#|@)__PURE__\s*$/] (line 223) *)

Local Open Scope N_scope.

(** [\s] without the [u] flag: the WhiteSpace and LineTerminator code
    units of ECMAScript. *)
Definition is_whitespace (c : N) : bool :=
  (9 <=? c) && (c <=? 13)
  || (c =? 32) || (c =? 160) || (c =? 5760)
  || (8192 <=? c) && (c <=? 8202)
  || (c =? 8232) || (c =? 8233) || (c =? 8239) || (c =? 8287)
  || (c =? 12288) || (c =? 65279).

(** The code units of [__PURE__]. *)
Definition PURE : list N := [95; 95; 80; 85; 82; 69; 95; 95].

(** [#] or [@]. *)
Definition is_pure_marker (c : N) : bool := (c =? 35) || (c =? 64).

Fixpoint skip_whitespace (s : list N) : list N :=
  match s with
  | c :: s' => if is_whitespace c then skip_whitespace s' else s
  | [] => []
  end.

Fixpoint strip_prefix (p s : list N) : option (list N) :=
  match p, s with
  | [], _ => Some s
  | a :: p, b :: s => if a =? b then strip_prefix p s else None
  | _ :: _, [] => None
  end.

(** [/^\s*(#|@)__PURE__\s*$/.test(value)].  The marker is not white
    space, so the leading [\s*] takes all the leading white space. *)
Definition pure_regexp_test (value : list N) : bool :=
  match skip_whitespace value with
  | c :: rest =>
      is_pure_marker c &&
      match strip_prefix PURE rest with
      | Some tail => forallb is_whitespace tail
      | None => false
      end
  | [] => false
  end.

Local Close Scope N_scope.

(** ** Parser state *)

(** [parser.scope.topLevelScope]: [true], [false] or ["arrow"]. *)
Inductive TopLevelScope : Type := ScopeTrue | ScopeFalse | ScopeArrow.

#[global] Instance TopLevelScope_eq_dec : EqDecision TopLevelScope.
Proof. solve_decision. Defined.

(** [dep.usedByExports] as the publication loop writes it. *)
Inductive UsedByExports : Type :=
  | UsedFalse
  | UsedTrue
  | UsedSet (items : list Item).

(** Everything the hooks read and write: the parser's scope and state,
    the three closure variables of [handler], and the heap of objects
    made by [new].  The two WeakMaps and the WeakSet are keyed by nodes
    of the syntax tree; a node is identified by its content, which
    includes its source range, so two nodes of one module never
    coincide. *)
Record ParserState : Type :=
  { (* parser.scope *)
    topLevelScope : TopLevelScope;
    definitions : gmap string (option TopLevelSymbol);
    (* parser.state *)
    harmonyInnerGraph : option InnerGraph;
    harmonyAllExportDependentDependencies : list Dependency;
    currentTopLevelSymbol : option TopLevelSymbol;
    module_dependencies : list Dependency;
    (* const statementWithTopLevelSymbol = new WeakMap() and the like *)
    statementWithTopLevelSymbol : list (Statement * TopLevelSymbol);
    declWithTopLevelSymbol : list (VariableDeclarator * TopLevelSymbol);
    pureDeclarators : list VariableDeclarator;
    (* objects *)
    next_id : nat;
    usedByExports : list (Dependency * UsedByExports) }.

Definition set_topLevelScope v (st : ParserState) : ParserState :=
  {| topLevelScope := v; definitions := definitions st;
     harmonyInnerGraph := harmonyInnerGraph st;
     harmonyAllExportDependentDependencies :=
       harmonyAllExportDependentDependencies st;
     currentTopLevelSymbol := currentTopLevelSymbol st;
     module_dependencies := module_dependencies st;
     statementWithTopLevelSymbol := statementWithTopLevelSymbol st;
     declWithTopLevelSymbol := declWithTopLevelSymbol st;
     pureDeclarators := pureDeclarators st;
     next_id := next_id st; usedByExports := usedByExports st |}.

Definition set_definitions v (st : ParserState) : ParserState :=
  {| topLevelScope := topLevelScope st; definitions := v;
     harmonyInnerGraph := harmonyInnerGraph st;
     harmonyAllExportDependentDependencies :=
       harmonyAllExportDependentDependencies st;
     currentTopLevelSymbol := currentTopLevelSymbol st;
     module_dependencies := module_dependencies st;
     statementWithTopLevelSymbol := statementWithTopLevelSymbol st;
     declWithTopLevelSymbol := declWithTopLevelSymbol st;
     pureDeclarators := pureDeclarators st;
     next_id := next_id st; usedByExports := usedByExports st |}.

Definition set_harmonyInnerGraph v (st : ParserState) : ParserState :=
  {| topLevelScope := topLevelScope st; definitions := definitions st;
     harmonyInnerGraph := v;
     harmonyAllExportDependentDependencies :=
       harmonyAllExportDependentDependencies st;
     currentTopLevelSymbol := currentTopLevelSymbol st;
     module_dependencies := module_dependencies st;
     statementWithTopLevelSymbol := statementWithTopLevelSymbol st;
     declWithTopLevelSymbol := declWithTopLevelSymbol st;
     pureDeclarators := pureDeclarators st;
     next_id := next_id st; usedByExports := usedByExports st |}.

Definition set_harmonyAllExportDependentDependencies v (st : ParserState)
    : ParserState :=
  {| topLevelScope := topLevelScope st; definitions := definitions st;
     harmonyInnerGraph := harmonyInnerGraph st;
     harmonyAllExportDependentDependencies := v;
     currentTopLevelSymbol := currentTopLevelSymbol st;
     module_dependencies := module_dependencies st;
     statementWithTopLevelSymbol := statementWithTopLevelSymbol st;
     declWithTopLevelSymbol := declWithTopLevelSymbol st;
     pureDeclarators := pureDeclarators st;
     next_id := next_id st; usedByExports := usedByExports st |}.

Definition set_currentTopLevelSymbol v (st : ParserState) : ParserState :=
  {| topLevelScope := topLevelScope st; definitions := definitions st;
     harmonyInnerGraph := harmonyInnerGraph st;
     harmonyAllExportDependentDependencies :=
       harmonyAllExportDependentDependencies st;
     currentTopLevelSymbol := v;
     module_dependencies := module_dependencies st;
     statementWithTopLevelSymbol := statementWithTopLevelSymbol st;
     declWithTopLevelSymbol := declWithTopLevelSymbol st;
     pureDeclarators := pureDeclarators st;
     next_id := next_id st; usedByExports := usedByExports st |}.

Definition set_module_dependencies v (st : ParserState) : ParserState :=
  {| topLevelScope := topLevelScope st; definitions := definitions st;
     harmonyInnerGraph := harmonyInnerGraph st;
     harmonyAllExportDependentDependencies :=
       harmonyAllExportDependentDependencies st;
     currentTopLevelSymbol := currentTopLevelSymbol st;
     module_dependencies := v;
     statementWithTopLevelSymbol := statementWithTopLevelSymbol st;
     declWithTopLevelSymbol := declWithTopLevelSymbol st;
     pureDeclarators := pureDeclarators st;
     next_id := next_id st; usedByExports := usedByExports st |}.

Definition set_statementWithTopLevelSymbol v (st : ParserState)
    : ParserState :=
  {| topLevelScope := topLevelScope st; definitions := definitions st;
     harmonyInnerGraph := harmonyInnerGraph st;
     harmonyAllExportDependentDependencies :=
       harmonyAllExportDependentDependencies st;
     currentTopLevelSymbol := currentTopLevelSymbol st;
     module_dependencies := module_dependencies st;
     statementWithTopLevelSymbol := v;
     declWithTopLevelSymbol := declWithTopLevelSymbol st;
     pureDeclarators := pureDeclarators st;
     next_id := next_id st; usedByExports := usedByExports st |}.

Definition set_declWithTopLevelSymbol v (st : ParserState) : ParserState :=
  {| topLevelScope := topLevelScope st; definitions := definitions st;
     harmonyInnerGraph := harmonyInnerGraph st;
     harmonyAllExportDependentDependencies :=
       harmonyAllExportDependentDependencies st;
     currentTopLevelSymbol := currentTopLevelSymbol st;
     module_dependencies := module_dependencies st;
     statementWithTopLevelSymbol := statementWithTopLevelSymbol st;
     declWithTopLevelSymbol := v;
     pureDeclarators := pureDeclarators st;
     next_id := next_id st; usedByExports := usedByExports st |}.

Definition set_pureDeclarators v (st : ParserState) : ParserState :=
  {| topLevelScope := topLevelScope st; definitions := definitions st;
     harmonyInnerGraph := harmonyInnerGraph st;
     harmonyAllExportDependentDependencies :=
       harmonyAllExportDependentDependencies st;
     currentTopLevelSymbol := currentTopLevelSymbol st;
     module_dependencies := module_dependencies st;
     statementWithTopLevelSymbol := statementWithTopLevelSymbol st;
     declWithTopLevelSymbol := declWithTopLevelSymbol st;
     pureDeclarators := v;
     next_id := next_id st; usedByExports := usedByExports st |}.

Definition set_next_id v (st : ParserState) : ParserState :=
  {| topLevelScope := topLevelScope st; definitions := definitions st;
     harmonyInnerGraph := harmonyInnerGraph st;
     harmonyAllExportDependentDependencies :=
       harmonyAllExportDependentDependencies st;
     currentTopLevelSymbol := currentTopLevelSymbol st;
     module_dependencies := module_dependencies st;
     statementWithTopLevelSymbol := statementWithTopLevelSymbol st;
     declWithTopLevelSymbol := declWithTopLevelSymbol st;
     pureDeclarators := pureDeclarators st;
     next_id := v; usedByExports := usedByExports st |}.

Definition set_usedByExports v (st : ParserState) : ParserState :=
  {| topLevelScope := topLevelScope st; definitions := definitions st;
     harmonyInnerGraph := harmonyInnerGraph st;
     harmonyAllExportDependentDependencies :=
       harmonyAllExportDependentDependencies st;
     currentTopLevelSymbol := currentTopLevelSymbol st;
     module_dependencies := module_dependencies st;
     statementWithTopLevelSymbol := statementWithTopLevelSymbol st;
     declWithTopLevelSymbol := declWithTopLevelSymbol st;
     pureDeclarators := pureDeclarators st;
     next_id := next_id st; usedByExports := v |}.

(** ** The monad of the hooks

    A hook reads and writes the parser state; [None] is a thrown
    [TypeError] (a method called on [undefined]) or, for [finish], the
    recursion bound of [expand] being hit. *)

Definition Hook (A : Type) : Type := ParserState → option (A * ParserState).

#[global] Instance Hook_ret : MRet Hook := λ A x st, Some (x, st).

#[global] Instance Hook_bind : MBind Hook := λ A B f m st,
  match m st with
  | Some (x, st') => f x st'
  | None => None
  end.

Definition gets {A : Type} (f : ParserState → A) : Hook A :=
  λ st, Some (f st, st).

Definition modify (f : ParserState → ParserState) : Hook unit :=
  λ st, Some (tt, f st).

Definition throw {A : Type} : Hook A := λ _, None.

(** What a hook hands back to the parser: [true] for [return true],
    [false] for falling off the end ([undefined]). *)
Definition returned : Type := bool.
Definition undefined : returned := false.

(** ** Parser methods used by the plugin *)

(** [JavascriptParser.defineVariable], [tagVariable] and [getTagData]
    are not part of the sources at hand.  The state they work on is the
    variable table of the scope, from a declared name to what is tagged
    on it under [topLevelSymbolTag].

    The spec has no words for [defineVariable].  It is taken as it is in
    the scope that declared the name: a name that is defined stays as it
    is, tag included.  A parser that defines the name anew, as for a
    declaration in a nested block scope, shadows the tag; that case is
    not covered by this definition, and [tagVar_on] below takes the
    parser's methods as parameters for what must hold either way. *)
Definition defineVariable (name : string) : Hook unit :=
  modify (λ st,
    match definitions st !! name with
    | Some _ => st
    | None => set_definitions (<[name := None]> (definitions st)) st
    end).

(** Modelled from the spec: [JavascriptParser.tagVariable], after the
    symbol table of the spec, a mapping from a declared name to its
    TopLevelSymbol that registration populates. *)
Definition tagVariable (name : string) (data : TopLevelSymbol) : Hook unit :=
  modify (λ st, set_definitions (<[name := Some data]> (definitions st)) st).

(** Modelled from the spec: [JavascriptParser.getTagData], the lookup in
    that table when a name is resolved. *)
Definition getTagData (name : string) : Hook (option TopLevelSymbol) :=
  gets (λ st, definitions st !! name ≫= id).

(** [new TopLevelSymbol(name, innerGraph)]: a fresh object. *)
Definition new_TopLevelSymbol (name : string) : Hook TopLevelSymbol :=
  λ st, Some ({| sym_id := next_id st; name := name |},
              set_next_id (S (next_id st)) st).

(** [new PureExpressionDependency(range)] followed by [dep.loc = loc]. *)
Definition new_PureExpressionDependency (range : Range)
    (loc : SourceLocation) : Hook Dependency :=
  λ st, Some ({| dep_id := next_id st; dep_range := range; dep_loc := loc |},
              set_next_id (S (next_id st)) st).

(** ** The hooks of [handler] (lines 76-276) *)

Section handler.

(** [parser.getComments(range)] and [parser.walkExpression(expr)] belong
    to the parser; the walk calls back into the hooks below. *)
Variable getComments : Range → list Comment.
Variable walkExpression : Expression → Hook unit.

(** [parser.hooks.program] (lines 77-80). *)
Definition program : Hook returned :=
  modify (set_harmonyInnerGraph (Some [])) ;;
  modify (set_harmonyAllExportDependentDependencies []) ;;
  mret undefined.

(** The [switch (value)] of the publication loop (lines 124-134). *)
Definition decision (value : Value) : UsedByExports :=
  match value with
  | VUndefined => UsedFalse
  | VTrue => UsedTrue
  | VSet items => UsedSet items
  end.

(** The publication loop (lines 121-135): [dep.usedByExports = ...] for
    every member of the pending set. *)
Fixpoint publish (innerGraph : InnerGraph) (deps : list Dependency)
    (store : list (Dependency * UsedByExports))
    : list (Dependency * UsedByExports) :=
  match deps with
  | [] => store
  | dep :: deps =>
      let value := graph_get innerGraph (KDependency dep) in
      publish innerGraph deps (JsMap.set dep (decision value) store)
  end.

(** [parser.hooks.finish] (lines 82-136). *)
Definition finish : Hook returned :=
  innerGraph ← gets harmonyInnerGraph;
  match innerGraph with
  | None => mret undefined
  | Some innerGraph =>
      match flatten innerGraph with
      | None => throw
      | Some innerGraph =>
          modify (set_harmonyInnerGraph (Some innerGraph)) ;;
          deps ← gets harmonyAllExportDependentDependencies;
          modify (λ st,
            set_usedByExports (publish innerGraph deps (usedByExports st)) st) ;;
          mret undefined
      end
  end.

(** The registration shared by lines 145-148, 159-162 and 176-179. *)
Definition register_statement (statement : Statement) (name : string)
    : Hook unit :=
  defineVariable name ;;
  fn ← new_TopLevelSymbol name;
  tagVariable name fn ;;
  modify (λ st, set_statementWithTopLevelSymbol
                  (JsMap.set statement fn (statementWithTopLevelSymbol st)) st).

(** [statement.id ? statement.id.name : "*default*"]. *)
Definition name_or_default (id : option string) : string :=
  match id with
  | Some name => name
  | None => "*default*"%string
  end.

(** [parser.hooks.preStatement] (lines 139-152). *)
Definition preStatement (statement : Statement) : Hook returned :=
  scope ← gets topLevelScope;
  match scope, statement with
  | ScopeTrue, FunctionDeclaration _ id =>
      register_statement statement (name_or_default id) ;;
      mret true
  | _, _ => mret undefined
  end.

(** [parser.hooks.blockPreStatement] (lines 153-183). *)
Definition blockPreStatement (statement : Statement) : Hook returned :=
  scope ← gets topLevelScope;
  match scope, statement with
  | ScopeTrue, ClassDeclaration _ id =>
      register_statement statement (name_or_default id) ;;
      mret true
  | ScopeTrue, ExportDefaultDeclaration _ decl =>
      match decl with
      | DefaultExpression (FunctionExpression _)
      | DefaultExpression (ArrowFunctionExpression _)
      | DefaultExpression (ClassExpression _)
      | DefaultExpression (Identifier _ _) =>
          register_statement statement "*default*"%string ;;
          mret undefined
      | _ => mret undefined
      end
  | _, _ => mret undefined
  end.

(** [tagVar] (lines 184-194). *)
Definition tagVar (name : string) : Hook TopLevelSymbol :=
  defineVariable name ;;
  existingTag ← getTagData name;
  match existingTag with
  | Some fn => mret fn
  | None =>
      fn ← new_TopLevelSymbol name;
      tagVariable name fn ;;
      mret fn
  end.

(** The test of a comment in [some] (lines 221-223). *)
Definition is_pure_comment (comment : Comment) : bool :=
  bool_decide (comment_type comment = Block)
  && pure_regexp_test (comment_value comment).

(** The condition of lines 216-226. *)
Definition pure_condition (id : Pattern) (init : Expression) : bool :=
  (bool_decide ((expr_range init).1 - (pattern_range id).2 > 9)%Z
   && existsb is_pure_comment
        (getComments ((pattern_range id).2, (expr_range init).1)))
  || isPure init.

(** [parser.hooks.preDeclarator] (lines 198-235). *)
Definition preDeclarator (decl : VariableDeclarator) : Hook returned :=
  scope ← gets topLevelScope;
  match scope, decl_init decl, decl_id decl with
  | ScopeTrue, Some init, IdentifierPattern _ name =>
      match init with
      | FunctionExpression _ | ArrowFunctionExpression _
      | ClassExpression _ =>
          fn ← tagVar name;
          modify (λ st, set_declWithTopLevelSymbol
                          (JsMap.set decl fn (declWithTopLevelSymbol st)) st) ;;
          mret true
      | _ =>
          if pure_condition (decl_id decl) init then
            fn ← tagVar name;
            modify (λ st, set_declWithTopLevelSymbol
                            (JsMap.set decl fn (declWithTopLevelSymbol st)) st) ;;
            modify (λ st, set_pureDeclarators
                            (JsSet.add decl (pureDeclarators st)) st) ;;
            mret true
          else mret undefined
      end
  | _, _, _ => mret undefined
  end.

(** [parser.hooks.statement] (lines 236-244). *)
Definition statement (stmt : Statement) : Hook returned :=
  scope ← gets topLevelScope;
  match scope with
  | ScopeTrue =>
      modify (set_currentTopLevelSymbol None) ;;
      fn ← gets (λ st, JsMap.get stmt (statementWithTopLevelSymbol st));
      match fn with
      | Some fn => modify (set_currentTopLevelSymbol (Some fn))
      | None => mret tt
      end ;;
      mret undefined
  | _ => mret undefined
  end.

(** Lines 249-255 of the declarator hook: the dependency of a pure
    declarator, its graph entry and its place in the pending set. *)
Definition add_pure_dependency (init : Expression) (loc : SourceLocation)
    (fn : TopLevelSymbol) : Hook unit :=
  innerGraph ← gets harmonyInnerGraph;
  dep ← new_PureExpressionDependency (expr_range init) loc;
  modify (λ st, set_module_dependencies (module_dependencies st ++ [dep]) st) ;;
  match innerGraph with
  | None => throw
  | Some innerGraph =>
      modify (set_harmonyInnerGraph
                (Some (JsMap.set (KDependency dep)
                         (VSet (JsSet.of_list [ISymbol fn])) innerGraph))) ;;
      modify (λ st, set_harmonyAllExportDependentDependencies
                      (JsSet.add dep (harmonyAllExportDependentDependencies st))
                      st)
  end.

(** [parser.hooks.declarator] (lines 245-262).  A declarator found in
    [declWithTopLevelSymbol] has an initializer: [preDeclarator] stores
    no other; reading [decl.init.range] of [null] throws. *)
Definition declarator (decl : VariableDeclarator) : Hook returned :=
  fn ← gets (λ st, JsMap.get decl (declWithTopLevelSymbol st));
  match fn with
  | Some fn =>
      match decl_init decl with
      | None => throw
      | Some init =>
          marked ← gets (λ st, JsSet.has decl (pureDeclarators st));
          (if (marked : bool) then add_pure_dependency init (decl_loc decl) fn
           else mret tt) ;;
          modify (set_currentTopLevelSymbol (Some fn)) ;;
          walkExpression init ;;
          modify (set_currentTopLevelSymbol None) ;;
          mret true
      end
  | None => mret undefined
  end.

(** [parser.hooks.expression.for(topLevelSymbolTag)] (lines 263-270);
    [topLevelSymbol] is [parser.currentTagData].  The symbol's
    [innerGraph] is the graph of the module. *)
Definition expression (topLevelSymbol : TopLevelSymbol) : Hook returned :=
  currentTopLevelSymbol ← gets currentTopLevelSymbol;
  innerGraph ← gets harmonyInnerGraph;
  match innerGraph with
  | None => throw
  | Some innerGraph =>
      let dep :=
        match currentTopLevelSymbol with
        | Some fn => ArgItem (ISymbol fn)
        | None => ArgTrue
        end in
      modify (set_harmonyInnerGraph
                (Some (addDependency topLevelSymbol dep innerGraph))) ;;
      mret undefined
  end.

(** [parser.hooks.assign.for(topLevelSymbolTag)] (lines 271-275). *)
Definition assign (operator : string) : Hook returned :=
  if bool_decide (operator = "="%string) then mret true else mret undefined.

End handler.

(** ** The parser as a sequence of hook calls

    The parser drives the plugin: it calls the hooks in source order,
    changes [parser.scope.topLevelScope] when it enters and leaves
    functions, and, when the declarator hook asks it to walk an
    initializer, calls hooks again from inside that walk.  An [Event] is
    one such step; the events of [EvDeclarator] are what the walk of the
    initializer does.  The [program] hook is not an event: it runs once,
    before all of them. *)
#[local] Set Warnings "-register-all".
Inductive Event : Type :=
  | EvFinish
  | EvPreStatement (s : Statement)
  | EvBlockPreStatement (s : Statement)
  | EvPreDeclarator (d : VariableDeclarator)
  | EvStatement (s : Statement)
  | EvDeclarator (d : VariableDeclarator) (walk : list Event)
  | EvExpression (topLevelSymbol : TopLevelSymbol)
  | EvAssign (operator : string)
  | EvScope (scope : TopLevelScope).

Section run.

Variable getComments : Range → list Comment.

Fixpoint run_event (e : Event) : Hook unit :=
  match e with
  | EvFinish => finish ;; mret tt
  | EvPreStatement s => preStatement s ;; mret tt
  | EvBlockPreStatement s => blockPreStatement s ;; mret tt
  | EvPreDeclarator d => preDeclarator getComments d ;; mret tt
  | EvStatement s => statement s ;; mret tt
  | EvDeclarator d walk =>
      let run_walk :=
        fix run_walk (events : list Event) : Hook unit :=
          match events with
          | [] => mret tt
          | e :: events => run_event e ;; run_walk events
          end in
      declarator (λ _, run_walk walk) d ;; mret tt
  | EvExpression topLevelSymbol => expression topLevelSymbol ;; mret tt
  | EvAssign operator => assign operator ;; mret tt
  | EvScope scope => modify (set_topLevelScope scope)
  end.

Fixpoint run_events (events : list Event) : Hook unit :=
  match events with
  | [] => mret tt
  | e :: events => run_event e ;; run_events events
  end.

End run.

(** The state of a module once [program] has run on a fresh parser. *)
Definition fresh_parser : ParserState :=
  {| topLevelScope := ScopeTrue; definitions := ∅;
     harmonyInnerGraph := None;
     harmonyAllExportDependentDependencies := [];
     currentTopLevelSymbol := None;
     module_dependencies := [];
     statementWithTopLevelSymbol := [];
     declWithTopLevelSymbol := [];
     pureDeclarators := [];
     next_id := 0; usedByExports := [] |}.

Definition module_start : ParserState :=
  match program fresh_parser with
  | Some (_, st) => st
  | None => fresh_parser
  end.

(** ** Notions used to state the properties *)

(** A value without internal edges: [undefined], [true], or a set whose
    members are all strings. *)
Definition leaf_only (v : Value) : Prop :=
  match v with
  | VSet items => ∀ i, i ∈ items → is_string i = true
  | VUndefined | VTrue => True
  end.

(** The symbol-to-symbol edges of the graph go down along a numbering of
    the keys: the graph has no cycle, self-cycles included. *)
Definition acyclic (g : InnerGraph) : Prop :=
  ∃ rank : Key → nat,
    ∀ key items child,
      graph_get g key = VSet items → ISymbol child ∈ items →
      rank (KSymbol child) < rank key.

(** Operations on the graph after which a value is looked at again:
    [addDependency] on some symbol, and a run of the flattening. *)
Inductive GraphOp : Type :=
  | OpAddDependency (s : TopLevelSymbol) (dep : DepArg)
  | OpFlatten.

Definition run_op (op : GraphOp) (g : InnerGraph) : option InnerGraph :=
  match op with
  | OpAddDependency s dep => Some (addDependency s dep g)
  | OpFlatten => flatten g
  end.

Fixpoint run_ops (ops : list GraphOp) (g : InnerGraph) : option InnerGraph :=
  match ops with
  | [] => Some g
  | op :: ops =>
      match run_op op g with
      | None => None
      | Some g => run_ops ops g
      end
  end.

(** [addDependency] as the specification words it: nothing happens to a
    symbol that is always used; the sentinel makes the value always-used;
    any other target joins the set, which is created when the value was
    unset. *)
Definition addDependency_spec
    (this : TopLevelSymbol) (target : DepArg) (g : InnerGraph) : InnerGraph :=
  match graph_get g (KSymbol this), target with
  | VTrue, _ => g
  | _, ArgTrue => JsMap.set (KSymbol this) VTrue g
  | VUndefined, ArgItem t => JsMap.set (KSymbol this) (VSet [t]) g
  | VSet items, ArgItem t =>
      JsMap.set (KSymbol this)
        (VSet (if bool_decide (t ∈ items) then items else items ++ [t])) g
  end.

(** The flattened value of a key, read off the graph along its edges:
    what [expand] stores when every child is expanded before it is
    read. *)
Inductive Flat (g : InnerGraph) : Key → Value → Prop :=
  | Flat_undefined key :
      graph_get g key = VUndefined → Flat g key VUndefined
  | Flat_true key :
      graph_get g key = VTrue → Flat g key VTrue
  | Flat_set key items v :
      graph_get g key = VSet items → Merge g items [] v → Flat g key v
with Merge (g : InnerGraph) : list Item → list Item → Value → Prop :=
  | Merge_nil newSet :
      Merge g [] newSet
        (match newSet with [] => VUndefined | _ => VSet newSet end)
  | Merge_string s items newSet v :
      Merge g items (JsSet.add (IString s) newSet) v →
      Merge g (IString s :: items) newSet v
  | Merge_true child items newSet :
      Flat g (KSymbol child) VTrue →
      Merge g (ISymbol child :: items) newSet VTrue
  | Merge_undefined child items newSet v :
      Flat g (KSymbol child) VUndefined →
      Merge g items newSet v →
      Merge g (ISymbol child :: items) newSet v
  | Merge_set child itemValue items newSet v :
      Flat g (KSymbol child) (VSet itemValue) →
      Merge g items (add_strings itemValue newSet) v →
      Merge g (ISymbol child :: items) newSet v.

(** What a run of [expand] leaves alone: the working set only shrinks,
    keys outside it keep their value, and [true] stays. *)
Record frame (st st' : FlattenState) : Prop :=
  { frame_unexpanded :
      ∀ k, k ∈ unexpanded st' → k ∈ unexpanded st;
    frame_resolved :
      ∀ k, k ∉ unexpanded st →
        graph_get (innerGraph st') k = graph_get (innerGraph st) k;
    frame_true :
      ∀ k, graph_get (innerGraph st) k = VTrue →
        graph_get (innerGraph st') k = VTrue }.

(** The frame of the loop of [expand(key)]: as [frame], but for [key],
    whose value the loop is about to write. *)
Definition frame_but (key : Key) (st st' : FlattenState) : Prop :=
  (∀ k, k ∈ unexpanded st' → k ∈ unexpanded st)
  ∧ (∀ k, k ≠ key → k ∉ unexpanded st →
       graph_get (innerGraph st') k = graph_get (innerGraph st) k)
  ∧ (∀ k, k ≠ key → graph_get (innerGraph st) k = VTrue →
       graph_get (innerGraph st') k = VTrue).

(** The invariant of the flattening for [leaf_only]: a key that left the
    working set is either still being expanded (it is in [pending]) or
    holds a value without internal edges. *)
Definition resolved_leaf (pending : list Key) (st : FlattenState) : Prop :=
  ∀ k, k ∉ unexpanded st →
    k ∈ pending ∨ leaf_only (graph_get (innerGraph st) k).

(** The invariant of the flattening of an acyclic graph [g]: a key in
    the working set still has its value of [g]; a key that left it is
    either still being expanded, with its value of [g], or holds its
    flattened value. *)
Definition in_sync (g : InnerGraph) (pending : list Key)
    (st : FlattenState) : Prop :=
  ∀ k,
    (k ∈ unexpanded st → graph_get (innerGraph st) k = graph_get g k)
    ∧ (k ∉ unexpanded st →
         (k ∈ pending ∧ graph_get (innerGraph st) k = graph_get g k)
         ∨ Flat g k (graph_get (innerGraph st) k)).

(** A declarator the plugin has not stored in [declWithTopLevelSymbol]. *)
Definition untracked (decl : VariableDeclarator) (st : ParserState) : Prop :=
  JsMap.get decl (declWithTopLevelSymbol st) = None.

(** A declarator that [preDeclarator] is to pass over: its binding is
    not a plain identifier, or it has no initializer. *)
Definition unqualified (decl : VariableDeclarator) : Prop :=
  decl_init decl = None
  ∨ ∀ range name, decl_id decl ≠ IdentifierPattern range name.

(** What the hooks rely on once [program] has run: the graph exists and
    every stored declarator has an initializer. *)
Definition hooks_ready (st : ParserState) : Prop :=
  is_Some (harmonyInnerGraph st)
  ∧ ∀ decl fn,
      JsMap.get decl (declWithTopLevelSymbol st) = Some fn →
      is_Some (decl_init decl).

(** The value of a key in the graph of the parser state. *)
Definition graph_value (st : ParserState) (k : Key) : Value :=
  match harmonyInnerGraph st with
  | Some g => graph_get g k
  | None => VUndefined
  end.

(** What every hook call keeps, from a state where [hooks_ready] holds:
    the hooks stay ready, a symbol that is always used stays so, and a
    declarator that does not qualify stays out of
    [declWithTopLevelSymbol]. *)
Record step_ok (st st' : ParserState) : Prop :=
  { step_ready : hooks_ready st';
    step_true :
      ∀ s, graph_value st (KSymbol s) = VTrue →
           graph_value st' (KSymbol s) = VTrue;
    step_untracked :
      ∀ decl, unqualified decl → untracked decl st → untracked decl st' }.

(** An event runs from [st] and keeps [step_ok]. *)
Definition event_ok (getComments : Range → list Comment) (e : Event) : Prop :=
  ∀ st, hooks_ready st →
    ∃ st', run_event getComments e st = Some (tt, st') ∧ step_ok st st'.

(** An initializer that is a function, arrow function or class
    expression: the first test of [preDeclarator] takes it. *)
Definition is_function_like (init : Expression) : bool :=
  match init with
  | FunctionExpression _ | ArrowFunctionExpression _ | ClassExpression _ =>
      true
  | _ => false
  end.

(** ** [tagVar] over any parser

    [tagVar] (lines 184-194) with the three methods of the parser it
    calls as parameters: nothing is assumed of them. *)

Section tagVar_on.

Variable parser_defineVariable : string → Hook unit.
Variable parser_getTagData : string → Hook (option TopLevelSymbol).
Variable parser_tagVariable : string → TopLevelSymbol → Hook unit.

Definition tagVar_on (name : string) : Hook TopLevelSymbol :=
  parser_defineVariable name ;;
  existingTag ← parser_getTagData name;
  match existingTag with
  | Some fn => mret fn
  | None =>
      fn ← new_TopLevelSymbol name;
      parser_tagVariable name fn ;;
      mret fn
  end.

End tagVar_on.

(** ** Comments with their place in the source *)

(** A comment of the module and its [range], which runs from the first
    character of its opening delimiter to the end of the comment. *)
Record LocatedComment : Type :=
  { located : Comment; comment_range : Range }.

(** [JavascriptParser.getComments] is not part of the sources at hand
    and the spec does not describe it.  For the samples, a parser that
    holds the comments of the module and returns those lying within the
    range asked for. *)
Definition getComments_in (comments : list LocatedComment) (range : Range)
    : list Comment :=
  located <$>
    filter (λ c, (range.1 ≤ (comment_range c).1)%Z
                 ∧ ((comment_range c).2 ≤ range.2)%Z) comments.

(** A block comment takes its text and the four characters of its
    delimiters. *)
Definition block_comment_fits (c : LocatedComment) : Prop :=
  ((comment_range c).2 - (comment_range c).1
   = Z.of_nat (length (comment_value (located c))) + 4)%Z.

Module PragmaSamples.

(** The comment [/*#__PURE__*/] of

      [var /*#__PURE__*/ a = f();]

    from offset 4 to offset 17; the identifier runs from 18 to 19 and
    the call starts at 22. *)
Definition hash_pragma : LocatedComment :=
  {| located :=
       {| comment_type := Block;
          comment_value := [35; 95; 95; 80; 85; 82; 69; 95; 95]%N |};
     comment_range := (4, 17)%Z |}.

Definition call_after_pragma : VariableDeclarator :=
  {| decl_id := IdentifierPattern (18, 19)%Z "a";
     decl_init := Some (CallExpression (22, 25)%Z);
     decl_loc := ((1, 18), (1, 25)) |}.

(** [var /*#__PURE__*/ a = 1;]. *)
Definition literal_after_pragma : VariableDeclarator :=
  {| decl_id := IdentifierPattern (18, 19)%Z "a";
     decl_init := Some (Literal (22, 23)%Z);
     decl_loc := ((1, 18), (1, 23)) |}.

(** [var a = /*#__PURE__*/ f();]: the identifier runs from 4 to 5, the
    comment from 8 to 21 and the call starts at 22. *)
Definition hash_pragma_between : LocatedComment :=
  {| located :=
       {| comment_type := Block;
          comment_value := [35; 95; 95; 80; 85; 82; 69; 95; 95]%N |};
     comment_range := (8, 21)%Z |}.

Definition call_with_pragma : VariableDeclarator :=
  {| decl_id := IdentifierPattern (4, 5)%Z "a";
     decl_init := Some (CallExpression (22, 25)%Z);
     decl_loc := ((1, 4), (1, 25)) |}.

(** A parser that defines the name anew, shadowing what was tagged on
    it. *)
Definition defineVariable_anew (name : string) : Hook unit :=
  modify (λ st, set_definitions (<[name := None]> (definitions st)) st).

End PragmaSamples.

(** ** Sample modules and graphs *)

Module Samples.

Definition a : TopLevelSymbol := {| sym_id := 0; name := "a" |}.
Definition b : TopLevelSymbol := {| sym_id := 1; name := "b" |}.
Definition c : TopLevelSymbol := {| sym_id := 2; name := "c" |}.

(** [a] is used by [b], [b] by [a] and [c], [c] by the export [x]. *)
Definition cyclic : InnerGraph :=
  [ (KSymbol a, VSet [ISymbol b]);
    (KSymbol b, VSet [ISymbol a; ISymbol c]);
    (KSymbol c, VSet [IString "x"]) ].

(** [a] is used by [b] and by the export [x], [b] by the export [y]. *)
Definition chain : InnerGraph :=
  [ (KSymbol a, VSet [ISymbol b; IString "x"]);
    (KSymbol b, VSet [IString "y"]) ].

Definition chain_rank (k : Key) : nat :=
  match k with
  | KSymbol s => if decide (s = a) then 1 else 0
  | KDependency _ => 0
  end.

(** A symbol that uses itself, and two that use each other only. *)
Definition self_cycle : InnerGraph := [ (KSymbol a, VSet [ISymbol a]) ].

Definition mutual : InnerGraph :=
  [ (KSymbol a, VSet [ISymbol b]); (KSymbol b, VSet [ISymbol a]) ].

(** [a] is always used and [b] is used by [a]. *)
Definition with_sentinel : InnerGraph :=
  [ (KSymbol a, VTrue); (KSymbol b, VSet [ISymbol a]) ].

(** The text of the comment in [/* @__PURE__ */]. *)
Definition pragma : Comment :=
  {| comment_type := Block;
     comment_value := [32; 64; 95; 95; 80; 85; 82; 69; 95; 95; 32]%N |}.

Definition comments_with_pragma : Range → list Comment := λ _, [pragma].

(** [const a = /* @__PURE__ */ compute();]: the identifier ends at 7 and
    the call starts at 26. *)
Definition pragma_call : VariableDeclarator :=
  {| decl_id := IdentifierPattern (6, 7)%Z "a";
     decl_init := Some (CallExpression (26, 35)%Z);
     decl_loc := ((1, 6), (1, 35)) |}.

(** A call that starts 9 characters after the end of the identifier. *)
Definition near_call : VariableDeclarator :=
  {| decl_id := IdentifierPattern (6, 7)%Z "a";
     decl_init := Some (CallExpression (16, 25)%Z);
     decl_loc := ((1, 6), (1, 25)) |}.

(** [var a = /* @__PURE__ */ function () {};]. *)
Definition pragma_function : VariableDeclarator :=
  {| decl_id := IdentifierPattern (4, 5)%Z "a";
     decl_init := Some (FunctionExpression (24, 38)%Z);
     decl_loc := ((1, 4), (1, 38)) |}.

(** [const {p} = q;] and [let u;]. *)
Definition destructuring : VariableDeclarator :=
  {| decl_id := ObjectPattern (6, 9)%Z;
     decl_init := Some (Identifier (12, 13)%Z "q");
     decl_loc := ((1, 6), (1, 13)) |}.

Definition no_walk : Expression → Hook unit := λ _, mret tt.

(** [function f() {}] twice, at two places of a script. *)
Definition first_f : Statement := FunctionDeclaration (0, 15)%Z (Some "f").
Definition second_f : Statement := FunctionDeclaration (16, 31)%Z (Some "f").

Definition state_after (events : list Event) : ParserState :=
  match run_events comments_with_pragma events module_start with
  | Some (_, st) => st
  | None => module_start
  end.

(** A module in which the dependency of [const a = ...] is used by
    [a], and [a] by the export [bar]. *)
Definition dep_a : Dependency :=
  {| dep_id := 1; dep_range := (26, 35)%Z; dep_loc := ((1, 6), (1, 35)) |}.

Definition before_finish : ParserState :=
  set_harmonyAllExportDependentDependencies [dep_a]
    (set_harmonyInnerGraph
       (Some [ (KDependency dep_a, VSet [ISymbol a]);
               (KSymbol a, VSet [IString "bar"]) ])
       module_start).

End Samples.

(** ** Further notions: usage along the edges of the graph *)

(** [i] is a member of the set [v]; [undefined] and [true] have no
    members. *)
Definition value_has (v : Value) (i : Item) : Prop :=
  match v with
  | VSet items => i ∈ items
  | VUndefined | VTrue => False
  end.

(** [reach g k k']: from [k], the symbol-to-symbol edges of [g] lead
    to [k'] in zero or more steps. *)
Inductive reach (g : InnerGraph) : Key → Key → Prop :=
  | reach_refl k : reach g k k
  | reach_step k child k' :
      value_has (graph_get g k) (ISymbol child) →
      reach g (KSymbol child) k' →
      reach g k k'.

(** [k] is used unconditionally: it reaches a key whose value is
    [true]. *)
Definition uses_always (g : InnerGraph) (k : Key) : Prop :=
  ∃ k', reach g k k' ∧ graph_get g k' = VTrue.

(** [k] is used through the export [s]: it reaches a key whose set has
    the string [s]. *)
Definition uses_export (g : InnerGraph) (k : Key) (s : string) : Prop :=
  ∃ k', reach g k k' ∧ value_has (graph_get g k') (IString s).

(** The value of [k] in a state of the flattening says nothing the graph
    [g] does not: its edges are edges of [g], and what it holds of
    [true] and of strings is reached in [g]. *)
Definition supported (g : InnerGraph) (k : Key) (v : Value) : Prop :=
  (∀ child, value_has v (ISymbol child) →
     value_has (graph_get g k) (ISymbol child))
  ∧ (v = VTrue → uses_always g k)
  ∧ (∀ s, value_has v (IString s) → uses_export g k s).

(** A value as [expand] stores it: a stored set is not empty, has no
    member twice and holds strings only. *)
Definition normal_value (v : Value) : Prop :=
  match v with
  | VSet items =>
      items ≠ [] ∧ NoDup items ∧ ∀ i, i ∈ items → is_string i = true
  | VUndefined | VTrue => True
  end.

(** The invariant of the flattening for a property [P] of the values it
    stores: a key that left the working set is still being expanded or
    holds a value with [P]. *)
Definition resolved_with (P : Value → Prop) (pending : list Key)
    (st : FlattenState) : Prop :=
  ∀ k, k ∉ unexpanded st →
    k ∈ pending ∨ P (graph_get (innerGraph st) k).

(** The working set holds keys of the graph only. *)
Definition unexpanded_are_keys (st : FlattenState) : Prop :=
  ∀ k, k ∈ unexpanded st → k ∈ JsMap.keys (innerGraph st).

(** ** Further notions: shapes of initializers *)

(** The expressions built from identifiers, literals and conditionals
    only. *)
Inductive pure_shape : Expression → Prop :=
  | pure_identifier range id : pure_shape (Identifier range id)
  | pure_literal range : pure_shape (Literal range)
  | pure_conditional range test consequent alternate :
      pure_shape test → pure_shape consequent → pure_shape alternate →
      pure_shape (ConditionalExpression range test consequent alternate).

(** ** Further notions: the parser state *)

(** The dependencies the plugin added to the module are those of the
    pending set, and each of them is a key of the graph. *)
Definition dependencies_tracked (st : ParserState) : Prop :=
  (∀ dep, dep ∈ module_dependencies st
          ↔ dep ∈ harmonyAllExportDependentDependencies st)
  ∧ ∀ dep, dep ∈ harmonyAllExportDependentDependencies st →
      ∃ g, harmonyInnerGraph st = Some g ∧ KDependency dep ∈ JsMap.keys g.

(** A hook call that leaves the dependencies alone and keeps the keys
    of the graph. *)
Definition same_dependencies (st st' : ParserState) : Prop :=
  module_dependencies st' = module_dependencies st
  ∧ harmonyAllExportDependentDependencies st'
    = harmonyAllExportDependentDependencies st
  ∧ ∀ g, harmonyInnerGraph st = Some g →
      ∃ g', harmonyInnerGraph st' = Some g'
            ∧ ∀ k, k ∈ JsMap.keys g → k ∈ JsMap.keys g'.

(** ** Further samples *)

Module MoreSamples.

(** [const t = c ? 1 : x;]. *)
Definition conditional : VariableDeclarator :=
  {| decl_id := IdentifierPattern (6, 7)%Z "t";
     decl_init :=
       Some (ConditionalExpression (10, 19)%Z
               (Identifier (10, 11)%Z "c") (Literal (14, 15)%Z)
               (Identifier (18, 19)%Z "x"));
     decl_loc := ((1, 6), (1, 19)) |}.

(** The parser inside an arrow function. *)
Definition in_arrow : ParserState := set_topLevelScope ScopeArrow module_start.

(** The graph [cyclic] flattened in the order of its keys. *)
Definition cyclic_flat : InnerGraph :=
  [ (KSymbol Samples.a, VSet [IString "x"]);
    (KSymbol Samples.b, VSet [IString "x"]);
    (KSymbol Samples.c, VSet [IString "x"]) ].

Definition after_finish : ParserState :=
  match finish Samples.before_finish with
  | Some (_, st) => st
  | None => Samples.before_finish
  end.

End MoreSamples.

(** * Properties *)

(** ** Facts about the containers *)

Section JsSetFacts.
Context {A : Type} `{EqDecision A}.
Implicit Types (x y : A) (s l : list A).
Import JsSet.

Lemma jsset_has_true x s : has x s = true ↔ x ∈ s.
Proof. unfold has. apply bool_decide_eq_true. Qed.

Lemma jsset_has_false x s : has x s = false ↔ x ∉ s.
Proof. unfold has. apply bool_decide_eq_false. Qed.

Lemma jsset_elem_of_add x y s : y ∈ add x s ↔ y = x ∨ y ∈ s.
Proof.
  unfold add. destruct (has x s) eqn:E.
  - apply jsset_has_true in E. split; [auto | intros [-> | ?]; auto].
  - rewrite elem_of_app, list_elem_of_singleton. tauto.
Qed.

Lemma jsset_elem_of_delete x y s : y ∈ delete x s ↔ y ≠ x ∧ y ∈ s.
Proof. unfold delete. by rewrite list_elem_of_filter. Qed.

Lemma jsset_length_delete_lt x s : x ∈ s → length (delete x s) < length s.
Proof.
  intros Hx. unfold delete.
  apply (length_filter_lt (λ y, y ≠ x) s x); [done | by intros ?].
Qed.

Lemma jsset_elem_of_of_list_aux l s x :
  x ∈ foldl (λ s x, add x s) s l ↔ x ∈ s ∨ x ∈ l.
Proof.
  revert s. induction l as [|a l IH]; intros s; simpl.
  - rewrite elem_of_nil. tauto.
  - rewrite IH, jsset_elem_of_add, elem_of_cons. tauto.
Qed.

Lemma jsset_elem_of_of_list l x : x ∈ of_list l ↔ x ∈ l.
Proof.
  unfold of_list. rewrite jsset_elem_of_of_list_aux, elem_of_nil. tauto.
Qed.
End JsSetFacts.

Section JsMapFacts.
Context {K V : Type} `{EqDecision K}.
Implicit Types (k : K) (v : V) (m : list (K * V)).
Import JsMap.

Lemma jsmap_get_set_eq k v m : get k (set k v m) = Some v.
Proof.
  induction m as [|[k' v'] m IH]; simpl.
  - by rewrite decide_True.
  - destruct (decide (k' = k)) as [->|Hne]; simpl.
    + by rewrite decide_True.
    + by rewrite decide_False.
Qed.

Lemma jsmap_get_set_ne k k' v m : k ≠ k' → get k' (set k v m) = get k' m.
Proof.
  intros Hne. induction m as [|[k0 v0] m IH]; simpl.
  - by rewrite decide_False.
  - destruct (decide (k0 = k)) as [->|Hk0]; simpl.
    + by rewrite !decide_False.
    + destruct (decide (k0 = k')); auto.
Qed.

Lemma jsmap_set_id k v m : get k m = Some v → set k v m = m.
Proof.
  induction m as [|[k0 v0] m IH]; simpl; [done|].
  destruct (decide (k0 = k)) as [->|Hk0]; [by intros [= ->]|].
  intros Hg. by rewrite IH.
Qed.

Lemma jsmap_get_None k m : get k m = None ↔ k ∉ keys m.
Proof.
  unfold keys. induction m as [|[k0 v0] m IH]; simpl.
  - split; [intros _; apply not_elem_of_nil | done].
  - rewrite not_elem_of_cons. destruct (decide (k0 = k)) as [->|Hk0].
    + split; [done | intros [? _]; done].
    + rewrite IH. split; [intros ?; split; auto | intros [_ ?]; done].
Qed.

End JsMapFacts.

(** ** Flattening: termination *)

Lemma unexpanded_set_value key v st :
  unexpanded (set_value key v st) = unexpanded st.
Proof. done. Qed.

Lemma unexpanded_store_newSet key newSet st :
  unexpanded (store_newSet key newSet st) = unexpanded st.
Proof. by destruct newSet. Qed.

(** The loop over the items returns when every recursive call does, and
    the working set does not grow. *)
Lemma expand_items_total rec n key items newSet st :
  (∀ k s, length (unexpanded s) ≤ n →
     ∃ s', rec k s = Some s' ∧ length (unexpanded s') ≤ length (unexpanded s)) →
  length (unexpanded st) ≤ n →
  ∃ st', expand_items rec key items newSet st = Some st'
         ∧ length (unexpanded st') ≤ length (unexpanded st).
Proof.
  intros Hrec. revert newSet st.
  induction items as [|[s|item] items IH]; intros newSet st Hlen; simpl.
  - eexists; split; [done|]. by rewrite unexpanded_store_newSet.
  - by apply IH.
  - destruct (Hrec (KSymbol item) st Hlen) as (s1 & -> & Hs1).
    destruct (graph_get (innerGraph s1) (KSymbol item)) as [| |itemValue].
    + destruct (IH newSet s1) as (s2 & -> & Hs2); [lia|].
      eexists; split; [done | lia].
    + eexists; split; [done|]. by rewrite unexpanded_set_value.
    + destruct (IH (add_strings itemValue newSet) s1) as (s2 & -> & Hs2); [lia|].
      eexists; split; [done | lia].
Qed.

(** [expand] returns as soon as the bound exceeds the size of the
    working set: a key leaves the set before its children are expanded,
    so every nested call works on a smaller set. *)
Lemma expand_total fuel key st :
  length (unexpanded st) < fuel →
  ∃ st', expand fuel key st = Some st'
         ∧ length (unexpanded st') ≤ length (unexpanded st).
Proof.
  revert key st. induction fuel as [|fuel IH]; intros key st Hlen; [lia|].
  simpl. destruct (JsSet.has key (unexpanded st)) eqn:Hhas; simpl.
  2: { eexists; split; [done | lia]. }
  apply jsset_has_true in Hhas.
  pose proof (jsset_length_delete_lt key (unexpanded st) Hhas) as Hdel.
  destruct (graph_get (innerGraph st) key) as [| |value].
  - eexists; split; [done|]. simpl. lia.
  - eexists; split; [done|]. simpl. lia.
  - set (st1 := {| innerGraph := innerGraph st;
                   unexpanded := JsSet.delete key (unexpanded st) |}).
    destruct (expand_items_total (expand fuel) (fuel - 1) key value [] st1)
      as (s' & Hs' & Hle).
    + intros k s Hs. apply IH. lia.
    + simpl. lia.
    + eexists; split; [exact Hs'|]. simpl in Hle. lia.
Qed.

Lemma expand_all_total fuel order st :
  length (unexpanded st) < fuel →
  ∃ st', expand_all fuel order st = Some st'.
Proof.
  revert st. induction order as [|k order IH]; intros st Hlen; simpl.
  - by eexists.
  - destruct (expand_total fuel k st Hlen) as (s1 & -> & Hs1).
    apply IH. lia.
Qed.

Lemma flatten_in_order_total order g :
  ∃ g', flatten_in_order order g = Some g'.
Proof.
  unfold flatten_in_order.
  edestruct (expand_all_total (S (length (JsSet.of_list (JsMap.keys g)))) order)
    as (st' & Hst'); [|rewrite Hst'; by eexists].
  simpl. lia.
Qed.

(** ** Flattening: what [expand] leaves alone *)

Lemma graph_get_set_eq key v g : graph_get (JsMap.set key v g) key = v.
Proof. unfold graph_get. by rewrite jsmap_get_set_eq. Qed.

Lemma graph_get_set_ne key k v g :
  key ≠ k → graph_get (JsMap.set key v g) k = graph_get g k.
Proof. intros Hne. unfold graph_get. by rewrite jsmap_get_set_ne. Qed.

Lemma graph_get_set key k v g :
  graph_get (JsMap.set key v g) k
  = if decide (key = k) then v else graph_get g k.
Proof.
  destruct (decide (key = k)) as [->|Hne];
    [apply graph_get_set_eq | by apply graph_get_set_ne].
Qed.

Lemma graph_get_store_newSet_ne key k newSet st :
  key ≠ k →
  graph_get (innerGraph (store_newSet key newSet st)) k
  = graph_get (innerGraph st) k.
Proof. intros Hne. destruct newSet; simpl; by apply graph_get_set_ne. Qed.

Lemma frame_refl st : frame st st.
Proof. by split. Qed.

Lemma frame_trans st1 st2 st3 : frame st1 st2 → frame st2 st3 → frame st1 st3.
Proof.
  intros [U1 R1 T1] [U2 R2 T2]. split.
  - auto.
  - intros k Hk. rewrite R2; [by apply R1 | intros ?; apply Hk; auto].
  - auto.
Qed.

Lemma expand_items_frame rec key items newSet st st' :
  (∀ k s s', rec k s = Some s' → frame s s') →
  expand_items rec key items newSet st = Some st' →
  frame_but key st st'.
Proof.
  intros Hrec. revert newSet st.
  induction items as [|[s|item] items IH]; intros newSet st; simpl.
  - intros [= <-]. unfold frame_but. rewrite unexpanded_store_newSet.
    split_and!; [done|..].
    + intros k Hk _. by apply graph_get_store_newSet_ne.
    + intros k Hk Ht. by rewrite graph_get_store_newSet_ne.
  - apply IH.
  - destruct (rec (KSymbol item) st) as [s1|] eqn:Hs1; [|done].
    apply Hrec in Hs1 as [U1 R1 T1].
    assert (∀ s2, frame_but key s1 s2 → frame_but key st s2) as Hcomp.
    { intros s2 (U2 & R2 & T2). split_and!.
      - auto.
      - intros k Hk Hu. rewrite R2; [by apply R1 | done | intros ?; apply Hu; auto].
      - auto. }
    destruct (graph_get (innerGraph s1) (KSymbol item)) as [| |itemValue].
    + intros H. apply Hcomp. by apply IH in H.
    + intros [= <-]. apply Hcomp. unfold frame_but. split_and!; [done|..].
      * intros k Hk _. simpl. by apply graph_get_set_ne.
      * intros k Hk Ht. simpl. by rewrite graph_get_set_ne.
    + intros H. apply Hcomp. by apply IH in H.
Qed.

Lemma expand_frame fuel key st st' :
  expand fuel key st = Some st' →
  frame st st' ∧ key ∉ unexpanded st'.
Proof.
  revert key st st'. induction fuel as [|fuel IH]; intros key st st'; [done|].
  simpl. destruct (JsSet.has key (unexpanded st)) eqn:Hhas; simpl.
  2: { intros [= <-]. apply jsset_has_false in Hhas. split; [apply frame_refl | done]. }
  apply jsset_has_true in Hhas.
  set (st1 := {| innerGraph := innerGraph st;
                 unexpanded := JsSet.delete key (unexpanded st) |}).
  assert (frame st st1) as Hst1.
  { split; simpl; [|done..]. intros k Hk. by apply jsset_elem_of_delete in Hk as [_ ?]. }
  assert (key ∉ unexpanded st1) as Hkey.
  { simpl. rewrite jsset_elem_of_delete. by intros [? _]. }
  destruct (graph_get (innerGraph st) key) as [| |value] eqn:Hv.
  - intros [= <-]. done.
  - intros [= <-]. done.
  - intros H. apply expand_items_frame in H as (U & R & T).
    2: { intros k s s' Hs. by apply IH in Hs as [? _]. }
    split; [|intros ?; apply Hkey; auto].
    split.
    + intros k Hk. apply U in Hk. by apply jsset_elem_of_delete in Hk as [_ ?].
    + intros k Hk. apply R; [by intros -> | simpl; rewrite jsset_elem_of_delete; tauto].
    + intros k Hk. apply T; [|done]. intros ->. congruence.
Qed.

Lemma expand_all_frame fuel order st st' :
  expand_all fuel order st = Some st' →
  frame st st' ∧ ∀ k, k ∈ order → k ∉ unexpanded st'.
Proof.
  revert st. induction order as [|key order IH]; intros st; simpl.
  - intros [= <-]. split; [apply frame_refl | by intros k ?%elem_of_nil].
  - destruct (expand fuel key st) as [s1|] eqn:Hs1; [|done].
    apply expand_frame in Hs1 as [F1 Hkey]. intros [F2 Hall]%IH.
    split; [by eapply frame_trans|].
    intros k [->|Hk]%elem_of_cons; [|by apply Hall].
    intros Hin. apply Hkey. by apply F2.
Qed.

(** ** Flattening: no internal edge is left *)

Lemma add_strings_leaf itemValue newSet :
  (∀ i, i ∈ newSet → is_string i = true) →
  ∀ i, i ∈ add_strings itemValue newSet → is_string i = true.
Proof.
  unfold add_strings. revert newSet.
  induction itemValue as [|a itemValue IH]; intros newSet Hnew; simpl; [done|].
  apply IH. destruct (is_string a) eqn:Ha; [|done].
  intros i [->|Hi]%jsset_elem_of_add; auto.
Qed.

Lemma resolved_leaf_write key v pending st :
  resolved_leaf (key :: pending) st → leaf_only v →
  resolved_leaf pending (set_value key v st).
Proof.
  intros Hres Hv k Hk. simpl. rewrite graph_get_set.
  destruct (decide (key = k)) as [->|Hne]; [by right|].
  destruct (Hres k Hk) as [[->|Hp]%elem_of_cons|Hl]; [done|by left|by right].
Qed.

Lemma expand_items_leaf rec key items newSet st st' pending :
  (∀ k s s' p, resolved_leaf p s → rec k s = Some s' → resolved_leaf p s') →
  resolved_leaf (key :: pending) st →
  (∀ i, i ∈ newSet → is_string i = true) →
  expand_items rec key items newSet st = Some st' →
  resolved_leaf pending st'.
Proof.
  intros Hrec. revert newSet st.
  induction items as [|[s|item] items IH]; intros newSet st Hres Hnew; simpl.
  - intros [= <-]. destruct newSet.
    + by apply resolved_leaf_write.
    + by apply resolved_leaf_write.
  - apply IH; [done|]. intros i [->|Hi]%jsset_elem_of_add; auto.
  - destruct (rec (KSymbol item) st) as [s1|] eqn:Hs1; [|done].
    apply (Hrec _ _ _ _ Hres) in Hs1.
    destruct (graph_get (innerGraph s1) (KSymbol item)) as [| |itemValue].
    + by apply IH.
    + intros [= <-]. by apply resolved_leaf_write.
    + apply IH; [done|]. by apply add_strings_leaf.
Qed.

Lemma expand_leaf fuel key st st' pending :
  resolved_leaf pending st →
  expand fuel key st = Some st' →
  resolved_leaf pending st'.
Proof.
  revert key st st' pending.
  induction fuel as [|fuel IH]; intros key st st' pending Hres; [done|].
  simpl. destruct (JsSet.has key (unexpanded st)) eqn:Hhas; simpl.
  2: { by intros [= <-]. }
  set (st1 := {| innerGraph := innerGraph st;
                 unexpanded := JsSet.delete key (unexpanded st) |}).
  assert (resolved_leaf (key :: pending) st1) as Hst1.
  { intros k Hk. simpl in Hk. rewrite jsset_elem_of_delete in Hk.
    destruct (decide (k = key)) as [->|Hne]; [left; apply elem_of_cons; auto|].
    destruct (Hres k) as [?|?]; [tauto | left; apply elem_of_cons; auto | by right]. }
  destruct (graph_get (innerGraph st) key) as [| |value] eqn:Hv.
  - intros [= <-] k Hk.
    destruct (Hst1 k Hk) as [[->|?]%elem_of_cons|?]; auto.
    right. simpl. by rewrite Hv.
  - intros [= <-] k Hk.
    destruct (Hst1 k Hk) as [[->|?]%elem_of_cons|?]; auto.
    right. simpl. by rewrite Hv.
  - apply expand_items_leaf; [|done|by intros i ?%elem_of_nil].
    intros k s s' p Hs. by apply IH.
Qed.

Lemma expand_all_leaf fuel order st st' :
  resolved_leaf [] st →
  expand_all fuel order st = Some st' →
  resolved_leaf [] st'.
Proof.
  revert st. induction order as [|key order IH]; intros st Hres; simpl.
  - by intros [= <-].
  - destruct (expand fuel key st) as [s1|] eqn:Hs1; [|done].
    apply IH. by eapply expand_leaf.
Qed.

Lemma graph_get_not_key g k : k ∉ JsMap.keys g → graph_get g k = VUndefined.
Proof. intros Hk. unfold graph_get. by apply jsmap_get_None in Hk as ->. Qed.

(** Once every key of the graph has been expanded, every value is free
    of internal edges. *)
Lemma flatten_in_order_leaf order g g' :
  (∀ k, k ∈ JsMap.keys g → k ∈ order) →
  flatten_in_order order g = Some g' →
  ∀ k, leaf_only (graph_get g' k).
Proof.
  unfold flatten_in_order. intros Hall Hrun k.
  destruct (expand_all _ order _) as [st'|] eqn:Hst'; [|done].
  injection Hrun as <-.
  pose proof (expand_all_frame _ _ _ _ Hst') as [[U _ _] Hdone].
  apply expand_all_leaf in Hst' as Hres.
  - destruct (Hres k) as [?%elem_of_nil|?]; [|done..].
    intros Hk. apply (Hdone k); [|done].
    apply Hall. apply U in Hk. simpl in Hk.
    by rewrite jsset_elem_of_of_list in Hk.
  - intros k' Hk'. right. simpl in *.
    rewrite graph_get_not_key; [done|]. by rewrite jsset_elem_of_of_list in Hk'.
Qed.

Lemma flatten_result_leaf g :
  ∃ g', flatten g = Some g' ∧ ∀ k, leaf_only (graph_get g' k).
Proof.
  destruct (flatten_in_order_total (JsSet.of_list (JsMap.keys g)) g) as [g' Hg'].
  exists g'. split; [done|].
  eapply flatten_in_order_leaf; [|exact Hg'].
  intros k Hk. by apply jsset_elem_of_of_list.
Qed.

(** C6: after flattening, every node's value is unset, always-used, or a
    set of strings only; no value holds an edge to a TopLevelSymbol. *)
Theorem flatten_leaf_only (g : InnerGraph) :
  ∃ g', flatten g = Some g' ∧ ∀ k, leaf_only (graph_get g' k).
Proof. apply flatten_result_leaf. Qed.

(** C3: flattening terminates on every graph, cycles included: the
    bound on the depth of [expand], one more than the size of the
    working set, is never hit, whatever the order of the keys. *)
Theorem flatten_terminates (g : InnerGraph) :
  (∃ g', flatten g = Some g')
  ∧ ∀ order, ∃ g', flatten_in_order order g = Some g'.
Proof.
  split; [apply flatten_in_order_total|]. intros order.
  apply flatten_in_order_total.
Qed.

(** ** Flattening: the bound on the depth is immaterial *)

Lemma expand_items_rec_mono rec1 rec2 key items newSet st st' :
  (∀ k s s', rec1 k s = Some s' → rec2 k s = Some s') →
  expand_items rec1 key items newSet st = Some st' →
  expand_items rec2 key items newSet st = Some st'.
Proof.
  intros Hrec. revert newSet st.
  induction items as [|[s|item] items IH]; intros newSet st; simpl; [done|auto|].
  destruct (rec1 (KSymbol item) st) as [s1|] eqn:Hs1; [|done].
  rewrite (Hrec _ _ _ Hs1).
  destruct (graph_get (innerGraph s1) (KSymbol item)); auto.
Qed.

(** A result reached within some bound is reached within any larger
    one. *)
Lemma expand_fuel_mono fuel fuel' key st st' :
  fuel ≤ fuel' →
  expand fuel key st = Some st' → expand fuel' key st = Some st'.
Proof.
  revert fuel' key st st'.
  induction fuel as [|fuel IH]; intros fuel' key st st' Hle; [done|].
  destruct fuel' as [|fuel']; [lia|]. simpl.
  destruct (JsSet.has key (unexpanded st)); simpl; [|done].
  destruct (graph_get (innerGraph st) key); [done..|].
  apply expand_items_rec_mono. intros k s s'. apply IH. lia.
Qed.

(** ** [addDependency] *)

Lemma graph_get_true_get g k :
  graph_get g k = VTrue → JsMap.get k g = Some VTrue.
Proof. unfold graph_get. destruct (JsMap.get k g); simpl; congruence. Qed.

Lemma of_list_singleton (d : Item) : JsSet.of_list [d] = [d].
Proof.
  unfold JsSet.of_list. simpl. unfold JsSet.add.
  by rewrite (proj2 (jsset_has_false d [])) by apply not_elem_of_nil.
Qed.

(** C4: [addDependency] does what its description says: no change for a
    symbol that is always used, always-used for the sentinel, and
    otherwise the target joins the set, created when the value was
    unset. *)
Theorem addDependency_refines_spec
    (this : TopLevelSymbol) (target : DepArg) (g : InnerGraph) :
  addDependency this target g = addDependency_spec this target g.
Proof.
  unfold addDependency, addDependency_spec.
  destruct (graph_get g (KSymbol this)) as [| |items] eqn:Hinfo;
    destruct target as [|t]; try reflexivity.
  apply jsmap_set_id. by apply graph_get_true_get.
Qed.

Lemma addDependency_other this dep g k :
  k ≠ KSymbol this → graph_get (addDependency this dep g) k = graph_get g k.
Proof.
  intros Hne. unfold addDependency.
  destruct dep as [|d]; [by apply graph_get_set_ne|].
  destruct (graph_get g (KSymbol this)); [|done|]; by apply graph_get_set_ne.
Qed.

Lemma addDependency_true_stays this dep g k :
  graph_get g k = VTrue → graph_get (addDependency this dep g) k = VTrue.
Proof.
  intros Hk. destruct (decide (k = KSymbol this)) as [->|Hne].
  - unfold addDependency. rewrite Hk.
    destruct dep; [apply graph_get_set_eq | done].
  - by rewrite addDependency_other.
Qed.

Lemma flatten_in_order_true_stays order g g' k :
  flatten_in_order order g = Some g' →
  graph_get g k = VTrue → graph_get g' k = VTrue.
Proof.
  unfold flatten_in_order. intros Hrun Hk.
  destruct (expand_all _ order _) as [st'|] eqn:Hst'; [|done].
  injection Hrun as <-.
  apply expand_all_frame in Hst' as [[_ _ T] _]. by apply T.
Qed.

Lemma run_ops_true_stays ops g k :
  graph_get g k = VTrue →
  ∃ g', run_ops ops g = Some g' ∧ graph_get g' k = VTrue.
Proof.
  revert g. induction ops as [|[s dep|] ops IH]; intros g Hk; simpl.
  - by exists g.
  - apply IH. by apply addDependency_true_stays.
  - destruct (flatten_in_order_total (JsSet.of_list (JsMap.keys g)) g)
      as [g1 Hg1].
    unfold flatten. rewrite Hg1. apply IH.
    by eapply flatten_in_order_true_stays.
Qed.

(** C5: once the value of a node is the always-used sentinel, no later
    [addDependency] call and no later run of the flattening, in any
    number and order, changes it: the value is still the sentinel, and
    so neither a bounded set nor unset. *)
Theorem always_used_absorbing (g : InnerGraph) (k : Key) (ops : list GraphOp) :
  graph_get g k = VTrue →
  ∃ g', run_ops ops g = Some g' ∧ graph_get g' k = VTrue.
Proof. apply run_ops_true_stays. Qed.

(** ** Flattening of an acyclic graph: the order does not matter *)

Section acyclic.

Variable g : InnerGraph.
Variable rank : Key → nat.
Hypothesis rank_decreases :
  ∀ key items child,
    graph_get g key = VSet items → ISymbol child ∈ items →
    rank (KSymbol child) < rank key.

(** The flattened value is unique. *)
Lemma Merge_functional items :
  (∀ child v1 v2, ISymbol child ∈ items →
     Flat g (KSymbol child) v1 → Flat g (KSymbol child) v2 → v1 = v2) →
  ∀ newSet v1 v2,
    Merge g items newSet v1 → Merge g items newSet v2 → v1 = v2.
Proof.
  induction items as [|[s|child] items IH]; intros Hchild newSet v1 v2 H1 H2.
  - inversion H1; inversion H2; by subst.
  - inversion H1; inversion H2; subst.
    eapply IH; [|done..]. intros c w1 w2 Hc. apply Hchild. by right.
  - assert (∀ w1 w2, Flat g (KSymbol child) w1 → Flat g (KSymbol child) w2 →
              w1 = w2) as Hdet by (intros w1 w2; apply Hchild; left).
    assert (∀ c w1 w2, ISymbol c ∈ items →
              Flat g (KSymbol c) w1 → Flat g (KSymbol c) w2 → w1 = w2) as Hrest
      by (intros c w1 w2 Hc; apply Hchild; by right).
    inversion H1 as [| |? ? ? F1|? ? ? ? F1 M1|? ? ? ? ? F1 M1];
      inversion H2 as [| |? ? ? F2|? ? ? ? F2 M2|? ? ? ? ? F2 M2]; subst;
      pose proof (Hdet _ _ F1 F2) as Heq; try discriminate; try done.
    + by eapply IH.
    + injection Heq as ->. by eapply IH.
Qed.

Lemma Flat_functional_below n :
  ∀ key v1 v2, rank key < n → Flat g key v1 → Flat g key v2 → v1 = v2.
Proof.
  induction n as [|n IH]; intros key v1 v2 Hn H1 H2; [lia|].
  inversion H1 as [? E1|? E1|? items1 ? E1 M1];
    inversion H2 as [? E2|? E2|? items2 ? E2 M2]; subst; try congruence.
  assert (items2 = items1) as -> by congruence.
  eapply Merge_functional; [|done..].
  intros child w1 w2 Hc. apply IH.
  pose proof (rank_decreases _ _ _ E1 Hc). lia.
Qed.

Lemma Flat_functional key v1 v2 :
  Flat g key v1 → Flat g key v2 → v1 = v2.
Proof. apply (Flat_functional_below (S (rank key))). lia. Qed.

(** Storing the flattened value of [key] ends its expansion. *)
Lemma in_sync_write key v pending st :
  in_sync g (key :: pending) st → key ∉ unexpanded st → Flat g key v →
  in_sync g pending (set_value key v st).
Proof.
  intros Hsync Hkey Hv k. simpl. rewrite graph_get_set.
  destruct (Hsync k) as [Hin Hout].
  destruct (decide (key = k)) as [->|Hne]; split; try done.
  - by right.
  - intros Hk. destruct (Hout Hk) as [[[->|Hp]%elem_of_cons E]|F];
      [done | by left | by right].
Qed.

Lemma expand_items_in_sync rec key items newSet st st' pending :
  (∀ k s s' p, in_sync g p s → (∀ q, q ∈ p → rank k < rank q) →
     rec k s = Some s' → in_sync g p s') →
  (∀ k s s', rec k s = Some s' → frame s s' ∧ k ∉ unexpanded s') →
  in_sync g (key :: pending) st →
  key ∉ unexpanded st →
  (∀ p, p ∈ pending → rank key < rank p) →
  (∀ child, ISymbol child ∈ items → rank (KSymbol child) < rank key) →
  (∀ v, Merge g items newSet v → Flat g key v) →
  expand_items rec key items newSet st = Some st' →
  in_sync g pending st'.
Proof.
  intros Hrec Hframe. revert newSet st.
  induction items as [|[s|child] items IH];
    intros newSet st Hsync Hkey Hpend Hitems Hcont; simpl.
  - intros [= <-]. specialize (Hcont _ (Merge_nil g newSet)).
    destruct newSet; by apply in_sync_write.
  - apply IH; try done.
    + intros c Hc. apply Hitems. by right.
    + intros v Hv. apply Hcont. by constructor.
  - destruct (rec (KSymbol child) st) as [s1|] eqn:Hs1; [|done].
    assert (rank (KSymbol child) < rank key) as Hlt by (apply Hitems; left).
    assert (∀ q, q ∈ key :: pending → rank (KSymbol child) < rank q) as Hbelow.
    { intros q [->|Hq]%elem_of_cons; [done|]. specialize (Hpend q Hq). lia. }
    pose proof (Hrec _ _ _ _ Hsync Hbelow Hs1) as Hsync1.
    apply Hframe in Hs1 as [[U1 _ _] Hchild].
    assert (key ∉ unexpanded s1) as Hkey1 by (intros ?; apply Hkey; auto).
    assert (Flat g (KSymbol child) (graph_get (innerGraph s1) (KSymbol child)))
      as Hflat.
    { destruct (Hsync1 (KSymbol child)) as [_ Hout].
      destruct (Hout Hchild) as [[Hq _]|F]; [|done].
      apply Hbelow in Hq. lia. }
    assert (∀ c, ISymbol c ∈ items → rank (KSymbol c) < rank key) as Hitems'
      by (intros c Hc; apply Hitems; by right).
    destruct (graph_get (innerGraph s1) (KSymbol child)) as [| |itemValue].
    + apply IH; try done. intros v Hv. apply Hcont. by apply Merge_undefined.
    + intros [= <-]. apply in_sync_write; try done.
      apply Hcont. by apply Merge_true.
    + apply IH; try done. intros v Hv. apply Hcont. by eapply Merge_set.
Qed.

Lemma expand_in_sync fuel key st st' pending :
  in_sync g pending st →
  (∀ p, p ∈ pending → rank key < rank p) →
  expand fuel key st = Some st' →
  in_sync g pending st'.
Proof.
  revert key st st' pending.
  induction fuel as [|fuel IH]; intros key st st' pending Hsync Hpend; [done|].
  simpl. destruct (JsSet.has key (unexpanded st)) eqn:Hhas; simpl.
  2: { by intros [= <-]. }
  apply jsset_has_true in Hhas.
  set (st1 := {| innerGraph := innerGraph st;
                 unexpanded := JsSet.delete key (unexpanded st) |}).
  destruct (Hsync key) as [Hvalue _]. specialize (Hvalue Hhas).
  assert (key ∉ unexpanded st1) as Hkey.
  { simpl. rewrite jsset_elem_of_delete. by intros [? _]. }
  assert (in_sync g (key :: pending) st1) as Hsync1.
  { intros k. destruct (Hsync k) as [Hin Hout]. simpl.
    rewrite jsset_elem_of_delete. split; [intros [_ ?]; auto|].
    intros Hk. destruct (decide (k = key)) as [->|Hne].
    - left. split; [by left | done].
    - destruct Hout as [[Hp E]|F]; [tauto | left; split; [by right | done] | by right]. }
  destruct (graph_get (innerGraph st) key) as [| |value] eqn:Hv.
  - intros [= <-] k. destruct (Hsync1 k) as [Hin Hout]. split; [done|].
    intros Hk. destruct (Hout Hk) as [[[->|Hp]%elem_of_cons E]|F]; auto.
    right. simpl. rewrite Hv. apply Flat_undefined. congruence.
  - intros [= <-] k. destruct (Hsync1 k) as [Hin Hout]. split; [done|].
    intros Hk. destruct (Hout Hk) as [[[->|Hp]%elem_of_cons E]|F]; auto.
    right. simpl. rewrite Hv. apply Flat_true. congruence.
  - apply expand_items_in_sync.
    + intros k s s' p Hs Hp. by apply IH.
    + intros k s s'. apply expand_frame.
    + done.
    + done.
    + done.
    + intros child Hc. by eapply rank_decreases.
    + intros v Hm. by eapply Flat_set.
Qed.

Lemma expand_all_in_sync fuel order st st' :
  in_sync g [] st →
  expand_all fuel order st = Some st' →
  in_sync g [] st'.
Proof.
  revert st. induction order as [|key order IH]; intros st Hsync; simpl.
  - by intros [= <-].
  - destruct (expand fuel key st) as [s1|] eqn:Hs1; [|done].
    apply IH. eapply expand_in_sync; [done| |done]. by intros p ?%elem_of_nil.
Qed.

(** Whatever the order, the run stores the flattened value at every
    key. *)
Lemma flatten_in_order_Flat order g' :
  (∀ k, k ∈ JsMap.keys g → k ∈ order) →
  flatten_in_order order g = Some g' →
  ∀ k, Flat g k (graph_get g' k).
Proof.
  unfold flatten_in_order. intros Hall Hrun k.
  destruct (expand_all _ order _) as [st'|] eqn:Hst'; [|done].
  injection Hrun as <-.
  pose proof (expand_all_frame _ _ _ _ Hst') as [[U _ _] Hdone].
  apply expand_all_in_sync in Hst' as Hsync.
  - destruct (Hsync k) as [_ Hout].
    destruct Hout as [[?%elem_of_nil _]|?]; [|done..].
    intros Hk. apply (Hdone k); [|done].
    apply Hall. apply U in Hk. simpl in Hk.
    by rewrite jsset_elem_of_of_list in Hk.
  - intros k'. simpl. split; [done|]. intros Hk'. right.
    rewrite jsset_elem_of_of_list in Hk'.
    rewrite (graph_get_not_key _ _ Hk').
    apply Flat_undefined. by apply graph_get_not_key.
Qed.

End acyclic.


(** ** The hooks *)

(** Unfolds the monad of the hooks. *)
Ltac hook_unfold :=
  unfold mbind, Hook_bind, mret, Hook_ret, gets, modify, throw in *.

(** *** Symbol registration *)

Lemma tagVar_binds name st :
  ∃ fn st', tagVar name st = Some (fn, st')
            ∧ definitions st' !! name = Some (Some fn).
Proof.
  unfold tagVar, defineVariable, getTagData, new_TopLevelSymbol, tagVariable.
  hook_unfold.
  destruct (definitions st !! name) as [[fn|]|] eqn:Hdef; simpl.
  - rewrite Hdef. simpl. by exists fn, st.
  - rewrite Hdef. simpl. eexists _, _. split; [done|]. simpl.
    by rewrite lookup_insert_eq.
  - rewrite lookup_insert_eq. simpl. eexists _, _. split; [done|]. simpl.
    by rewrite lookup_insert_eq.
Qed.

(** [tagVar] is [tagVar_on] at the methods modelled above. *)
Lemma tagVar_is_tagVar_on name :
  tagVar name = tagVar_on defineVariable getTagData tagVariable name.
Proof. reflexivity. Qed.

(** When the parser reports no symbol for the name, [tagVar] makes a new
    one and tags the name with it. *)
Lemma tagVar_on_fresh
    (parser_defineVariable : string → Hook unit)
    (parser_getTagData : string → Hook (option TopLevelSymbol))
    (parser_tagVariable : string → TopLevelSymbol → Hook unit)
    name st st1 st2 st3 :
  parser_defineVariable name st = Some (tt, st1) →
  parser_getTagData name st1 = Some (None, st2) →
  parser_tagVariable name {| sym_id := next_id st2; name := name |}
    (set_next_id (S (next_id st2)) st2) = Some (tt, st3) →
  tagVar_on parser_defineVariable parser_getTagData parser_tagVariable name st
  = Some ({| sym_id := next_id st2; name := name |}, st3).
Proof.
  intros Hdef Hget Htag. unfold tagVar_on, new_TopLevelSymbol. hook_unfold.
  by rewrite Hdef, Hget, Htag.
Qed.


(** *** Publication *)

Lemma publish_spec g deps store dep :
  JsMap.get dep (publish g deps store)
  = if bool_decide (dep ∈ deps)
    then Some (decision (graph_get g (KDependency dep)))
    else JsMap.get dep store.
Proof.
  revert store. induction deps as [|d deps IH]; intros store; cbn [publish].
  - by rewrite bool_decide_eq_false_2 by apply not_elem_of_nil.
  - rewrite IH. destruct (bool_decide (dep ∈ deps)) eqn:Hin.
    + apply bool_decide_eq_true in Hin.
      rewrite bool_decide_eq_true_2; [done | by right].
    + apply bool_decide_eq_false in Hin.
      destruct (decide (d = dep)) as [->|Hne].
      * rewrite bool_decide_eq_true_2 by left. apply jsmap_get_set_eq.
      * rewrite bool_decide_eq_false_2.
        -- by apply jsmap_get_set_ne.
        -- intros [?|?]%elem_of_cons; congruence.
Qed.

Lemma finish_runs st g :
  harmonyInnerGraph st = Some g →
  ∃ g', flatten g = Some g'
    ∧ finish st
      = Some (undefined,
              set_usedByExports
                (publish g' (harmonyAllExportDependentDependencies st)
                   (usedByExports st))
                (set_harmonyInnerGraph (Some g') st)).
Proof.
  intros Hg. destruct (flatten_result_leaf g) as [g' [Hg' _]].
  exists g'. split; [done|].
  unfold finish. hook_unfold. rewrite Hg, Hg'. done.
Qed.

(** C9: the [finish] hook gives every dependency of the pending set the
    decision read off its flattened value: unset is not used, the
    sentinel is unconditionally used, a set is used through exactly its
    members, which are export names only; no other dependency is
    written. *)
Theorem finish_publishes_decisions (st : ParserState) (g : InnerGraph) :
  harmonyInnerGraph st = Some g →
  ∃ g' st',
    flatten g = Some g'
    ∧ finish st = Some (undefined, st')
    ∧ harmonyInnerGraph st' = Some g'
    ∧ (∀ dep, dep ∈ harmonyAllExportDependentDependencies st →
         JsMap.get dep (usedByExports st')
         = Some (match graph_get g' (KDependency dep) with
                 | VUndefined => UsedFalse
                 | VTrue => UsedTrue
                 | VSet items => UsedSet items
                 end)
         ∧ leaf_only (graph_get g' (KDependency dep)))
    ∧ (∀ dep, dep ∉ harmonyAllExportDependentDependencies st →
         JsMap.get dep (usedByExports st') = JsMap.get dep (usedByExports st)).
Proof.
  intros Hg. destruct (finish_runs st g Hg) as (g' & Hflat & Hfin).
  destruct (flatten_result_leaf g) as (g'' & Hflat' & Hleaf).
  assert (g'' = g') as -> by congruence.
  eexists g', _. split_and!; [done | exact Hfin | done | |].
  - intros dep Hdep. split; [|apply Hleaf]. simpl.
    rewrite publish_spec, bool_decide_eq_true_2 by done. done.
  - intros dep Hdep. simpl.
    by rewrite publish_spec, bool_decide_eq_false_2 by done.
Qed.

(** *** Traces of hook calls *)

Lemma Event_nested_ind (P : Event → Prop) :
  P EvFinish →
  (∀ s, P (EvPreStatement s)) →
  (∀ s, P (EvBlockPreStatement s)) →
  (∀ d, P (EvPreDeclarator d)) →
  (∀ s, P (EvStatement s)) →
  (∀ d walk, Forall P walk → P (EvDeclarator d walk)) →
  (∀ topLevelSymbol, P (EvExpression topLevelSymbol)) →
  (∀ operator, P (EvAssign operator)) →
  (∀ scope, P (EvScope scope)) →
  ∀ e, P e.
Proof.
  intros Hfin Hpre Hblock Hpred Hstmt Hdecl Hexpr Hassign Hscope.
  fix IH 1. intros [|s|s|d|s|d walk|sym|op|sc].
  - exact Hfin.
  - apply Hpre.
  - apply Hblock.
  - apply Hpred.
  - apply Hstmt.
  - apply Hdecl. induction walk as [|e walk IHwalk]; constructor.
    + apply IH.
    + exact IHwalk.
  - apply Hexpr.
  - apply Hassign.
  - apply Hscope.
Qed.

(** The walk of an [EvDeclarator] runs its events like [run_events]. *)
Lemma run_event_declarator gc d walk :
  run_event gc (EvDeclarator d walk)
  = declarator (λ _, run_events gc walk) d ≫= λ _, mret tt.
Proof. reflexivity. Qed.

Lemma step_ok_refl st : hooks_ready st → step_ok st st.
Proof. by split. Qed.

Lemma step_ok_trans st1 st2 st3 :
  step_ok st1 st2 → step_ok st2 st3 → step_ok st1 st3.
Proof. intros [R1 T1 U1] [R2 T2 U2]. split; auto. Qed.

(** A hook that leaves the graph and [declWithTopLevelSymbol] alone. *)
Lemma step_ok_same st st' :
  hooks_ready st →
  harmonyInnerGraph st' = harmonyInnerGraph st →
  declWithTopLevelSymbol st' = declWithTopLevelSymbol st →
  step_ok st st'.
Proof.
  intros [Hg Hd] Eg Ed. split.
  - split; [by rewrite Eg | by rewrite Ed].
  - intros s. unfold graph_value. by rewrite Eg.
  - intros decl _. unfold untracked. by rewrite Ed.
Qed.

Lemma register_statement_ok stmt name st :
  hooks_ready st →
  ∃ st', register_statement stmt name st = Some (tt, st') ∧ step_ok st st'.
Proof.
  intros Hready. unfold register_statement, defineVariable,
    new_TopLevelSymbol, tagVariable. hook_unfold.
  eexists. split; [done|]. apply step_ok_same; [done|..].
  - simpl. by destruct (definitions st !! name).
  - simpl. by destruct (definitions st !! name).
Qed.

Lemma preStatement_ok stmt st :
  hooks_ready st →
  ∃ r st', preStatement stmt st = Some (r, st') ∧ step_ok st st'.
Proof.
  intros Hready. unfold preStatement. hook_unfold.
  destruct (topLevelScope st), stmt;
    try (eexists _, st; split; [done | by apply step_ok_refl]).
  destruct (register_statement_ok (FunctionDeclaration range id)
              (name_or_default id) st Hready) as (st' & E & Hok).
  hook_unfold. rewrite E. by eexists _, st'.
Qed.

Lemma blockPreStatement_ok stmt st :
  hooks_ready st →
  ∃ r st', blockPreStatement stmt st = Some (r, st') ∧ step_ok st st'.
Proof.
  intros Hready. unfold blockPreStatement. hook_unfold.
  destruct (topLevelScope st), stmt as [| |range [[]| |]| | |];
    try (eexists _, st; split; [done | by apply step_ok_refl]).
  - destruct (register_statement_ok (ClassDeclaration range id)
                (name_or_default id) st Hready) as (st' & E & Hok).
    hook_unfold. rewrite E. by eexists _, st'.
  - edestruct (register_statement_ok) as (st' & E & Hok); [exact Hready|].
    hook_unfold. rewrite E. by eexists _, st'.
  - edestruct (register_statement_ok) as (st' & E & Hok); [exact Hready|].
    hook_unfold. rewrite E. by eexists _, st'.
  - edestruct (register_statement_ok) as (st' & E & Hok); [exact Hready|].
    hook_unfold. rewrite E. by eexists _, st'.
  - edestruct (register_statement_ok) as (st' & E & Hok); [exact Hready|].
    hook_unfold. rewrite E. by eexists _, st'.
Qed.

Lemma tagVar_ok name st :
  ∃ fn st', tagVar name st = Some (fn, st')
    ∧ topLevelScope st' = topLevelScope st
    ∧ harmonyInnerGraph st' = harmonyInnerGraph st
    ∧ harmonyAllExportDependentDependencies st'
      = harmonyAllExportDependentDependencies st
    ∧ declWithTopLevelSymbol st' = declWithTopLevelSymbol st
    ∧ pureDeclarators st' = pureDeclarators st.
Proof.
  unfold tagVar, defineVariable, getTagData, new_TopLevelSymbol, tagVariable.
  hook_unfold.
  destruct (definitions st !! name) as [[fn|]|] eqn:Hdef; simpl.
  - rewrite Hdef. simpl. by eexists _, _.
  - rewrite Hdef. simpl. by eexists _, _.
  - rewrite lookup_insert_eq. simpl. by eexists _, _.
Qed.

(** Storing a declarator that has an initializer and a plain
    identifier. *)
Lemma step_ok_track d fn st st' :
  hooks_ready st →
  is_Some (decl_init d) → ¬ unqualified d →
  harmonyInnerGraph st' = harmonyInnerGraph st →
  declWithTopLevelSymbol st' = JsMap.set d fn (declWithTopLevelSymbol st) →
  step_ok st st'.
Proof.
  intros [Hg Hd] Hinit Hq Eg Ed. split.
  - split; [by rewrite Eg|]. intros decl fn'. rewrite Ed.
    destruct (decide (d = decl)) as [<-|Hne]; [done|].
    rewrite jsmap_get_set_ne by done. apply Hd.
  - intros s. unfold graph_value. by rewrite Eg.
  - intros decl Hdecl. unfold untracked. rewrite Ed.
    destruct (decide (d = decl)) as [<-|Hne]; [done|].
    by rewrite jsmap_get_set_ne.
Qed.

Lemma preDeclarator_ok gc d st :
  hooks_ready st →
  ∃ r st', preDeclarator gc d st = Some (r, st') ∧ step_ok st st'.
Proof.
  intros Hready. unfold preDeclarator. hook_unfold.
  destruct (topLevelScope st);
    try (eexists _, st; split; [done | by apply step_ok_refl]).
  destruct (decl_init d) as [init|] eqn:Hinit;
    [|eexists _, st; split; [done | by apply step_ok_refl]].
  destruct (decl_id d) as [r name| |] eqn:Hid;
    try (eexists _, st; split; [done | by apply step_ok_refl]).
  assert (¬ unqualified d) as Hq.
  { intros [?|Hno]; [congruence | by eapply Hno]. }
  destruct (tagVar_ok name st) as (fn & st1 & Etag & _ & Eg & _ & Ed & _).
  assert (∀ st2, harmonyInnerGraph st2 = harmonyInnerGraph st1 →
            declWithTopLevelSymbol st2
            = JsMap.set d fn (declWithTopLevelSymbol st1) →
            step_ok st st2) as Htrack.
  { intros st2 E2 D2. eapply (step_ok_track d fn); [done|by rewrite Hinit|done|..].
    - by rewrite E2.
    - by rewrite D2, Ed. }
  destruct init; simpl;
    try (rewrite Etag; eexists _, _; split; [done | by apply Htrack]);
    (destruct (pure_condition gc _ _);
     [rewrite Etag; eexists _, _; split; [done | by apply Htrack]
     |eexists _, st; split; [done | by apply step_ok_refl]]).
Qed.

Lemma preDeclarator_unqualified gc d st :
  unqualified d → preDeclarator gc d st = Some (undefined, st).
Proof.
  intros [Hinit|Hid]; unfold preDeclarator; hook_unfold.
  - rewrite Hinit. by destruct (topLevelScope st).
  - destruct (topLevelScope st), (decl_init d), (decl_id d) as [r n| |];
      try done.
    by destruct (Hid r n).
Qed.

Lemma declarator_untracked walk d st :
  untracked d st → declarator walk d st = Some (undefined, st).
Proof.
  unfold untracked, declarator. hook_unfold. by intros ->.
Qed.

Lemma statement_ok stmt st :
  hooks_ready st →
  ∃ r st', statement stmt st = Some (r, st') ∧ step_ok st st'.
Proof.
  intros Hready. unfold statement. hook_unfold.
  destruct (topLevelScope st);
    try (eexists _, st; split; [done | by apply step_ok_refl]).
  simpl. destruct (JsMap.get stmt (statementWithTopLevelSymbol st));
    (eexists _, _; split; [done | by apply step_ok_same]).
Qed.

Lemma assign_ok operator st :
  hooks_ready st →
  ∃ r st', assign operator st = Some (r, st') ∧ step_ok st st'.
Proof.
  intros Hready. unfold assign. hook_unfold.
  destruct (bool_decide _); (eexists _, st; split; [done | by apply step_ok_refl]).
Qed.

Lemma expression_ok topLevelSymbol st :
  hooks_ready st →
  ∃ r st', expression topLevelSymbol st = Some (r, st') ∧ step_ok st st'.
Proof.
  intros [[g Hg] Hd]. unfold expression. hook_unfold. rewrite Hg.
  eexists _, _. split; [done|]. split.
  - split; [by eexists | done].
  - intros s. unfold graph_value. rewrite Hg. simpl.
    apply addDependency_true_stays.
  - done.
Qed.

Lemma finish_ok st :
  hooks_ready st →
  ∃ r st', finish st = Some (r, st') ∧ step_ok st st'.
Proof.
  intros [[g Hg] Hd]. destruct (finish_runs st g Hg) as (g' & Hflat & ->).
  eexists _, _. split; [done|]. split.
  - split; [by eexists | done].
  - intros s. unfold graph_value. rewrite Hg. simpl.
    by eapply flatten_in_order_true_stays.
  - done.
Qed.

Lemma add_pure_dependency_ok init loc fn st :
  hooks_ready st →
  ∃ st', add_pure_dependency init loc fn st = Some (tt, st') ∧ step_ok st st'.
Proof.
  intros [[g Hg] Hd]. unfold add_pure_dependency, new_PureExpressionDependency.
  hook_unfold. rewrite Hg. simpl.
  eexists. split; [done|]. split.
  - split; [by eexists | done].
  - intros s. unfold graph_value. rewrite Hg. simpl.
    by rewrite graph_get_set_ne.
  - done.
Qed.

Lemma declarator_ok walk d st :
  (∀ init s, hooks_ready s →
     ∃ s', walk init s = Some (tt, s') ∧ step_ok s s') →
  hooks_ready st →
  ∃ r st', declarator walk d st = Some (r, st') ∧ step_ok st st'.
Proof.
  intros Hwalk Hready. unfold declarator. hook_unfold.
  destruct (JsMap.get d (declWithTopLevelSymbol st)) as [fn|] eqn:Hfn;
    [|eexists _, st; split; [done | by apply step_ok_refl]].
  destruct Hready as [Hg Hd]. destruct (Hd _ _ Hfn) as [init Hinit].
  rewrite Hinit.
  assert (∃ st1, (if JsSet.has d (pureDeclarators st)
                  then add_pure_dependency init (decl_loc d) fn
                  else λ s, Some (tt, s)) st = Some (tt, st1) ∧ step_ok st st1)
    as (st1 & E1 & Hok1).
  { destruct (JsSet.has d (pureDeclarators st)).
    - by apply add_pure_dependency_ok.
    - exists st. split; [done | by apply step_ok_refl]. }
  rewrite E1.
  set (st2 := set_currentTopLevelSymbol (Some fn) st1).
  assert (step_ok st1 st2) as Hok2
    by (apply step_ok_same; [apply Hok1 | done..]).
  destruct (Hwalk init st2) as (st3 & -> & Hok3); [apply Hok2|].
  eexists _, _. split; [done|].
  eapply step_ok_trans; [exact Hok1|]. eapply step_ok_trans; [exact Hok2|].
  eapply step_ok_trans; [exact Hok3|].
  apply step_ok_same; [apply Hok3 | done..].
Qed.

Lemma run_events_ok gc events :
  Forall (event_ok gc) events →
  ∀ st, hooks_ready st →
    ∃ st', run_events gc events st = Some (tt, st') ∧ step_ok st st'.
Proof.
  induction 1 as [|e events He _ IH]; intros st Hready; simpl.
  - exists st. split; [done | by apply step_ok_refl].
  - hook_unfold. destruct (He st Hready) as (st1 & -> & Hok1).
    destruct (IH st1) as (st2 & -> & Hok2); [apply Hok1|].
    exists st2. split; [done | by eapply step_ok_trans].
Qed.

Lemma run_event_ok gc e : event_ok gc e.
Proof.
  induction e as [|s|s|d|s|d walk IH|sym|op|sc] using Event_nested_ind;
    intros st Hready.
  - destruct (finish_ok st Hready) as (r & st' & E & Hok).
    simpl. hook_unfold. rewrite E. by exists st'.
  - destruct (preStatement_ok s st Hready) as (r & st' & E & Hok).
    simpl. hook_unfold. rewrite E. by exists st'.
  - destruct (blockPreStatement_ok s st Hready) as (r & st' & E & Hok).
    simpl. hook_unfold. rewrite E. by exists st'.
  - destruct (preDeclarator_ok gc d st Hready) as (r & st' & E & Hok).
    simpl. hook_unfold. rewrite E. by exists st'.
  - destruct (statement_ok s st Hready) as (r & st' & E & Hok).
    simpl. hook_unfold. rewrite E. by exists st'.
  - destruct (declarator_ok (λ _, run_events gc walk) d st)
      as (r & st' & E & Hok); [|done|].
    + intros _ s Hs. by apply run_events_ok.
    + rewrite run_event_declarator. hook_unfold. rewrite E. by exists st'.
  - destruct (expression_ok sym st Hready) as (r & st' & E & Hok).
    simpl. hook_unfold. rewrite E. by exists st'.
  - destruct (assign_ok op st Hready) as (r & st' & E & Hok).
    simpl. hook_unfold. rewrite E. by exists st'.
  - simpl. hook_unfold. eexists. split; [done|]. by apply step_ok_same.
Qed.

(** Every sequence of hook calls runs to its end, without a thrown
    error, and keeps [step_ok]. *)
Lemma trace_ok gc events st :
  hooks_ready st →
  ∃ st', run_events gc events st = Some (tt, st') ∧ step_ok st st'.
Proof.
  apply run_events_ok. apply Forall_forall. intros e _. apply run_event_ok.
Qed.

(** *** Declarators that are not tracked *)

(** C10: a top-level declarator whose binding is not a plain identifier,
    or that has no initializer, is never tracked: whatever hook calls
    came before, both of its hooks return [undefined] and leave the
    parser as it was, so that no symbol is registered, no dependency is
    made and the pending set is not touched. *)
Theorem unqualified_declarator_never_tracked
    (getComments : Range → list Comment) (decl : VariableDeclarator)
    (events : list Event) (st0 st : ParserState) :
  unqualified decl →
  hooks_ready st0 →
  untracked decl st0 →
  run_events getComments events st0 = Some (tt, st) →
  preDeclarator getComments decl st = Some (undefined, st)
  ∧ ∀ walkExpression, declarator walkExpression decl st = Some (undefined, st).
Proof.
  intros Hq Hready Hun Hrun.
  destruct (trace_ok getComments events st0 Hready) as (st' & E & Hok).
  assert (st' = st) as -> by congruence.
  split; [by apply preDeclarator_unqualified|].
  intros walk. apply declarator_untracked. by apply Hok.
Qed.

(** *** References *)

Lemma statement_clears_context stmt st :
  topLevelScope st = ScopeTrue →
  JsMap.get stmt (statementWithTopLevelSymbol st) = None →
  statement stmt st = Some (undefined, set_currentTopLevelSymbol None st).
Proof.
  intros Hscope Hget. unfold statement. hook_unfold.
  rewrite Hscope. simpl. by rewrite Hget.
Qed.

Lemma expression_run topLevelSymbol st g :
  harmonyInnerGraph st = Some g →
  expression topLevelSymbol st
  = Some (undefined,
          set_harmonyInnerGraph
            (Some (addDependency topLevelSymbol
                     (match currentTopLevelSymbol st with
                      | Some fn => ArgItem (ISymbol fn)
                      | None => ArgTrue
                      end) g)) st).
Proof. intros Hg. unfold expression. hook_unfold. by rewrite Hg. Qed.

(** C8: for a reference resolved to a tagged symbol, the expression hook
    calls [addDependency] on that symbol with the current top-level
    symbol when there is one and with the sentinel otherwise; the
    statement hook of a top-level statement that is no tracked
    declaration clears the current symbol; and a reference made while
    there is none leaves the symbol always-used when [finish] has run,
    whatever the hooks called in between. *)
Theorem reference_records_usage
    (getComments : Range → list Comment)
    (topLevelSymbol : TopLevelSymbol) (st : ParserState) (g : InnerGraph) :
  hooks_ready st →
  harmonyInnerGraph st = Some g →
  expression topLevelSymbol st
  = Some (undefined,
          set_harmonyInnerGraph
            (Some (addDependency topLevelSymbol
                     (match currentTopLevelSymbol st with
                      | Some fn => ArgItem (ISymbol fn)
                      | None => ArgTrue
                      end) g)) st)
  ∧ (∀ stmt,
       topLevelScope st = ScopeTrue →
       JsMap.get stmt (statementWithTopLevelSymbol st) = None →
       ∃ st1, statement stmt st = Some (undefined, st1)
              ∧ currentTopLevelSymbol st1 = None)
  ∧ (∀ later,
       currentTopLevelSymbol st = None →
       ∃ st',
         run_events getComments
           (EvExpression topLevelSymbol :: later ++ [EvFinish]) st
         = Some (tt, st')
         ∧ graph_value st' (KSymbol topLevelSymbol) = VTrue).
Proof.
  intros Hready Hg. split_and!.
  - by apply expression_run.
  - intros stmt Hscope Hget. eexists. split;
      [by apply statement_clears_context | done].
  - intros later Hnone.
    pose proof (expression_run topLevelSymbol st g Hg) as Hexpr.
    rewrite Hnone in Hexpr.
    destruct (expression_ok topLevelSymbol st Hready) as (r & st1 & E & Hok1).
    rewrite Hexpr in E. injection E as _ <-.
    destruct (trace_ok getComments (later ++ [EvFinish]) _ (step_ready _ _ Hok1))
      as (st' & Hrun & Hok).
    exists st'. split.
    + cbn [run_events run_event]. hook_unfold. rewrite Hexpr. exact Hrun.
    + apply Hok. unfold graph_value. simpl. apply graph_get_set_eq.
Qed.

(** *** The pure pragma *)

Lemma skip_whitespace_split s :
  ∃ before, s = before ++ skip_whitespace s
            ∧ forallb is_whitespace before = true.
Proof.
  induction s as [|c s (before & E & Hws)]; simpl.
  - by exists [].
  - destruct (is_whitespace c) eqn:Hc.
    + exists (c :: before). simpl. rewrite Hc, Hws. split; [by f_equal | done].
    + by exists [].
Qed.

Lemma skip_whitespace_app before rest :
  forallb is_whitespace before = true →
  skip_whitespace (before ++ rest) = skip_whitespace rest.
Proof.
  induction before as [|c before IH]; simpl; [done|].
  intros [-> H]%andb_prop. by apply IH.
Qed.

Lemma strip_prefix_Some p s tail :
  strip_prefix p s = Some tail ↔ s = p ++ tail.
Proof.
  revert s. induction p as [|a p IH]; intros [|b s]; simpl.
  - split; congruence.
  - split; congruence.
  - split; [done | discriminate].
  - destruct (N.eqb_spec a b) as [->|Hne].
    + rewrite IH. split; [by intros -> | by intros [= ->]].
    + split; [done | by intros [= ? ?]].
Qed.

Lemma pure_marker_not_whitespace c :
  is_pure_marker c = true → is_whitespace c = false.
Proof.
  unfold is_pure_marker.
  intros [->%N.eqb_eq| ->%N.eqb_eq]%orb_prop; reflexivity.
Qed.

(** The test accepts exactly the strings [\s* (#|@) __PURE__ \s*]. *)
Lemma pure_regexp_test_spec value :
  pure_regexp_test value = true
  ↔ ∃ before marker after,
      value = before ++ marker :: PURE ++ after
      ∧ forallb is_whitespace before = true
      ∧ is_pure_marker marker = true
      ∧ forallb is_whitespace after = true.
Proof.
  unfold pure_regexp_test. split.
  - destruct (skip_whitespace_split value) as (before & E & Hws).
    destruct (skip_whitespace value) as [|c rest]; [done|].
    intros [Hc Hrest]%andb_prop.
    destruct (strip_prefix PURE rest) as [tail|] eqn:Htail; [|done].
    apply strip_prefix_Some in Htail as ->.
    by exists before, c, tail.
  - intros (before & marker & after & -> & Hb & Hm & Ha).
    rewrite skip_whitespace_app by done.
    cbn [skip_whitespace]. rewrite (pure_marker_not_whitespace _ Hm), Hm.
    rewrite (proj2 (strip_prefix_Some PURE (PURE ++ after) after) eq_refl).
    done.
Qed.

Lemma pure_condition_pragma gc id init c :
  ((expr_range init).1 - (pattern_range id).2 > 9)%Z →
  c ∈ gc ((pattern_range id).2, (expr_range init).1) →
  comment_type c = Block →
  pure_regexp_test (comment_value c) = true →
  pure_condition gc id init = true.
Proof.
  intros Hgap Hc Hblock Hre. unfold pure_condition.
  rewrite bool_decide_eq_true_2 by done. simpl.
  apply orb_true_intro. left. apply existsb_exists. exists c.
  split; [by apply list_elem_of_In|].
  unfold is_pure_comment. by rewrite bool_decide_eq_true_2, Hre.
Qed.

(** What follows once the condition of lines 216-226 holds: the
    declarator is stored as a pure one and the declarator hook makes its
    dependency before it walks the initializer. *)
Lemma pure_condition_declarator
    (getComments : Range → list Comment)
    (walkExpression : Expression → Hook unit)
    (decl : VariableDeclarator) (range : Range) (id : string)
    (init : Expression) (st : ParserState) (g : InnerGraph) :
  topLevelScope st = ScopeTrue →
  harmonyInnerGraph st = Some g →
  decl_id decl = IdentifierPattern range id →
  decl_init decl = Some init →
  is_function_like init = false →
  pure_condition getComments (decl_id decl) init = true →
  ∃ fn st1 dep st2,
    preDeclarator getComments decl st = Some (true, st1)
    ∧ JsMap.get decl (declWithTopLevelSymbol st1) = Some fn
    ∧ decl ∈ pureDeclarators st1
    ∧ add_pure_dependency init (decl_loc decl) fn st1 = Some (tt, st2)
    ∧ dep_range dep = expr_range init
    ∧ dep ∈ harmonyAllExportDependentDependencies st2
    ∧ dep ∈ module_dependencies st2
    ∧ graph_value st2 (KDependency dep) = VSet [ISymbol fn]
    ∧ declarator walkExpression decl st1
      = (modify (set_currentTopLevelSymbol (Some fn)) ;;
         walkExpression init ;;
         modify (set_currentTopLevelSymbol None) ;;
         mret true) st2.
Proof.
  intros Hscope Hg Hid Hinit Hfun Hpure.
  destruct (tagVar_ok id st) as (fn & st0 & Etag & _ & Eg & Ep & Ed & Epd).
  set (st1 := set_pureDeclarators (JsSet.add decl (pureDeclarators st0))
                (set_declWithTopLevelSymbol
                   (JsMap.set decl fn (declWithTopLevelSymbol st0)) st0)).
  assert (preDeclarator getComments decl st = Some (true, st1)) as Hpre.
  { unfold preDeclarator. hook_unfold. rewrite Hscope, Hinit, Hid.
    rewrite Hid in Hpure. rewrite Hpure.
    destruct init; try done; simpl; by rewrite Etag. }
  assert (JsMap.get decl (declWithTopLevelSymbol st1) = Some fn) as Hget
    by apply jsmap_get_set_eq.
  assert (decl ∈ pureDeclarators st1) as Hmarked
    by (apply jsset_elem_of_add; by left).
  set (dep := {| dep_id := next_id st1; dep_range := expr_range init;
                 dep_loc := decl_loc decl |}).
  eexists fn, st1, dep, _. split_and!; try done.
  - unfold add_pure_dependency, new_PureExpressionDependency. hook_unfold.
    simpl. rewrite Eg, Hg. simpl. reflexivity.
  - simpl. apply jsset_elem_of_add. by left.
  - simpl. apply elem_of_app. right. by left.
  - unfold graph_value. simpl. rewrite graph_get_set_eq.
    by rewrite of_list_singleton.
  - unfold declarator. hook_unfold. rewrite Hget, Hinit.
    rewrite (proj2 (jsset_has_true decl (pureDeclarators st1)) Hmarked).
    unfold add_pure_dependency, new_PureExpressionDependency. hook_unfold.
    simpl. rewrite Eg, Hg. simpl. reflexivity.
Qed.

Lemma isPure_not_function_like init :
  isPure init = true → is_function_like init = false.
Proof. by destruct init. Qed.

(** With a gap of at most 9 the comments are not looked at: the
    condition of lines 216-226 is the shape of the initializer. *)
Lemma pure_condition_small_gap gc id init :
  ((expr_range init).1 - (pattern_range id).2 ≤ 9)%Z →
  pure_condition gc id init = isPure init.
Proof.
  intros Hgap. unfold pure_condition.
  rewrite bool_decide_eq_false_2 by lia. done.
Qed.


(** X20: when the initializer starts more than 9 characters after the
    end of the identifier and the parser returns, for the text in
    between, a block comment matching the pure pragma, a top-level
    initializer that is no function, arrow function or class expression
    is treated as pure whatever its shape: [preDeclarator] stores the
    declarator as a pure one, and the declarator hook makes its
    dependency, anchored at the initializer and bound to the symbol of
    the declarator, and puts it in the pending set before it walks the
    initializer. *)
Theorem pure_pragma_declarator
    (getComments : Range → list Comment)
    (walkExpression : Expression → Hook unit)
    (decl : VariableDeclarator) (range : Range) (id : string)
    (init : Expression) (comment : Comment)
    (st : ParserState) (g : InnerGraph) :
  topLevelScope st = ScopeTrue →
  harmonyInnerGraph st = Some g →
  decl_id decl = IdentifierPattern range id →
  decl_init decl = Some init →
  is_function_like init = false →
  ((expr_range init).1 - range.2 > 9)%Z →
  comment ∈ getComments (range.2, (expr_range init).1) →
  comment_type comment = Block →
  pure_regexp_test (comment_value comment) = true →
  ∃ fn st1 dep st2,
    preDeclarator getComments decl st = Some (true, st1)
    ∧ JsMap.get decl (declWithTopLevelSymbol st1) = Some fn
    ∧ decl ∈ pureDeclarators st1
    ∧ add_pure_dependency init (decl_loc decl) fn st1 = Some (tt, st2)
    ∧ dep_range dep = expr_range init
    ∧ dep ∈ harmonyAllExportDependentDependencies st2
    ∧ dep ∈ module_dependencies st2
    ∧ graph_value st2 (KDependency dep) = VSet [ISymbol fn]
    ∧ declarator walkExpression decl st1
      = (modify (set_currentTopLevelSymbol (Some fn)) ;;
         walkExpression init ;;
         modify (set_currentTopLevelSymbol None) ;;
         mret true) st2.
Proof.
  intros Hscope Hg Hid Hinit Hfun Hgap Hc Hblock Hre.
  assert (pure_condition getComments (decl_id decl) init = true) as Hpure.
  { eapply pure_condition_pragma; rewrite ?Hid; simpl; done. }
  destruct (tagVar_ok id st) as (fn & st0 & Etag & _ & Eg & Ep & Ed & Epd).
  set (st1 := set_pureDeclarators (JsSet.add decl (pureDeclarators st0))
                (set_declWithTopLevelSymbol
                   (JsMap.set decl fn (declWithTopLevelSymbol st0)) st0)).
  assert (preDeclarator getComments decl st = Some (true, st1)) as Hpre.
  { unfold preDeclarator. hook_unfold. rewrite Hscope, Hinit, Hid.
    rewrite Hid in Hpure. rewrite Hpure.
    destruct init; try done; simpl; by rewrite Etag. }
  assert (JsMap.get decl (declWithTopLevelSymbol st1) = Some fn) as Hget
    by apply jsmap_get_set_eq.
  assert (decl ∈ pureDeclarators st1) as Hmarked
    by (apply jsset_elem_of_add; by left).
  set (dep := {| dep_id := next_id st1; dep_range := expr_range init;
                 dep_loc := decl_loc decl |}).
  eexists fn, st1, dep, _. split_and!; try done.
  - unfold add_pure_dependency, new_PureExpressionDependency. hook_unfold.
    simpl. rewrite Eg, Hg. simpl. reflexivity.
  - simpl. apply jsset_elem_of_add. by left.
  - simpl. apply elem_of_app. right. by left.
  - unfold graph_value. simpl. rewrite graph_get_set_eq.
    by rewrite of_list_singleton.
  - unfold declarator. hook_unfold. rewrite Hget, Hinit.
    rewrite (proj2 (jsset_has_true decl (pureDeclarators st1)) Hmarked).
    unfold add_pure_dependency, new_PureExpressionDependency. hook_unfold.
    simpl. rewrite Eg, Hg. simpl. reflexivity.
Qed.

(** A comment that matches the pragma has at least nine characters. *)
Lemma pure_regexp_test_length value :
  pure_regexp_test value = true → 9 ≤ length value.
Proof.
  intros (before & marker & after & -> & _)%pure_regexp_test_spec.
  rewrite length_app. cbn. lia.
Qed.

(** A block comment that matches the pragma does not fit in a gap of
    less than 13 characters. *)
Lemma pragma_needs_gap (c : LocatedComment) (range : Range) :
  block_comment_fits c →
  pure_regexp_test (comment_value (located c)) = true →
  (range.1 ≤ (comment_range c).1)%Z →
  ((comment_range c).2 ≤ range.2)%Z →
  (13 ≤ range.2 - range.1)%Z.
Proof.
  unfold block_comment_fits. intros Hfit Hre%pure_regexp_test_length H1 H2. lia.
Qed.

(** X21: a block comment matching the pure pragma that stands between
    the binding identifier and the initializer is always honoured: it
    takes at least 13 characters, so the test on the gap passes, and a
    top-level initializer that is no function, arrow function or class
    expression is treated as pure whatever its shape and however far it
    is from the identifier. *)
Theorem pragma_between_declarator
    (getComments : Range → list Comment)
    (walkExpression : Expression → Hook unit)
    (decl : VariableDeclarator) (range : Range) (id : string)
    (init : Expression) (comment : LocatedComment)
    (st : ParserState) (g : InnerGraph) :
  topLevelScope st = ScopeTrue →
  harmonyInnerGraph st = Some g →
  decl_id decl = IdentifierPattern range id →
  decl_init decl = Some init →
  is_function_like init = false →
  located comment ∈ getComments (range.2, (expr_range init).1) →
  comment_type (located comment) = Block →
  pure_regexp_test (comment_value (located comment)) = true →
  block_comment_fits comment →
  (range.2 ≤ (comment_range comment).1)%Z →
  ((comment_range comment).2 ≤ (expr_range init).1)%Z →
  ∃ fn st1 dep st2,
    preDeclarator getComments decl st = Some (true, st1)
    ∧ JsMap.get decl (declWithTopLevelSymbol st1) = Some fn
    ∧ decl ∈ pureDeclarators st1
    ∧ add_pure_dependency init (decl_loc decl) fn st1 = Some (tt, st2)
    ∧ dep_range dep = expr_range init
    ∧ dep ∈ harmonyAllExportDependentDependencies st2
    ∧ dep ∈ module_dependencies st2
    ∧ graph_value st2 (KDependency dep) = VSet [ISymbol fn]
    ∧ declarator walkExpression decl st1
      = (modify (set_currentTopLevelSymbol (Some fn)) ;;
         walkExpression init ;;
         modify (set_currentTopLevelSymbol None) ;;
         mret true) st2.
Proof.
  intros Hscope Hg Hid Hinit Hfun Hc Hblock Hre Hfit Hafter Hbefore.
  apply (pure_condition_declarator _ _ _ range id _ _ g); try done.
  eapply pure_condition_pragma; rewrite ?Hid; cbn; try done.
  pose proof (pragma_needs_gap comment (range.2, (expr_range init).1)
                Hfit Hre Hafter Hbefore) as Hgap.
  cbn in Hgap. lia.
Qed.

(** ** The properties on the samples *)

Section samples.
Import Samples PragmaSamples.

Example flatten_self_cycle :
  flatten self_cycle = Some [ (KSymbol a, VUndefined) ].
Proof. reflexivity. Qed.

(** Two symbols that use each other only are both unset. *)
Example flatten_mutual :
  flatten mutual = Some [ (KSymbol a, VUndefined); (KSymbol b, VUndefined) ].
Proof. reflexivity. Qed.

Example flatten_chain :
  flatten chain
  = Some [ (KSymbol a, VSet [IString "y"; IString "x"]);
           (KSymbol b, VSet [IString "y"]) ].
Proof. reflexivity. Qed.

Example flatten_with_sentinel :
  flatten with_sentinel = Some [ (KSymbol a, VTrue); (KSymbol b, VTrue) ].
Proof. reflexivity. Qed.

Example pragma_matches : pure_regexp_test (comment_value pragma) = true.
Proof. reflexivity. Qed.


Lemma chain_acyclic : acyclic chain.
Proof.
  exists chain_rank. intros key items child Hget Hin.
  unfold graph_get, chain in Hget. simpl in Hget.
  destruct (decide (KSymbol a = key)) as [<-|Ha]; simpl in Hget.
  - injection Hget as <-.
    apply elem_of_cons in Hin as [[= ->]|Hin]; [vm_compute; lia|].
    by apply elem_of_cons in Hin as [?|?%elem_of_nil].
  - destruct (decide (KSymbol b = key)) as [<-|Hb]; simpl in Hget; [|done].
    injection Hget as <-.
    by apply elem_of_cons in Hin as [?|?%elem_of_nil].
Defined.


Lemma always_used_absorbing_witness :
  graph_get with_sentinel (KSymbol a) = VTrue
  ∧ ∃ g',
      run_ops [ OpAddDependency a (ArgItem (IString "x")); OpFlatten;
                OpAddDependency a (ArgItem (ISymbol b)); OpFlatten ]
        with_sentinel = Some g'
      ∧ graph_get g' (KSymbol a) = VTrue.
Proof.
  split; [reflexivity|].
  apply (always_used_absorbing with_sentinel (KSymbol a)). reflexivity.
Defined.

Lemma module_start_ready : hooks_ready module_start.
Proof. split; [by eexists | done]. Defined.


(** The same whatever the parser returns for the comments: with a gap
    of 3 they are not asked for. *)
Example pragma_before_binding_any_parser :
  ∀ getComments : Range → list Comment,
    preDeclarator getComments call_after_pragma module_start
    = Some (undefined, module_start).
Proof. reflexivity. Qed.


(** With a gap of more than 9 the pragma does not make the dependency of
    a function expression either: the declarator is stored, but not as a
    pure one. *)
Example pure_pragma_function_expression :
  ∃ fn st,
    preDeclarator comments_with_pragma pragma_function module_start
    = Some (true, st)
    ∧ JsMap.get pragma_function (declWithTopLevelSymbol st) = Some fn
    ∧ pureDeclarators st = []
    ∧ ∃ st', declarator no_walk pragma_function st = Some (true, st')
             ∧ harmonyAllExportDependentDependencies st' = [].
Proof.
  eexists _, _. split_and!; [reflexivity..|].
  eexists. split; reflexivity.
Qed.

Lemma pure_pragma_declarator_witness :
  topLevelScope module_start = ScopeTrue
  ∧ harmonyInnerGraph module_start = Some []
  ∧ is_function_like (CallExpression (26, 35)%Z) = false
  ∧ (26 - 7 > 9)%Z
  ∧ pragma ∈ comments_with_pragma (7, 26)%Z
  ∧ ∃ fn st1 dep st2,
      preDeclarator comments_with_pragma pragma_call module_start
      = Some (true, st1)
      ∧ JsMap.get pragma_call (declWithTopLevelSymbol st1) = Some fn
      ∧ pragma_call ∈ pureDeclarators st1
      ∧ add_pure_dependency (CallExpression (26, 35)%Z)
          (decl_loc pragma_call) fn st1 = Some (tt, st2)
      ∧ dep_range dep = (26, 35)%Z
      ∧ dep ∈ harmonyAllExportDependentDependencies st2
      ∧ dep ∈ module_dependencies st2
      ∧ graph_value st2 (KDependency dep) = VSet [ISymbol fn]
      ∧ declarator no_walk pragma_call st1
        = (modify (set_currentTopLevelSymbol (Some fn)) ;;
           no_walk (CallExpression (26, 35)%Z) ;;
           modify (set_currentTopLevelSymbol None) ;;
           mret true) st2.
Proof.
  assert (26 - 7 > 9)%Z as Hgap by lia.
  assert (pragma ∈ comments_with_pragma (7, 26)%Z) as Hc by (by left).
  split_and!; [reflexivity | reflexivity | reflexivity | exact Hgap | exact Hc |].
  exact (pure_pragma_declarator comments_with_pragma no_walk pragma_call
           (6, 7)%Z "a" (CallExpression (26, 35)%Z) pragma module_start []
           eq_refl eq_refl eq_refl eq_refl eq_refl Hgap Hc eq_refl eq_refl).
Defined.



(** With a parser that defines the name anew, as for a declaration in a
    nested block scope, no symbol is reported any more and [tagVar]
    makes a second one. *)
Example tagVar_on_shadowing_new_symbol :
  definitions (state_after [EvPreStatement first_f]) !! "f"
  = Some (Some {| sym_id := 0; name := "f" |})
  ∧ ∃ st,
      tagVar_on defineVariable_anew getTagData tagVariable "f"
        (state_after [EvPreStatement first_f])
      = Some ({| sym_id := 1; name := "f" |}, st)
      ∧ definitions st !! "f" = Some (Some {| sym_id := 1; name := "f" |}).
Proof. split; [reflexivity|]. eexists. split; reflexivity. Qed.

Lemma reference_records_usage_witness :
  hooks_ready module_start
  ∧ harmonyInnerGraph module_start = Some []
  ∧ (∃ st1, statement (ExpressionStatement (0, 2)%Z (Identifier (0, 1)%Z "a"))
              module_start = Some (undefined, st1)
            ∧ currentTopLevelSymbol st1 = None)
  ∧ ∃ st',
      run_events comments_with_pragma
        (EvExpression a :: [EvScope ScopeFalse; EvExpression a] ++ [EvFinish])
        module_start = Some (tt, st')
      ∧ graph_value st' (KSymbol a) = VTrue.
Proof.
  destruct (reference_records_usage comments_with_pragma a module_start []
              module_start_ready eq_refl) as (_ & Hstmt & Hlater).
  split_and!; [exact module_start_ready | reflexivity | |].
  - apply Hstmt; reflexivity.
  - apply Hlater. reflexivity.
Defined.

Lemma finish_publishes_decisions_witness :
  harmonyInnerGraph before_finish
  = Some [ (KDependency dep_a, VSet [ISymbol a]);
           (KSymbol a, VSet [IString "bar"]) ]
  ∧ ∃ g' st',
      flatten [ (KDependency dep_a, VSet [ISymbol a]);
                (KSymbol a, VSet [IString "bar"]) ] = Some g'
      ∧ finish before_finish = Some (undefined, st')
      ∧ harmonyInnerGraph st' = Some g'
      ∧ (∀ dep, dep ∈ harmonyAllExportDependentDependencies before_finish →
           JsMap.get dep (usedByExports st')
           = Some (match graph_get g' (KDependency dep) with
                   | VUndefined => UsedFalse
                   | VTrue => UsedTrue
                   | VSet items => UsedSet items
                   end)
           ∧ leaf_only (graph_get g' (KDependency dep)))
      ∧ (∀ dep, dep ∉ harmonyAllExportDependentDependencies before_finish →
           JsMap.get dep (usedByExports st')
           = JsMap.get dep (usedByExports before_finish)).
Proof.
  split; [reflexivity|].
  apply (finish_publishes_decisions before_finish). reflexivity.
Defined.

(** The dependency of [const a = /* @__PURE__ */ compute()], with [a]
    used by the export [bar], is published as used through [bar]. *)
Example finish_publishes_bar :
  ∃ st', finish before_finish = Some (undefined, st')
         ∧ JsMap.get dep_a (usedByExports st') = Some (UsedSet [IString "bar"]).
Proof. eexists. split; reflexivity. Qed.

Lemma destructuring_unqualified : unqualified destructuring.
Proof. right. intros range id. discriminate. Defined.

Lemma unqualified_declarator_never_tracked_witness :
  unqualified destructuring
  ∧ hooks_ready module_start
  ∧ untracked destructuring module_start
  ∧ run_events comments_with_pragma
      [ EvPreDeclarator destructuring; EvPreDeclarator pragma_call;
        EvDeclarator destructuring []; EvDeclarator pragma_call [] ]
      module_start
    = Some (tt, state_after
                  [ EvPreDeclarator destructuring; EvPreDeclarator pragma_call;
                    EvDeclarator destructuring [];
                    EvDeclarator pragma_call [] ])
  ∧ preDeclarator comments_with_pragma destructuring
      (state_after
         [ EvPreDeclarator destructuring; EvPreDeclarator pragma_call;
           EvDeclarator destructuring []; EvDeclarator pragma_call [] ])
    = Some (undefined,
            state_after
              [ EvPreDeclarator destructuring; EvPreDeclarator pragma_call;
                EvDeclarator destructuring []; EvDeclarator pragma_call [] ])
  ∧ ∀ walkExpression,
      declarator walkExpression destructuring
        (state_after
           [ EvPreDeclarator destructuring; EvPreDeclarator pragma_call;
             EvDeclarator destructuring []; EvDeclarator pragma_call [] ])
      = Some (undefined,
              state_after
                [ EvPreDeclarator destructuring; EvPreDeclarator pragma_call;
                  EvDeclarator destructuring []; EvDeclarator pragma_call [] ]).
Proof.
  assert (run_events comments_with_pragma
            [ EvPreDeclarator destructuring; EvPreDeclarator pragma_call;
              EvDeclarator destructuring []; EvDeclarator pragma_call [] ]
            module_start
          = Some (tt, state_after
                        [ EvPreDeclarator destructuring;
                          EvPreDeclarator pragma_call;
                          EvDeclarator destructuring [];
                          EvDeclarator pragma_call [] ])) as Hrun
    by reflexivity.
  split_and!;
    [exact destructuring_unqualified | exact module_start_ready
    | reflexivity | exact Hrun | |].
  - exact (proj1 (unqualified_declarator_never_tracked comments_with_pragma
                    destructuring _ module_start _ destructuring_unqualified
                    module_start_ready eq_refl Hrun)).
  - exact (proj2 (unqualified_declarator_never_tracked comments_with_pragma
                    destructuring _ module_start _ destructuring_unqualified
                    module_start_ready eq_refl Hrun)).
Defined.

End samples.

(** * Further properties *)

(** ** Flattening: the shape of what is stored *)

Lemma jsset_NoDup_add (i : Item) s : NoDup s → NoDup (JsSet.add i s).
Proof.
  intros Hs. unfold JsSet.add. destruct (JsSet.has i s) eqn:Hi; [done|].
  apply jsset_has_false in Hi. apply NoDup_app. split_and!; [done| |].
  - intros x Hx ->%list_elem_of_singleton. done.
  - apply NoDup_singleton.
Qed.

Lemma add_strings_NoDup itemValue newSet :
  NoDup newSet → NoDup (add_strings itemValue newSet).
Proof.
  unfold add_strings. revert newSet.
  induction itemValue as [|i itemValue IH]; intros newSet Hn; simpl; [done|].
  apply IH. destruct (is_string i); [by apply jsset_NoDup_add | done].
Qed.

Lemma elem_of_add_strings itemValue newSet i :
  i ∈ add_strings itemValue newSet
  ↔ i ∈ newSet ∨ (i ∈ itemValue ∧ is_string i = true).
Proof.
  unfold add_strings. revert newSet.
  induction itemValue as [|a itemValue IH]; intros newSet; simpl.
  - split; [by left | intros [?|[?%elem_of_nil _]]; done].
  - rewrite IH, elem_of_cons. destruct (is_string a) eqn:Ha.
    + rewrite jsset_elem_of_add. split.
      * intros [[->|?]|[? ?]]; auto.
      * intros [?|[[->|?] ?]]; auto.
    + split.
      * intros [?|[? ?]]; auto.
      * intros [?|[[->|?] ?]]; auto. congruence.
Qed.

Section resolved_with.

(** [P] holds of what [expand] stores when [Q] holds of [newSet]. *)
Variable P : Value → Prop.
Variable Q : list Item → Prop.
Hypothesis P_undefined : P VUndefined.
Hypothesis P_true : P VTrue.
Hypothesis Q_nil : Q [].
Hypothesis Q_add : ∀ s newSet, Q newSet → Q (JsSet.add (IString s) newSet).
Hypothesis Q_add_strings :
  ∀ itemValue newSet, Q newSet → Q (add_strings itemValue newSet).
Hypothesis Q_store :
  ∀ newSet, Q newSet →
    P (match newSet with [] => VUndefined | _ => VSet newSet end).

Lemma resolved_with_write key v pending st :
  resolved_with P (key :: pending) st → P v →
  resolved_with P pending (set_value key v st).
Proof.
  intros Hres Hv k Hk. simpl. rewrite graph_get_set.
  destruct (decide (key = k)) as [->|Hne]; [by right|].
  destruct (Hres k Hk) as [[->|Hp]%elem_of_cons|Hl]; [done|by left|by right].
Qed.

Lemma expand_items_resolved rec key items newSet st st' pending :
  (∀ k s s' p, resolved_with P p s → rec k s = Some s' →
     resolved_with P p s') →
  resolved_with P (key :: pending) st →
  Q newSet →
  expand_items rec key items newSet st = Some st' →
  resolved_with P pending st'.
Proof.
  intros Hrec. revert newSet st.
  induction items as [|[s|item] items IH]; intros newSet st Hres Hnew; simpl.
  - intros [= <-]. pose proof (Q_store _ Hnew) as Hp.
    destruct newSet; by apply resolved_with_write.
  - apply IH; [done|]. by apply Q_add.
  - destruct (rec (KSymbol item) st) as [s1|] eqn:Hs1; [|done].
    apply (Hrec _ _ _ _ Hres) in Hs1.
    destruct (graph_get (innerGraph s1) (KSymbol item)) as [| |itemValue].
    + by apply IH.
    + intros [= <-]. by apply resolved_with_write.
    + apply IH; [done|]. by apply Q_add_strings.
Qed.

Lemma expand_resolved fuel key st st' pending :
  resolved_with P pending st →
  expand fuel key st = Some st' →
  resolved_with P pending st'.
Proof.
  revert key st st' pending.
  induction fuel as [|fuel IH]; intros key st st' pending Hres; [done|].
  simpl. destruct (JsSet.has key (unexpanded st)) eqn:Hhas; simpl.
  2: { by intros [= <-]. }
  set (st1 := {| innerGraph := innerGraph st;
                 unexpanded := JsSet.delete key (unexpanded st) |}).
  assert (resolved_with P (key :: pending) st1) as Hst1.
  { intros k Hk. simpl in Hk. rewrite jsset_elem_of_delete in Hk.
    destruct (decide (k = key)) as [->|Hne]; [left; apply elem_of_cons; auto|].
    destruct (Hres k) as [?|?]; [tauto | left; apply elem_of_cons; auto | by right]. }
  destruct (graph_get (innerGraph st) key) as [| |value] eqn:Hv.
  - intros [= <-] k Hk.
    destruct (Hst1 k Hk) as [[->|?]%elem_of_cons|?]; auto.
    right. simpl. by rewrite Hv.
  - intros [= <-] k Hk.
    destruct (Hst1 k Hk) as [[->|?]%elem_of_cons|?]; auto.
    right. simpl. by rewrite Hv.
  - apply expand_items_resolved; [|done|done].
    intros k s s' p Hs. by apply IH.
Qed.

Lemma expand_all_resolved fuel order st st' :
  resolved_with P [] st →
  expand_all fuel order st = Some st' →
  resolved_with P [] st'.
Proof.
  revert st. induction order as [|key order IH]; intros st Hres; simpl.
  - by intros [= <-].
  - destruct (expand fuel key st) as [s1|] eqn:Hs1; [|done].
    apply IH. by eapply expand_resolved.
Qed.

Lemma flatten_in_order_resolved order g g' :
  (∀ k, k ∈ JsMap.keys g → k ∈ order) →
  flatten_in_order order g = Some g' →
  ∀ k, P (graph_get g' k).
Proof.
  unfold flatten_in_order. intros Hall Hrun k.
  destruct (expand_all _ order _) as [st'|] eqn:Hst'; [|done].
  injection Hrun as <-.
  pose proof (expand_all_frame _ _ _ _ Hst') as [[U _ _] Hdone].
  apply expand_all_resolved in Hst' as Hres.
  - destruct (Hres k) as [?%elem_of_nil|?]; [|done..].
    intros Hk. apply (Hdone k); [|done].
    apply Hall. apply U in Hk. simpl in Hk.
    by rewrite jsset_elem_of_of_list in Hk.
  - intros k' Hk'. right. simpl in *.
    rewrite graph_get_not_key; [done|]. by rewrite jsset_elem_of_of_list in Hk'.
Qed.

End resolved_with.

Lemma flatten_in_order_normal order g g' :
  (∀ k, k ∈ JsMap.keys g → k ∈ order) →
  flatten_in_order order g = Some g' →
  ∀ k, normal_value (graph_get g' k).
Proof.
  apply (flatten_in_order_resolved normal_value
           (λ n, NoDup n ∧ ∀ i, i ∈ n → is_string i = true)).
  - done.
  - done.
  - split; [apply NoDup_nil_2 | by intros i ?%elem_of_nil].
  - intros s n [Hd Hs]. split; [by apply jsset_NoDup_add|].
    intros i [->|Hi]%jsset_elem_of_add; auto.
  - intros iv n [Hd Hs]. split; [by apply add_strings_NoDup|].
    by apply add_strings_leaf.
  - intros [|i n] [Hd Hs]; simpl; [done|]. split_and!; done.
Qed.

Lemma flatten_normal g g' :
  flatten g = Some g' → ∀ k, normal_value (graph_get g' k).
Proof.
  apply flatten_in_order_normal. intros k Hk. by apply jsset_elem_of_of_list.
Qed.

(** ** Flattening twice *)

Lemma foldl_add_NoDup (acc items : list Item) :
  NoDup (acc ++ items) →
  foldl (λ s x, JsSet.add x s) acc items = acc ++ items.
Proof.
  revert acc. induction items as [|i items IH]; intros acc Hd; simpl.
  - by rewrite app_nil_r.
  - assert (JsSet.add i acc = acc ++ [i]) as ->.
    { unfold JsSet.add. rewrite (proj2 (jsset_has_false i acc)); [done|].
      apply NoDup_app in Hd as (_ & Hd & _). intros Hi.
      apply (Hd i Hi). by left. }
    rewrite IH; rewrite <- app_assoc; done.
Qed.

(** On strings only, the loop of [expand] is [newSet.add] on each. *)
Lemma expand_items_strings rec key items newSet st :
  (∀ i, i ∈ items → is_string i = true) →
  expand_items rec key items newSet st
  = Some (store_newSet key (foldl (λ s x, JsSet.add x s) newSet items) st).
Proof.
  revert newSet. induction items as [|[s|c] items IH]; intros newSet Hs; simpl.
  - done.
  - apply IH. intros i Hi. apply Hs. by right.
  - specialize (Hs (ISymbol c)). simpl in Hs. discriminate Hs. by left.
Qed.

Lemma graph_get_set_get g k items :
  graph_get g k = VSet items → JsMap.get k g = Some (VSet items).
Proof. unfold graph_get. destruct (JsMap.get k g); simpl; congruence. Qed.

Lemma expand_normal_unchanged fuel key st st' :
  (∀ k, normal_value (graph_get (innerGraph st) k)) →
  expand fuel key st = Some st' →
  innerGraph st' = innerGraph st.
Proof.
  destruct fuel as [|fuel]; [done|]. intros Hn. simpl.
  destruct (JsSet.has key (unexpanded st)); simpl; [|by intros [= <-]].
  specialize (Hn key).
  destruct (graph_get (innerGraph st) key) as [| |value] eqn:Hv;
    [by intros [= <-]..|].
  destruct Hn as (Hne & Hd & Hs).
  rewrite expand_items_strings by done.
  rewrite (foldl_add_NoDup [] value) by done. simpl.
  intros [= <-]. destruct value; [done|]. simpl.
  apply jsmap_set_id. by apply graph_get_set_get.
Qed.

Lemma expand_all_normal_unchanged fuel order st st' :
  (∀ k, normal_value (graph_get (innerGraph st) k)) →
  expand_all fuel order st = Some st' →
  innerGraph st' = innerGraph st.
Proof.
  revert st. induction order as [|key order IH]; intros st Hn; simpl.
  - by intros [= <-].
  - destruct (expand fuel key st) as [s1|] eqn:Hs1; [|done].
    apply expand_normal_unchanged in Hs1 as E; [|done].
    intros H. apply IH in H; [congruence|]. by rewrite E.
Qed.

Lemma flatten_normal_unchanged g :
  (∀ k, normal_value (graph_get g k)) → flatten g = Some g.
Proof.
  intros Hn. destruct (flatten_in_order_total (JsSet.of_list (JsMap.keys g)) g)
    as [g' Hg'].
  unfold flatten. rewrite Hg'. f_equal.
  unfold flatten_in_order in Hg'.
  destruct (expand_all _ _ _) as [st'|] eqn:Hst'; [|done].
  injection Hg' as <-. by apply expand_all_normal_unchanged in Hst'.
Qed.

(** X1: flattening is idempotent: a graph that a run of the flattening
    produced is left exactly as it is, entry by entry, by another
    run. *)
Theorem flatten_idempotent (g g' : InnerGraph) :
  flatten g = Some g' → flatten g' = Some g'.
Proof.
  intros Hg. apply flatten_normal_unchanged. by eapply flatten_normal.
Qed.

(** ** Flattening keeps the keys *)

Lemma jsmap_keys_set_has (k : Key) (v : Value) (m : InnerGraph) :
  k ∈ JsMap.keys m → JsMap.keys (JsMap.set k v m) = JsMap.keys m.
Proof.
  unfold JsMap.keys. induction m as [|[k0 v0] m IH]; simpl.
  - by intros ?%elem_of_nil.
  - destruct (decide (k0 = k)) as [->|Hne]; [done|].
    intros [?|Hk]%elem_of_cons; [congruence|]. simpl. f_equal. by apply IH.
Qed.

Lemma keys_store_newSet key newSet st :
  key ∈ JsMap.keys (innerGraph st) →
  JsMap.keys (innerGraph (store_newSet key newSet st))
  = JsMap.keys (innerGraph st).
Proof. intros Hk. destruct newSet; simpl; by apply jsmap_keys_set_has. Qed.

Lemma expand_items_keys rec key items newSet st st' :
  (∀ k s s', unexpanded_are_keys s → rec k s = Some s' →
     JsMap.keys (innerGraph s') = JsMap.keys (innerGraph s)
     ∧ unexpanded_are_keys s') →
  unexpanded_are_keys st →
  key ∈ JsMap.keys (innerGraph st) →
  expand_items rec key items newSet st = Some st' →
  JsMap.keys (innerGraph st') = JsMap.keys (innerGraph st)
  ∧ unexpanded_are_keys st'.
Proof.
  intros Hrec. revert newSet st.
  induction items as [|[s|item] items IH]; intros newSet st Hu Hkey; simpl.
  - intros [= <-]. rewrite keys_store_newSet by done. split; [done|].
    intros k. rewrite unexpanded_store_newSet, keys_store_newSet by done.
    apply Hu.
  - by apply IH.
  - destruct (rec (KSymbol item) st) as [s1|] eqn:Hs1; [|done].
    apply Hrec in Hs1 as [E1 U1]; [|done].
    assert (key ∈ JsMap.keys (innerGraph s1)) as Hkey1 by by rewrite E1.
    destruct (graph_get (innerGraph s1) (KSymbol item)) as [| |itemValue].
    + intros H. apply IH in H as [E2 U2]; [|done..]. split; [congruence|done].
    + intros [= <-]. simpl. rewrite jsmap_keys_set_has by done.
      split; [done|]. intros k Hk. simpl. rewrite jsmap_keys_set_has by done.
      by apply U1.
    + intros H. apply IH in H as [E2 U2]; [|done..]. split; [congruence|done].
Qed.

Lemma expand_keys fuel key st st' :
  unexpanded_are_keys st →
  expand fuel key st = Some st' →
  JsMap.keys (innerGraph st') = JsMap.keys (innerGraph st)
  ∧ unexpanded_are_keys st'.
Proof.
  revert key st st'. induction fuel as [|fuel IH]; intros key st st' Hu; [done|].
  simpl. destruct (JsSet.has key (unexpanded st)) eqn:Hhas; simpl.
  2: { by intros [= <-]. }
  apply jsset_has_true in Hhas.
  set (st1 := {| innerGraph := innerGraph st;
                 unexpanded := JsSet.delete key (unexpanded st) |}).
  assert (unexpanded_are_keys st1) as Hu1.
  { intros k [_ Hk]%jsset_elem_of_delete. by apply Hu. }
  destruct (graph_get (innerGraph st) key) as [| |value];
    [by intros [= <-]..|].
  intros H. apply expand_items_keys in H; [done| |done|by apply Hu].
  intros k s s' Hs. by apply IH.
Qed.

Lemma expand_all_keys fuel order st st' :
  unexpanded_are_keys st →
  expand_all fuel order st = Some st' →
  JsMap.keys (innerGraph st') = JsMap.keys (innerGraph st).
Proof.
  revert st. induction order as [|key order IH]; intros st Hu; simpl.
  - by intros [= <-].
  - destruct (expand fuel key st) as [s1|] eqn:Hs1; [|done].
    apply expand_keys in Hs1 as [E1 U1]; [|done].
    intros H. apply IH in H; [congruence | done].
Qed.

Lemma flatten_in_order_keys order g g' :
  flatten_in_order order g = Some g' → JsMap.keys g' = JsMap.keys g.
Proof.
  unfold flatten_in_order. intros Hrun.
  destruct (expand_all _ order _) as [st'|] eqn:Hst'; [|done].
  injection Hrun as <-. apply expand_all_keys in Hst'; [done|].
  intros k Hk. simpl in *. by rewrite jsset_elem_of_of_list in Hk.
Qed.

(** X2: flattening rewrites values in place: the graph has the same
    keys, in the same order, after as before; no key is added, dropped
    or moved, whatever the order of expansion. *)
Theorem flatten_keeps_keys (order : list Key) (g g' : InnerGraph) :
  flatten_in_order order g = Some g' → JsMap.keys g' = JsMap.keys g.
Proof. apply flatten_in_order_keys. Qed.

(** ** Flattening reports nothing the graph does not hold *)

Lemma uses_always_step g k child :
  value_has (graph_get g k) (ISymbol child) →
  uses_always g (KSymbol child) → uses_always g k.
Proof. intros He (k' & Hr & Ht). exists k'. split; [by eapply reach_step | done]. Qed.

Lemma uses_export_step g k child s :
  value_has (graph_get g k) (ISymbol child) →
  uses_export g (KSymbol child) s → uses_export g k s.
Proof. intros He (k' & Hr & Hs). exists k'. split; [by eapply reach_step | done]. Qed.

Lemma supported_initial g k : supported g k (graph_get g k).
Proof.
  split_and!; [done|..].
  - intros Ht. exists k. split; [apply reach_refl | done].
  - intros s Hs. exists k. split; [apply reach_refl | done].
Qed.

Section supported.

Variable g : InnerGraph.

Let all_supported (st : FlattenState) : Prop :=
  ∀ k, supported g k (graph_get (innerGraph st) k).

Lemma supported_write key v st :
  all_supported st → supported g key v → all_supported (set_value key v st).
Proof.
  intros Hall Hv k. simpl. rewrite graph_get_set.
  destruct (decide (key = k)) as [<-|Hne]; [done | apply Hall].
Qed.

Lemma expand_items_supported rec key items newSet st st' :
  (∀ k s s', all_supported s → rec k s = Some s' → all_supported s') →
  all_supported st →
  (∀ child, ISymbol child ∈ items →
     value_has (graph_get g key) (ISymbol child)) →
  (∀ s, IString s ∈ items → uses_export g key s) →
  (∀ i, i ∈ newSet → ∃ s, i = IString s ∧ uses_export g key s) →
  expand_items rec key items newSet st = Some st' →
  all_supported st'.
Proof.
  intros Hrec. revert newSet st.
  induction items as [|[s|child] items IH];
    intros newSet st Hall Hedges Hstrings Hnew; simpl.
  - intros [= <-].
    assert (supported g key
              (match newSet with [] => VUndefined | _ => VSet newSet end))
      as Hsup.
    { destruct newSet as [|i n]; [by split_and!|]. split_and!; [|done|].
      - intros c Hc. by destruct (Hnew _ Hc) as (s & ? & _).
      - intros s Hs. destruct (Hnew _ Hs) as (s' & [= ->] & ?). done. }
    destruct newSet; by apply supported_write.
  - apply IH; try done.
    + intros c Hc. apply Hedges. by right.
    + intros s' Hs'. apply Hstrings. by right.
    + intros i [->|Hi]%jsset_elem_of_add; [|by apply Hnew].
      exists s. split; [done|]. apply Hstrings. by left.
  - destruct (rec (KSymbol child) st) as [s1|] eqn:Hs1; [|done].
    apply (Hrec _ _ _ Hall) in Hs1.
    assert (value_has (graph_get g key) (ISymbol child)) as Hedge
      by (apply Hedges; by left).
    destruct (Hs1 (KSymbol child)) as (_ & Htrue & Hstr).
    assert (∀ c, ISymbol c ∈ items → value_has (graph_get g key) (ISymbol c))
      as Hedges' by (intros c Hc; apply Hedges; by right).
    assert (∀ s, IString s ∈ items → uses_export g key s)
      as Hstrings' by (intros s Hs; apply Hstrings; by right).
    destruct (graph_get (innerGraph s1) (KSymbol child)) as [| |itemValue].
    + by apply IH.
    + intros [= <-]. apply supported_write; [done|].
      split_and!; [done| |done].
      intros _. eapply uses_always_step; [done | by apply Htrue].
    + apply IH; try done.
      intros i [Hi|[Hi Hs]]%elem_of_add_strings; [by apply Hnew|].
      destruct i as [s|c]; [|done]. exists s. split; [done|].
      eapply uses_export_step; [done | by apply Hstr].
Qed.

Lemma expand_supported fuel key st st' :
  all_supported st → expand fuel key st = Some st' → all_supported st'.
Proof.
  revert key st st'. induction fuel as [|fuel IH]; intros key st st' Hall; [done|].
  simpl. destruct (JsSet.has key (unexpanded st)); simpl; [|by intros [= <-]].
  destruct (Hall key) as (Hedges & _ & Hstrings).
  destruct (graph_get (innerGraph st) key) as [| |value];
    [by intros [= <-]..|].
  apply expand_items_supported.
  - intros k s s' Hs. by apply IH.
  - exact Hall.
  - exact Hedges.
  - exact Hstrings.
  - by intros i ?%elem_of_nil.
Qed.

Lemma expand_all_supported fuel order st st' :
  all_supported st → expand_all fuel order st = Some st' → all_supported st'.
Proof.
  revert st. induction order as [|key order IH]; intros st Hall; simpl.
  - by intros [= <-].
  - destruct (expand fuel key st) as [s1|] eqn:Hs1; [|done].
    apply IH. by eapply expand_supported.
Qed.

Lemma flatten_in_order_supported order g' :
  flatten_in_order order g = Some g' → ∀ k, supported g k (graph_get g' k).
Proof.
  unfold flatten_in_order. intros Hrun.
  destruct (expand_all _ order _) as [st'|] eqn:Hst'; [|done].
  injection Hrun as <-. eapply expand_all_supported; [|done].
  intros k. apply supported_initial.
Qed.

End supported.

(** X3: flattening never reports a usage the graph does not hold, on
    cyclic graphs too: a key that ends always-used reaches, along the
    edges of the graph it started from, a key that was always-used, and
    every export name in its final set is an export name in the set of a
    key it reaches. *)
Theorem flatten_sound (g : InnerGraph) :
  ∃ g', flatten g = Some g'
    ∧ ∀ k, (graph_get g' k = VTrue → uses_always g k)
           ∧ (∀ s, value_has (graph_get g' k) (IString s) → uses_export g k s).
Proof.
  destruct (flatten_in_order_total (JsSet.of_list (JsMap.keys g)) g) as [g' Hg'].
  exists g'. split; [done|]. intros k.
  by destruct (flatten_in_order_supported g _ g' Hg' k) as (_ & ? & ?).
Qed.

Lemma flatten_unused g k :
  ¬ uses_always g k →
  (∀ s, ¬ uses_export g k s) →
  ∃ g', flatten g = Some g' ∧ graph_get g' k = VUndefined.
Proof.
  intros Hna Hne.
  destruct (flatten_in_order_total (JsSet.of_list (JsMap.keys g)) g) as [g' Hg'].
  exists g'. split; [done|].
  destruct (flatten_in_order_supported g _ g' Hg' k) as (_ & Ht & Hs).
  pose proof (flatten_normal g g' Hg' k) as Hn.
  destruct (graph_get g' k) as [| |items]; [done | by destruct Hna; auto |].
  destruct Hn as (Hnil & _ & Hstr). destruct items as [|i items]; [done|].
  destruct i as [s|c].
  - destruct (Hne s). apply Hs. by left.
  - specialize (Hstr (ISymbol c)). simpl in Hstr. discriminate Hstr. by left.
Qed.

(** X4: a key that reaches no always-used key and no export name ends
    unset, whatever cycles it sits on: symbols that only use each other
    are not used. *)
Theorem flatten_unused_unset (g : InnerGraph) (k : Key) :
  ¬ uses_always g k →
  (∀ s, ¬ uses_export g k s) →
  ∃ g', flatten g = Some g' ∧ graph_get g' k = VUndefined.
Proof. apply flatten_unused. Qed.

(** ** Flattening an acyclic graph is exact *)

Lemma uses_always_inv g k :
  uses_always g k →
  graph_get g k = VTrue
  ∨ ∃ child, value_has (graph_get g k) (ISymbol child)
             ∧ uses_always g (KSymbol child).
Proof.
  intros (k' & Hr & Ht). destruct Hr as [k|k child k' He Hr]; [by left|].
  right. exists child. split; [done | by exists k'].
Qed.

Lemma uses_export_inv g k s :
  uses_export g k s →
  value_has (graph_get g k) (IString s)
  ∨ ∃ child, value_has (graph_get g k) (ISymbol child)
             ∧ uses_export g (KSymbol child) s.
Proof.
  intros (k' & Hr & Hs). destruct Hr as [k|k child k' He Hr]; [by left|].
  right. exists child. split; [done | by exists k'].
Qed.

Section exact.

Variable g : InnerGraph.
Variable rank : Key → nat.
Hypothesis rank_decreases :
  ∀ key items child,
    graph_get g key = VSet items → ISymbol child ∈ items →
    rank (KSymbol child) < rank key.

(** What the flattened value [v] of [k] says of [k]. *)
Let exact (k : Key) (v : Value) : Prop :=
  (v = VTrue ↔ uses_always g k)
  ∧ ∀ s, value_has v (IString s) ↔ ¬ uses_always g k ∧ uses_export g k s.

Lemma Merge_exact items :
  (∀ child w, ISymbol child ∈ items →
     Flat g (KSymbol child) w → exact (KSymbol child) w) →
  ∀ newSet v,
    Merge g items newSet v →
    (v = VTrue ↔ ∃ child, ISymbol child ∈ items
                          ∧ uses_always g (KSymbol child))
    ∧ ((¬ ∃ child, ISymbol child ∈ items ∧ uses_always g (KSymbol child)) →
       ∀ s, value_has v (IString s)
            ↔ IString s ∈ newSet ∨ IString s ∈ items
              ∨ ∃ child, ISymbol child ∈ items
                         ∧ uses_export g (KSymbol child) s).
Proof.
  induction items as [|[s0|child] items IH]; intros Hchild newSet v Hm.
  - inversion Hm; subst. split.
    + split; [by destruct newSet | by intros (c & ?%elem_of_nil & _)].
    + intros _ s. destruct newSet as [|i n]; simpl.
      * split; [done | by intros [?%elem_of_nil|[?%elem_of_nil|(c & ?%elem_of_nil & _)]]].
      * split; [by left | by intros [?|[?%elem_of_nil|(c & ?%elem_of_nil & _)]]].
  - inversion Hm as [|? ? ? ? Hm'| | |]; subst.
    destruct (IH (λ c w Hc, Hchild c w (list_elem_of_further _ _ _ Hc)) _ _ Hm')
      as [Ht Hs].
    split.
    + rewrite Ht. split; intros (c & Hc & Ha); exists c; split; try done.
      * by right.
      * by apply elem_of_cons in Hc as [?|?].
    + intros Hno s. rewrite Hs.
      * rewrite jsset_elem_of_add, elem_of_cons. split.
        -- intros [[[= ->]|?]|[?|(c & Hc & He)]]; auto.
           right. right. exists c. split; [by right | done].
        -- intros [?|[[[= ->]|?]|(c & Hc & He)]]; auto.
           right. right. exists c. split; [|done].
           by apply elem_of_cons in Hc as [?|?].
      * intros (c & Hc & Ha). apply Hno. exists c. split; [by right | done].
  - assert (∀ w, Flat g (KSymbol child) w → exact (KSymbol child) w) as Hhere
      by (intros w; apply Hchild; by left).
    pose proof (λ c w Hc, Hchild c w (list_elem_of_further _ _ _ Hc)) as Hrest.
    assert (∀ X : TopLevelSymbol → Prop,
              (∃ c, ISymbol c ∈ ISymbol child :: items ∧ X c)
              ↔ X child ∨ ∃ c, ISymbol c ∈ items ∧ X c) as Hex.
    { intros X. split.
      - intros (c & [[= ->]|Hc]%elem_of_cons & Hx); [by left|].
        right. by exists c.
      - intros [Hx|(c & Hc & Hx)]; [exists child | exists c];
          (split; [|done]); [by left | by right]. }
    inversion Hm as [| |? ? ? F|? ? ? ? F Hm'|? ? ? ? ? F Hm']; subst.
    + destruct (Hhere _ F) as [Ha _]. split.
      * split; [|done]. intros _. exists child. split; [by left | by apply Ha].
      * intros Hno. destruct Hno. exists child. split; [by left | by apply Ha].
    + destruct (Hhere _ F) as [Ha He]. destruct (IH Hrest _ _ Hm') as [Ht Hs].
      assert (¬ uses_always g (KSymbol child)) as Hna
        by (intros ?; by apply Ha in H).
      split.
      * rewrite Ht, Hex. split; [by right | by intros [?|?]].
      * intros Hno s. rewrite Hs.
        -- rewrite Hex, elem_of_cons. split.
           ++ intros [?|[?|?]]; auto.
           ++ intros [?|[[?|?]|[Hx|?]]]; auto; [done|].
              destruct (proj2 (He s)); done.
        -- intros Hsome. apply Hno. apply Hex. by right.
    + destruct (Hhere _ F) as [Ha He]. destruct (IH Hrest _ _ Hm') as [Ht Hs].
      assert (¬ uses_always g (KSymbol child)) as Hna
        by (intros ?; by apply Ha in H).
      split.
      * rewrite Ht, Hex. split; [by right | by intros [?|?]].
      * intros Hno s. rewrite Hs.
        -- rewrite Hex, elem_of_cons, elem_of_add_strings. split.
           ++ intros [[?|[Hi _]]|[?|?]]; auto.
              right. right. left. apply He. done.
           ++ intros [?|[[?|?]|[Hx|?]]]; auto; [done|].
              left. right. split; [|done]. by apply He.
        -- intros Hsome. apply Hno. apply Hex. by right.
Qed.

Lemma Flat_exact_below n :
  ∀ k v, rank k < n → Flat g k v → exact k v.
Proof.
  induction n as [|n IH]; intros k v Hn Hf; [lia|].
  inversion Hf as [? E|? E|? items ? E M]; subst.
  - split.
    + split; [done|]. intros [?|(c & Hc & _)]%uses_always_inv; [congruence|].
      by rewrite E in Hc.
    + intros s. split; [done|].
      intros [_ [Hs|(c & Hc & _)]%uses_export_inv]; by rewrite E in *.
  - split.
    + split; [|done]. intros _. exists k. split; [apply reach_refl | done].
    + intros s. split; [done|]. intros [Hna _]. destruct Hna.
      exists k. split; [apply reach_refl | done].
  - destruct (Merge_exact items) with (newSet := @nil Item) (v := v)
      as [Ht Hs]; [|done|].
    { intros child w Hc. apply IH.
      pose proof (rank_decreases _ _ _ E Hc). lia. }
    assert (uses_always g k
            ↔ ∃ child, ISymbol child ∈ items ∧ uses_always g (KSymbol child))
      as Hua.
    { split.
      - intros [?|(c & Hc & Ha)]%uses_always_inv; [congruence|].
        rewrite E in Hc. by exists c.
      - intros (c & Hc & Ha). eapply uses_always_step; [|done]. by rewrite E. }
    split; [by rewrite Hua|].
    intros s. split.
    + intros Hv. assert (¬ uses_always g k) as Hna.
      { intros Ha. apply Hua, Ht in Ha. subst v. done. }
      split; [done|]. rewrite Hua in Hna.
      apply (Hs Hna) in Hv as [?%elem_of_nil|[Hi|(c & Hc & He)]]; [done|..].
      * exists k. split; [apply reach_refl | by rewrite E].
      * eapply uses_export_step; [|done]. by rewrite E.
    + intros [Hna He]. rewrite Hua in Hna. apply (Hs Hna).
      apply uses_export_inv in He as [Hi|(c & Hc & He)]; rewrite E in *.
      * right. by left.
      * right. right. by exists c.
Qed.

Lemma flatten_in_order_exact order g' k :
  (∀ k, k ∈ JsMap.keys g → k ∈ order) →
  flatten_in_order order g = Some g' →
  exact k (graph_get g' k).
Proof.
  intros Hall Hrun. apply (Flat_exact_below (S (rank k))); [lia|].
  by eapply flatten_in_order_Flat.
Qed.

End exact.

(** X5: on a graph without cycles the flattening is exact: a key ends
    always-used exactly when it reaches a key that was always-used, and
    otherwise its final set holds exactly the export names of the sets
    of the keys it reaches. *)
Theorem flatten_exact_acyclic (g : InnerGraph) :
  acyclic g →
  ∃ g', flatten g = Some g'
    ∧ ∀ k, (graph_get g' k = VTrue ↔ uses_always g k)
           ∧ (∀ s, value_has (graph_get g' k) (IString s)
                   ↔ ¬ uses_always g k ∧ uses_export g k s).
Proof.
  intros [rank Hrank].
  destruct (flatten_in_order_total (JsSet.of_list (JsMap.keys g)) g) as [g' Hg'].
  exists g'. split; [done|]. intros k.
  eapply (flatten_in_order_exact g rank Hrank); [|exact Hg'].
  intros k' Hk'. by apply jsset_elem_of_of_list.
Qed.

(** ** The dependency of a pure declarator follows its symbol *)

Lemma normal_resolved_expand fuel key st st' pending :
  resolved_with normal_value pending st →
  expand fuel key st = Some st' →
  resolved_with normal_value pending st'.
Proof.
  apply (expand_resolved normal_value
           (λ n, NoDup n ∧ ∀ i, i ∈ n → is_string i = true)).
  - done.
  - done.
  - split; [apply NoDup_nil_2 | by intros i ?%elem_of_nil].
  - intros s n [Hd Hs]. split; [by apply jsset_NoDup_add|].
    intros i [->|Hi]%jsset_elem_of_add; auto.
  - intros iv n [Hd Hs]. split; [by apply add_strings_NoDup|].
    by apply add_strings_leaf.
  - intros [|i n] [Hd Hs]; simpl; [done|]. split_and!; done.
Qed.

Lemma add_strings_all_strings itemValue newSet :
  (∀ i, i ∈ itemValue → is_string i = true) →
  add_strings itemValue newSet
  = foldl (λ s x, JsSet.add x s) newSet itemValue.
Proof.
  unfold add_strings. revert newSet.
  induction itemValue as [|i iv IH]; intros newSet Hs; simpl; [done|].
  rewrite (Hs i) by by left. apply IH. intros j Hj. apply Hs. by right.
Qed.

Section dependency.

Variable dep : Dependency.
Variable fn : TopLevelSymbol.

(** [expand] on another key leaves the dependency where it is. *)
Lemma expand_items_other_dependency rec key items newSet st st' :
  key ≠ KDependency dep →
  (∀ c s s', rec (KSymbol c) s = Some s' →
     (KDependency dep ∈ unexpanded s → KDependency dep ∈ unexpanded s')
     ∧ graph_get (innerGraph s') (KDependency dep)
       = graph_get (innerGraph s) (KDependency dep)) →
  expand_items rec key items newSet st = Some st' →
  (KDependency dep ∈ unexpanded st → KDependency dep ∈ unexpanded st')
  ∧ graph_get (innerGraph st') (KDependency dep)
    = graph_get (innerGraph st) (KDependency dep).
Proof.
  intros Hkey Hrec. revert newSet st.
  induction items as [|[s|c] items IH]; intros newSet st; simpl.
  - intros [= <-]. rewrite unexpanded_store_newSet.
    split; [done | by apply graph_get_store_newSet_ne].
  - apply IH.
  - destruct (rec (KSymbol c) st) as [s1|] eqn:Hs1; [|done].
    apply Hrec in Hs1 as [U1 E1].
    destruct (graph_get (innerGraph s1) (KSymbol c)) as [| |itemValue].
    + intros [U2 E2]%IH. split; [auto | congruence].
    + intros [= <-]. simpl. split; [done|]. by rewrite graph_get_set_ne.
    + intros [U2 E2]%IH. split; [auto | congruence].
Qed.

Lemma expand_other_dependency fuel key st st' :
  key ≠ KDependency dep →
  expand fuel key st = Some st' →
  (KDependency dep ∈ unexpanded st → KDependency dep ∈ unexpanded st')
  ∧ graph_get (innerGraph st') (KDependency dep)
    = graph_get (innerGraph st) (KDependency dep).
Proof.
  revert key st st'. induction fuel as [|fuel IH]; intros key st st' Hkey; [done|].
  simpl. destruct (JsSet.has key (unexpanded st)); simpl; [|by intros [= <-]].
  set (st1 := {| innerGraph := innerGraph st;
                 unexpanded := JsSet.delete key (unexpanded st) |}).
  assert (KDependency dep ∈ unexpanded st → KDependency dep ∈ unexpanded st1)
    as Hst1 by (intros ?; apply jsset_elem_of_delete; by split).
  destruct (graph_get (innerGraph st) key) as [| |value];
    [by intros [= <-]..|].
  intros H. apply expand_items_other_dependency in H as [U E]; [|done|].
  - split; [auto | done].
  - intros c s s'. by apply IH.
Qed.

(** Expanding the dependency, from the top of the loop. *)
Lemma expand_dependency fuel st st' :
  resolved_with normal_value [] st →
  KDependency dep ∈ unexpanded st →
  graph_get (innerGraph st) (KDependency dep) = VSet [ISymbol fn] →
  expand fuel (KDependency dep) st = Some st' →
  (KSymbol fn ∉ unexpanded st')
  ∧ graph_get (innerGraph st') (KDependency dep)
    = graph_get (innerGraph st') (KSymbol fn).
Proof.
  intros Hres Hin Hv. destruct fuel as [|fuel]; [done|]. simpl.
  rewrite (proj2 (jsset_has_true _ _) Hin). simpl. rewrite Hv. simpl.
  set (st1 := {| innerGraph := innerGraph st;
                 unexpanded := JsSet.delete (KDependency dep) (unexpanded st) |}).
  assert (resolved_with normal_value [KDependency dep] st1) as Hres1.
  { intros k Hk. simpl in Hk. rewrite jsset_elem_of_delete in Hk.
    destruct (decide (k = KDependency dep)) as [->|Hne]; [left; by left|].
    destruct (Hres k) as [?%elem_of_nil|?]; [tauto | done | by right]. }
  destruct (expand fuel (KSymbol fn) st1) as [s1|] eqn:Hs1; [|done].
  pose proof (normal_resolved_expand _ _ _ _ _ Hres1 Hs1) as Hres2.
  apply expand_frame in Hs1 as [_ Hfn].
  destruct (Hres2 _ Hfn) as [Hp|Hn].
  { apply elem_of_cons in Hp as [?|Hp]; [done|]. by apply elem_of_nil in Hp. }
  destruct (graph_get (innerGraph s1) (KSymbol fn)) as [| |itemValue] eqn:Hw.
  - intros [= <-]. split; [done|]. simpl.
    by rewrite graph_get_set_eq, graph_get_set_ne, Hw.
  - intros [= <-]. split; [done|]. simpl.
    by rewrite graph_get_set_eq, graph_get_set_ne, Hw.
  - destruct Hn as (Hne & Hd & Hs).
    rewrite add_strings_all_strings, (foldl_add_NoDup [] itemValue) by done.
    simpl. intros [= <-]. rewrite unexpanded_store_newSet. split; [done|].
    destruct itemValue; [done|]. simpl.
    by rewrite graph_get_set_eq, graph_get_set_ne, Hw.
Qed.

(** What the loop over the keys keeps. *)
Let follows (st : FlattenState) : Prop :=
  resolved_with normal_value [] st
  ∧ ((KDependency dep ∈ unexpanded st
      ∧ graph_get (innerGraph st) (KDependency dep) = VSet [ISymbol fn])
     ∨ ((KDependency dep ∉ unexpanded st)
        ∧ (KSymbol fn ∉ unexpanded st)
        ∧ graph_get (innerGraph st) (KDependency dep)
          = graph_get (innerGraph st) (KSymbol fn))).

Lemma expand_follows fuel key st st' :
  follows st → expand fuel key st = Some st' → follows st'.
Proof.
  intros [Hres Hcase] Hrun.
  split; [by eapply normal_resolved_expand|].
  pose proof (expand_frame _ _ _ _ Hrun) as [[U R T] Hkey].
  destruct Hcase as [[Hin Hv]|(Hd & Hf & E)].
  - destruct (decide (key = KDependency dep)) as [->|Hne].
    + right. destruct (expand_dependency _ _ _ Hres Hin Hv Hrun) as [? ?].
      done.
    + left. apply expand_other_dependency in Hrun as [U' E']; [|done].
      split; [auto | congruence].
  - right. split_and!.
    + intros Hx. by apply U in Hx.
    + intros Hx. by apply U in Hx.
    + by rewrite !R.
Qed.

Lemma expand_all_follows fuel order st st' :
  follows st → expand_all fuel order st = Some st' → follows st'.
Proof.
  revert st. induction order as [|key order IH]; intros st Hf; simpl.
  - by intros [= <-].
  - destruct (expand fuel key st) as [s1|] eqn:Hs1; [|done].
    apply IH. by eapply expand_follows.
Qed.

Lemma flatten_dependency_follows g g' :
  graph_get g (KDependency dep) = VSet [ISymbol fn] →
  flatten g = Some g' →
  graph_get g' (KDependency dep) = graph_get g' (KSymbol fn).
Proof.
  unfold flatten, flatten_in_order. intros Hv Hrun.
  destruct (expand_all _ _ _) as [st'|] eqn:Hst'; [|done].
  injection Hrun as <-.
  assert (KDependency dep ∈ JsSet.of_list (JsMap.keys g)) as Hkey.
  { apply jsset_elem_of_of_list. destruct (decide (KDependency dep ∈ JsMap.keys g))
      as [?|Hno]; [done|].
    apply graph_get_not_key in Hno. congruence. }
  pose proof (expand_all_frame _ _ _ _ Hst') as [_ Hdone].
  apply expand_all_follows in Hst' as [_ [[Hin _]|(_ & _ & E)]]; [|done|].
  - by destruct (Hdone _ Hkey).
  - split; [|by left]. intros k Hk. right. simpl in *.
    rewrite graph_get_not_key; [done|]. by rewrite jsset_elem_of_of_list in Hk.
Qed.

End dependency.

(** X6: a dependency whose set is its declarator's symbol alone, as the
    declarator hook stores it, ends the flattening with exactly the
    value of that symbol, cycles or not: the initializer is kept or
    dropped as its binding is. *)
Theorem dependency_shares_fate
    (g : InnerGraph) (dep : Dependency) (fn : TopLevelSymbol) :
  graph_get g (KDependency dep) = VSet [ISymbol fn] →
  ∃ g', flatten g = Some g'
    ∧ graph_get g' (KDependency dep) = graph_get g' (KSymbol fn).
Proof.
  intros Hv.
  destruct (flatten_in_order_total (JsSet.of_list (JsMap.keys g)) g) as [g' Hg'].
  exists g'. split; [done|]. by eapply flatten_dependency_follows.
Qed.

(** ** [addDependency]: repeated and successive calls *)

Lemma jsset_add_add (i : Item) s : JsSet.add i (JsSet.add i s) = JsSet.add i s.
Proof.
  unfold JsSet.add at 1.
  rewrite (proj2 (jsset_has_true i (JsSet.add i s))); [done|].
  apply jsset_elem_of_add. by left.
Qed.

(** X7: [addDependency] is idempotent: the same call made twice leaves
    the graph as the first call left it. *)
Theorem addDependency_idempotent
    (this : TopLevelSymbol) (dep : DepArg) (g : InnerGraph) :
  addDependency this dep (addDependency this dep g) = addDependency this dep g.
Proof.
  destruct dep as [|d].
  - unfold addDependency. apply jsmap_set_id. apply jsmap_get_set_eq.
  - destruct (graph_get g (KSymbol this)) as [| |items] eqn:Hinfo.
    + assert (addDependency this (ArgItem d) g
              = JsMap.set (KSymbol this) (VSet [d]) g) as ->
        by (unfold addDependency; by rewrite Hinfo, of_list_singleton).
      unfold addDependency. rewrite graph_get_set_eq.
      assert (JsSet.add d [d] = [d]) as ->.
      { unfold JsSet.add. rewrite (proj2 (jsset_has_true d [d])); [done | by left]. }
      apply jsmap_set_id. apply jsmap_get_set_eq.
    + assert (addDependency this (ArgItem d) g = g) as ->
        by (unfold addDependency; by rewrite Hinfo).
      unfold addDependency. by rewrite Hinfo.
    + assert (addDependency this (ArgItem d) g
              = JsMap.set (KSymbol this) (VSet (JsSet.add d items)) g) as ->
        by (unfold addDependency; by rewrite Hinfo).
      unfold addDependency. rewrite graph_get_set_eq, jsset_add_add.
      apply jsmap_set_id. apply jsmap_get_set_eq.
Qed.

Lemma addDependency_records this t g :
  graph_get (addDependency this (ArgItem t) g) (KSymbol this) = VTrue
  ∨ value_has (graph_get (addDependency this (ArgItem t) g) (KSymbol this)) t.
Proof.
  unfold addDependency.
  destruct (graph_get g (KSymbol this)) as [| |items] eqn:Hinfo.
  - right. rewrite graph_get_set_eq, of_list_singleton. by left.
  - by left.
  - right. rewrite graph_get_set_eq. simpl. apply jsset_elem_of_add. by left.
Qed.

(** X8: [addDependency] only grows the value of its own symbol: every
    other key keeps its value, every member the symbol's set had is
    still a member unless the value has become always-used, and the
    target of the call is recorded in the same sense. *)
Theorem addDependency_grows
    (this : TopLevelSymbol) (dep : DepArg) (g : InnerGraph) :
  (∀ k, k ≠ KSymbol this →
     graph_get (addDependency this dep g) k = graph_get g k)
  ∧ (∀ i, value_has (graph_get g (KSymbol this)) i →
       graph_get (addDependency this dep g) (KSymbol this) = VTrue
       ∨ value_has (graph_get (addDependency this dep g) (KSymbol this)) i)
  ∧ match dep with
    | ArgTrue => graph_get (addDependency this dep g) (KSymbol this) = VTrue
    | ArgItem t =>
        graph_get (addDependency this dep g) (KSymbol this) = VTrue
        ∨ value_has (graph_get (addDependency this dep g) (KSymbol this)) t
    end.
Proof.
  split_and!.
  - intros k Hk. by apply addDependency_other.
  - intros i Hi. unfold addDependency.
    destruct dep as [|d]; [left; apply graph_get_set_eq|].
    destruct (graph_get g (KSymbol this)) as [| |items] eqn:Hinfo; [done..|].
    right. rewrite graph_get_set_eq. simpl. apply jsset_elem_of_add. by right.
  - destruct dep as [|d]; [apply graph_get_set_eq|].
    apply addDependency_records.
Qed.

(** ** The pragma *)

(** X9: the test of line 223 accepts exactly the comment texts made of
    white space, one of [#] and [@], the eight characters [__PURE__],
    and white space; nothing may stand before the marker or after the
    name but white space. *)
Theorem pure_pragma_language (value : list N) :
  pure_regexp_test value = true
  ↔ ∃ before marker after,
      value = before ++ marker :: PURE ++ after
      ∧ forallb is_whitespace before = true
      ∧ is_pure_marker marker = true
      ∧ forallb is_whitespace after = true.
Proof. apply pure_regexp_test_spec. Qed.

(** ** The hooks outside the top-level scope *)

(** X10: inside a function or an arrow function, where
    [parser.scope.topLevelScope] is not [true], the hooks that register
    and enter declarations do nothing: they return [undefined] and leave
    the parser as it was. *)
Theorem nested_scope_untracked
    (getComments : Range → list Comment) (st : ParserState) :
  topLevelScope st ≠ ScopeTrue →
  (∀ stmt, preStatement stmt st = Some (undefined, st))
  ∧ (∀ stmt, blockPreStatement stmt st = Some (undefined, st))
  ∧ (∀ decl, preDeclarator getComments decl st = Some (undefined, st))
  ∧ (∀ stmt, statement stmt st = Some (undefined, st)).
Proof.
  intros Hscope. split_and!; intros x.
  - unfold preStatement. hook_unfold. by destruct (topLevelScope st).
  - unfold blockPreStatement. hook_unfold. by destruct (topLevelScope st).
  - unfold preDeclarator. hook_unfold. by destruct (topLevelScope st).
  - unfold statement. hook_unfold. by destruct (topLevelScope st).
Qed.

(** ** What [preDeclarator] does with an initializer *)

Lemma preDeclarator_pure gc decl range id init st :
  topLevelScope st = ScopeTrue →
  decl_id decl = IdentifierPattern range id →
  decl_init decl = Some init →
  is_function_like init = false →
  pure_condition gc (decl_id decl) init = true →
  ∃ fn st0,
    tagVar id st = Some (fn, st0)
    ∧ preDeclarator gc decl st
      = Some (true,
              set_pureDeclarators (JsSet.add decl (pureDeclarators st0))
                (set_declWithTopLevelSymbol
                   (JsMap.set decl fn (declWithTopLevelSymbol st0)) st0)).
Proof.
  intros Hscope Hid Hinit Hfun Hpure.
  destruct (tagVar_ok id st) as (fn & st0 & Etag & _).
  exists fn, st0. split; [done|].
  unfold preDeclarator. hook_unfold. rewrite Hscope, Hinit, Hid.
  rewrite Hid in Hpure. rewrite Hpure.
  destruct init; try done; simpl; by rewrite Etag.
Qed.

(** X11: an initializer of pure shape (identifiers, literals and
    conditionals of these) makes its top-level declarator a pure one
    whatever the comments and the distance to the identifier are: the
    declarator is stored with the symbol of its name and marked pure. *)
Theorem pure_shape_declarator
    (getComments : Range → list Comment) (decl : VariableDeclarator)
    (range : Range) (id : string) (init : Expression) (st : ParserState) :
  topLevelScope st = ScopeTrue →
  decl_id decl = IdentifierPattern range id →
  decl_init decl = Some init →
  isPure init = true →
  ∃ fn st1,
    preDeclarator getComments decl st = Some (true, st1)
    ∧ JsMap.get decl (declWithTopLevelSymbol st1) = Some fn
    ∧ definitions st1 !! id = Some (Some fn)
    ∧ decl ∈ pureDeclarators st1.
Proof.
  intros Hscope Hid Hinit Hpure.
  destruct (preDeclarator_pure getComments decl range id init st)
    as (fn & st0 & Etag & ->); try done.
  - by apply isPure_not_function_like.
  - unfold pure_condition. rewrite Hpure. apply orb_true_r.
  - destruct (tagVar_binds id st) as (fn' & st0' & Etag' & Hbound).
    assert (fn' = fn ∧ st0' = st0) as [-> ->] by (split; congruence).
    eexists fn, _. split_and!; [done|..]; simpl.
    + apply jsmap_get_set_eq.
    + done.
    + apply jsset_elem_of_add. by left.
Qed.

(** X12: the plugin is conservative: a top-level initializer that is
    neither a function, arrow function or class expression nor of pure
    shape, and that has no pure pragma far enough from the identifier
    (a gap of at most 9, or no matching block comment in between), is
    passed over: [preDeclarator] returns [undefined] and changes
    nothing. *)
Theorem impure_initializer_passed_over
    (getComments : Range → list Comment) (decl : VariableDeclarator)
    (init : Expression) (st : ParserState) :
  decl_init decl = Some init →
  is_function_like init = false →
  isPure init = false →
  ((expr_range init).1 - (pattern_range (decl_id decl)).2 ≤ 9)%Z
  ∨ (∀ comment,
       comment ∈ getComments
                   ((pattern_range (decl_id decl)).2, (expr_range init).1) →
       comment_type comment = Block →
       pure_regexp_test (comment_value comment) = false) →
  preDeclarator getComments decl st = Some (undefined, st).
Proof.
  intros Hinit Hfun Himpure Hno.
  assert (pure_condition getComments (decl_id decl) init = false) as Hcond.
  { unfold pure_condition. rewrite Himpure, orb_false_r.
    destruct Hno as [Hgap|Hno].
    - rewrite bool_decide_eq_false_2; [done | lia].
    - apply andb_false_intro2. apply not_true_is_false.
      intros (c & Hc & Hp)%existsb_exists. apply list_elem_of_In in Hc.
      unfold is_pure_comment in Hp. apply andb_prop in Hp as [Hb Hre].
      apply bool_decide_eq_true in Hb. rewrite (Hno c Hc Hb) in Hre. done. }
  unfold preDeclarator. hook_unfold. rewrite Hinit.
  destruct (topLevelScope st); [|done..].
  destruct (decl_id decl) as [r n| |] eqn:Hid; [|done..].
  rewrite Hcond. by destruct init.
Qed.

(** X13: a function, arrow function or class expression is registered
    under the name of its declarator but never as a pure declarator,
    pragma or not: the declarator hook then makes no dependency for it;
    it sets the current symbol, walks the initializer and clears the
    current symbol, from a state with the same graph, module
    dependencies and pending set. *)
Theorem function_initializer_no_dependency
    (getComments : Range → list Comment)
    (walkExpression : Expression → Hook unit)
    (decl : VariableDeclarator) (range : Range) (id : string)
    (init : Expression) (st : ParserState) :
  topLevelScope st = ScopeTrue →
  decl_id decl = IdentifierPattern range id →
  decl_init decl = Some init →
  is_function_like init = true →
  decl ∉ pureDeclarators st →
  ∃ fn st1,
    preDeclarator getComments decl st = Some (true, st1)
    ∧ JsMap.get decl (declWithTopLevelSymbol st1) = Some fn
    ∧ definitions st1 !! id = Some (Some fn)
    ∧ pureDeclarators st1 = pureDeclarators st
    ∧ harmonyInnerGraph st1 = harmonyInnerGraph st
    ∧ harmonyAllExportDependentDependencies st1
      = harmonyAllExportDependentDependencies st
    ∧ module_dependencies st1 = module_dependencies st
    ∧ declarator walkExpression decl st1
      = (modify (set_currentTopLevelSymbol (Some fn)) ;;
         walkExpression init ;;
         modify (set_currentTopLevelSymbol None) ;;
         mret true) st1.
Proof.
  intros Hscope Hid Hinit Hfun Hnot.
  destruct (tagVar_ok id st) as (fn & st0 & Etag & _ & Eg & Ep & Ed & Epd).
  destruct (tagVar_binds id st) as (fn' & st0' & Etag' & Hbound).
  assert (fn' = fn ∧ st0' = st0) as [-> ->] by (split; congruence).
  assert (module_dependencies st0 = module_dependencies st) as Em.
  { clear -Etag. unfold tagVar, defineVariable, getTagData, new_TopLevelSymbol,
      tagVariable in Etag. hook_unfold.
    destruct (definitions st !! id) as [[f|]|] eqn:Hdef; simpl in Etag.
    - rewrite Hdef in Etag. simpl in Etag. by injection Etag as _ <-.
    - rewrite Hdef in Etag. simpl in Etag. by injection Etag as _ <-.
    - rewrite lookup_insert_eq in Etag. simpl in Etag. by injection Etag as _ <-. }
  set (st1 := set_declWithTopLevelSymbol
                (JsMap.set decl fn (declWithTopLevelSymbol st0)) st0).
  assert (preDeclarator getComments decl st = Some (true, st1)) as Hpre.
  { unfold preDeclarator. hook_unfold. rewrite Hscope, Hinit, Hid.
    destruct init; try done; simpl; by rewrite Etag. }
  exists fn, st1. split_and!; try done.
  - apply jsmap_get_set_eq.
  - unfold declarator. hook_unfold. subst st1. cbn.
    rewrite jsmap_get_set_eq, Hinit.
    change (pureDeclarators (set_declWithTopLevelSymbol _ st0))
      with (pureDeclarators st0).
    rewrite Epd.
    by rewrite (proj2 (jsset_has_false decl (pureDeclarators st)) Hnot).
Qed.

(** ** Entering a declaration *)

Lemma register_statement_run stmt id st :
  register_statement stmt id st
  = Some (tt,
          set_statementWithTopLevelSymbol
            (JsMap.set stmt {| sym_id := next_id st; name := id |}
               (statementWithTopLevelSymbol st))
            (set_definitions
               (<[id := Some {| sym_id := next_id st; name := id |}]>
                  (match definitions st !! id with
                   | Some _ => definitions st
                   | None => <[id := None]> (definitions st)
                   end))
               (set_next_id (S (next_id st)) st))).
Proof.
  unfold register_statement, defineVariable, new_TopLevelSymbol, tagVariable.
  hook_unfold. by destruct (definitions st !! id).
Qed.

Lemma statement_enters stmt fn st :
  topLevelScope st = ScopeTrue →
  JsMap.get stmt (statementWithTopLevelSymbol st) = Some fn →
  statement stmt st
  = Some (undefined,
          set_currentTopLevelSymbol (Some fn)
            (set_currentTopLevelSymbol None st)).
Proof.
  intros Hscope Hget. unfold statement. hook_unfold.
  rewrite Hscope. cbn. by rewrite Hget.
Qed.

(** Registering a statement, entering it, and a reference in it. *)
Lemma registered_body_attributed stmt id x st g :
  topLevelScope st = ScopeTrue →
  harmonyInnerGraph st = Some g →
  ∃ fn st1 st2 st3,
    name fn = id
    ∧ register_statement stmt id st = Some (tt, st1)
    ∧ statement stmt st1 = Some (undefined, st2)
    ∧ expression x st2 = Some (undefined, st3)
    ∧ definitions st3 !! id = Some (Some fn)
    ∧ currentTopLevelSymbol st3 = Some fn
    ∧ harmonyInnerGraph st3 = Some (addDependency x (ArgItem (ISymbol fn)) g).
Proof.
  intros Hscope Hg.
  eexists {| sym_id := next_id st; name := id |}, _, _, _.
  split; [done|]. split; [apply register_statement_run|].
  split; [apply statement_enters; [done | apply jsmap_get_set_eq]|].
  split; [by apply (expression_run x _ g)|].
  split_and!; [apply lookup_insert_eq | done..].
Qed.

(** X14: a reference inside a top-level function or class declaration
    is attributed to that declaration: once the pre-hook has registered
    the statement, the statement hook makes its symbol, the one bound to
    the declared name (or to [*default*] without a name), the current
    symbol, and the expression hook adds that symbol to the set of the
    referenced one. *)
Theorem declaration_body_attributed
    (getComments : Range → list Comment) (range : Range) (id : option string)
    (x : TopLevelSymbol) (st : ParserState) (g : InnerGraph) :
  topLevelScope st = ScopeTrue →
  harmonyInnerGraph st = Some g →
  (∃ fn st',
     name fn = name_or_default id
     ∧ run_events getComments
         [ EvPreStatement (FunctionDeclaration range id);
           EvStatement (FunctionDeclaration range id); EvExpression x ] st
       = Some (tt, st')
     ∧ definitions st' !! name_or_default id = Some (Some fn)
     ∧ currentTopLevelSymbol st' = Some fn
     ∧ harmonyInnerGraph st'
       = Some (addDependency x (ArgItem (ISymbol fn)) g))
  ∧ (∃ fn st',
       name fn = name_or_default id
       ∧ run_events getComments
           [ EvBlockPreStatement (ClassDeclaration range id);
             EvStatement (ClassDeclaration range id); EvExpression x ] st
         = Some (tt, st')
       ∧ definitions st' !! name_or_default id = Some (Some fn)
       ∧ currentTopLevelSymbol st' = Some fn
       ∧ harmonyInnerGraph st'
         = Some (addDependency x (ArgItem (ISymbol fn)) g)).
Proof.
  intros Hscope Hg. split.
  - destruct (registered_body_attributed (FunctionDeclaration range id)
                (name_or_default id) x st g Hscope Hg)
      as (fn & st1 & st2 & st3 & Hn & E1 & E2 & E3 & Hd & Hc & Hgr).
    exists fn, st3. split_and!; try done.
    cbn [run_events run_event]. unfold preStatement. hook_unfold.
    rewrite Hscope, E1, E2, E3. done.
  - destruct (registered_body_attributed (ClassDeclaration range id)
                (name_or_default id) x st g Hscope Hg)
      as (fn & st1 & st2 & st3 & Hn & E1 & E2 & E3 & Hd & Hc & Hgr).
    exists fn, st3. split_and!; try done.
    cbn [run_events run_event]. unfold blockPreStatement. hook_unfold.
    rewrite Hscope, E1, E2, E3. done.
Qed.

Lemma addDependency_value this t g :
  graph_get (addDependency this (ArgItem t) g) (KSymbol this)
  = match graph_get g (KSymbol this) with
    | VUndefined => VSet [t]
    | VTrue => VTrue
    | VSet items => VSet (JsSet.add t items)
    end.
Proof.
  unfold addDependency.
  destruct (graph_get g (KSymbol this)) as [| |items] eqn:Hinfo.
  - by rewrite graph_get_set_eq, of_list_singleton.
  - done.
  - by rewrite graph_get_set_eq.
Qed.

(** X15: a reference inside the initializer of a tracked declarator is
    attributed to the declarator's own symbol, a reference to itself
    included, and the current symbol is cleared when the hook returns:
    the graph is the one [addDependency] gives for the referenced symbol
    and the declarator's symbol, on the graph with the dependency of the
    declarator when it is a pure one; the referenced symbol stays
    always-used if it was, and otherwise its set is its former set with
    the declarator's symbol added. *)
Theorem initializer_reference_attributed
    (decl : VariableDeclarator) (fn x : TopLevelSymbol)
    (init : Expression) (st : ParserState) (g : InnerGraph) :
  JsMap.get decl (declWithTopLevelSymbol st) = Some fn →
  decl_init decl = Some init →
  harmonyInnerGraph st = Some g →
  ∃ st',
    declarator (λ _, expression x ≫= λ _, mret tt) decl st = Some (true, st')
    ∧ currentTopLevelSymbol st' = None
    ∧ harmonyInnerGraph st'
      = Some (addDependency x (ArgItem (ISymbol fn))
                (if JsSet.has decl (pureDeclarators st)
                 then JsMap.set
                        (KDependency
                           {| dep_id := next_id st;
                              dep_range := expr_range init;
                              dep_loc := decl_loc decl |})
                        (VSet [ISymbol fn]) g
                 else g))
    ∧ graph_value st' (KSymbol x)
      = match graph_get g (KSymbol x) with
        | VUndefined => VSet [ISymbol fn]
        | VTrue => VTrue
        | VSet items => VSet (JsSet.add (ISymbol fn) items)
        end.
Proof.
  intros Hfn Hinit Hg.
  set (g1 := if JsSet.has decl (pureDeclarators st)
             then JsMap.set
                    (KDependency
                       {| dep_id := next_id st;
                          dep_range := expr_range init;
                          dep_loc := decl_loc decl |})
                    (VSet [ISymbol fn]) g
             else g).
  assert (graph_get g1 (KSymbol x) = graph_get g (KSymbol x)) as Hsame.
  { unfold g1. destruct (JsSet.has decl (pureDeclarators st)); [|done].
    by rewrite graph_get_set_ne. }
  assert (∃ st',
            declarator (λ _, expression x ≫= λ _, mret tt) decl st
            = Some (true, st')
            ∧ currentTopLevelSymbol st' = None
            ∧ harmonyInnerGraph st'
              = Some (addDependency x (ArgItem (ISymbol fn)) g1))
    as (st' & Hrun & Hcur & Hgraph).
  { unfold g1, declarator, expression. hook_unfold. rewrite Hfn, Hinit.
    destruct (JsSet.has decl (pureDeclarators st)).
    - unfold add_pure_dependency, new_PureExpressionDependency. hook_unfold.
      cbn. rewrite Hg. cbn. by eexists.
    - cbn. rewrite Hg. cbn. by eexists. }
  exists st'. split_and!; [done..|].
  unfold graph_value. rewrite Hgraph, addDependency_value. by rewrite Hsame.
Qed.

(** ** Running the hooks *)

(** X16: once [program] has run, no sequence of hook calls throws: from
    a state where the graph exists and every stored declarator has an
    initializer, every hook finds what it dereferences, [finish] never
    hits the bound of [expand], and the state reached is again such a
    state. *)
Theorem hooks_never_throw
    (getComments : Range → list Comment) (events : list Event)
    (st : ParserState) :
  hooks_ready st →
  ∃ st', run_events getComments events st = Some (tt, st') ∧ hooks_ready st'.
Proof.
  intros Hready.
  destruct (trace_ok getComments events st Hready) as (st' & Hrun & Hok).
  exists st'. split; [done | apply Hok].
Qed.

(** ** [finish] again, and what it publishes *)

Lemma publish_id g deps store :
  (∀ dep, dep ∈ deps →
     JsMap.get dep store = Some (decision (graph_get g (KDependency dep)))) →
  publish g deps store = store.
Proof.
  induction deps as [|d deps IH]; intros Hall; simpl; [done|].
  rewrite jsmap_set_id by (apply Hall; by left).
  apply IH. intros dep Hdep. apply Hall. by right.
Qed.

(** X17: the [finish] hook is idempotent: run a second time, it returns
    the same and leaves the flattened graph and every published decision
    as the first run left them. *)
Theorem finish_idempotent (st st' : ParserState) (r : returned) :
  finish st = Some (r, st') → finish st' = Some (r, st').
Proof.
  destruct (harmonyInnerGraph st) as [g|] eqn:Hg.
  - destruct (finish_runs st g Hg) as (g' & Hflat & ->). intros [= <- <-].
    assert (flatten g' = Some g') as Hagain
      by (apply flatten_normal_unchanged; by eapply flatten_normal).
    unfold finish. hook_unfold. cbn. rewrite Hagain.
    rewrite publish_id; [done|].
    intros dep Hdep. cbn. by rewrite publish_spec, bool_decide_eq_true_2.
  - unfold finish. hook_unfold. rewrite Hg. intros [= <- <-]. by rewrite Hg.
Qed.

(** X18: at [finish] the dependency of a pure declarator gets the
    decision of its symbol: not used when the symbol was never
    referenced, unconditionally used when the symbol is always used, and
    in general the decision read off the flattened value of the
    symbol. *)
Theorem finish_publishes_symbol_fate
    (st : ParserState) (g : InnerGraph)
    (dep : Dependency) (fn : TopLevelSymbol) :
  harmonyInnerGraph st = Some g →
  dep ∈ harmonyAllExportDependentDependencies st →
  graph_get g (KDependency dep) = VSet [ISymbol fn] →
  ∃ g' st',
    flatten g = Some g'
    ∧ finish st = Some (undefined, st')
    ∧ JsMap.get dep (usedByExports st')
      = Some (decision (graph_get g' (KSymbol fn)))
    ∧ (graph_get g (KSymbol fn) = VUndefined →
       JsMap.get dep (usedByExports st') = Some UsedFalse)
    ∧ (graph_get g (KSymbol fn) = VTrue →
       JsMap.get dep (usedByExports st') = Some UsedTrue).
Proof.
  intros Hg Hdep Hv.
  destruct (finish_runs st g Hg) as (g' & Hflat & Hfin).
  pose proof (flatten_dependency_follows dep fn g g' Hv Hflat) as Hsame.
  assert (JsMap.get dep
            (publish g' (harmonyAllExportDependentDependencies st)
               (usedByExports st))
          = Some (decision (graph_get g' (KSymbol fn)))) as Hpub.
  { by rewrite publish_spec, bool_decide_eq_true_2, Hsame. }
  eexists g', _. split_and!; [done | exact Hfin | exact Hpub | |].
  - intros Hu. cbn. rewrite Hpub.
    destruct (flatten_unused g (KSymbol fn)) as (g'' & Hflat' & Hun).
    + intros [?|(c & Hc & _)]%uses_always_inv; [congruence|].
      by rewrite Hu in Hc.
    + intros s [Hs|(c & Hc & _)]%uses_export_inv; by rewrite Hu in *.
    + assert (g'' = g') as -> by congruence. by rewrite Hun.
  - intros Ht. cbn. rewrite Hpub.
    by rewrite (flatten_in_order_true_stays _ _ _ _ Hflat Ht).
Qed.

(** ** The dependencies of the module and the pending set *)

Lemma jsmap_keys_set_mono (k k' : Key) (v : Value) (m : InnerGraph) :
  k ∈ JsMap.keys m → k ∈ JsMap.keys (JsMap.set k' v m).
Proof.
  unfold JsMap.keys. induction m as [|[k0 v0] m IH]; simpl.
  - by intros ?%elem_of_nil.
  - destruct (decide (k0 = k')) as [->|Hne]; [done|]. simpl.
    intros [->|Hk]%elem_of_cons; [by left | right; by apply IH].
Qed.

Lemma jsmap_keys_set_new (k : Key) (v : Value) (m : InnerGraph) :
  k ∈ JsMap.keys (JsMap.set k v m).
Proof.
  apply dec_stable. intros Hno. apply jsmap_get_None in Hno.
  by rewrite jsmap_get_set_eq in Hno.
Qed.

Lemma addDependency_keys this dep g k :
  k ∈ JsMap.keys g → k ∈ JsMap.keys (addDependency this dep g).
Proof.
  intros Hk. unfold addDependency. destruct dep as [|d].
  - by apply jsmap_keys_set_mono.
  - destruct (graph_get g (KSymbol this)); [|done|];
      by apply jsmap_keys_set_mono.
Qed.

Lemma same_dependencies_refl st : same_dependencies st st.
Proof. split_and!; [done..|]. intros g Hg. by exists g. Qed.

Lemma same_dependencies_fields st st' :
  module_dependencies st' = module_dependencies st →
  harmonyAllExportDependentDependencies st'
  = harmonyAllExportDependentDependencies st →
  harmonyInnerGraph st' = harmonyInnerGraph st →
  same_dependencies st st'.
Proof.
  intros Em Ep Eg. split_and!; [done..|]. intros g Hg. exists g.
  split; [congruence | done].
Qed.

Lemma dependencies_tracked_same st st' :
  dependencies_tracked st → same_dependencies st st' →
  dependencies_tracked st'.
Proof.
  intros [Hiff Hkeys] (Em & Ep & Eg). split.
  - intros dep. by rewrite Em, Ep.
  - intros dep Hdep. rewrite Ep in Hdep.
    destruct (Hkeys dep Hdep) as (g & Hg & Hk).
    destruct (Eg g Hg) as (g' & Hg' & Hsub). exists g'. auto.
Qed.

Lemma tagVar_same id st fn st' :
  tagVar id st = Some (fn, st') → same_dependencies st st'.
Proof.
  unfold tagVar, defineVariable, getTagData, new_TopLevelSymbol, tagVariable.
  hook_unfold.
  destruct (definitions st !! id) as [[f|]|] eqn:Hdef; cbn.
  - rewrite Hdef. cbn. intros [= _ <-]. apply same_dependencies_refl.
  - rewrite Hdef. cbn. intros [= _ <-]. by apply same_dependencies_fields.
  - rewrite lookup_insert_eq. cbn. intros [= _ <-].
    by apply same_dependencies_fields.
Qed.

Lemma preStatement_same stmt st r st' :
  preStatement stmt st = Some (r, st') → same_dependencies st st'.
Proof.
  unfold preStatement. hook_unfold.
  destruct (topLevelScope st), stmt;
    try (intros [= _ <-]; apply same_dependencies_refl).
  rewrite register_statement_run. intros [= _ <-].
  by apply same_dependencies_fields.
Qed.

Lemma blockPreStatement_same stmt st r st' :
  blockPreStatement stmt st = Some (r, st') → same_dependencies st st'.
Proof.
  unfold blockPreStatement. hook_unfold.
  destruct (topLevelScope st), stmt as [| |range [[]| |]| | |];
    try (intros [= _ <-]; apply same_dependencies_refl);
    rewrite register_statement_run; intros [= _ <-];
    by apply same_dependencies_fields.
Qed.

Lemma preDeclarator_same gc decl st r st' :
  preDeclarator gc decl st = Some (r, st') → same_dependencies st st'.
Proof.
  unfold preDeclarator. hook_unfold.
  destruct (topLevelScope st);
    try (intros [= _ <-]; apply same_dependencies_refl).
  destruct (decl_init decl) as [init|];
    [|intros [= _ <-]; apply same_dependencies_refl].
  destruct (decl_id decl) as [range id| |];
    try (intros [= _ <-]; apply same_dependencies_refl).
  assert (∀ (k : TopLevelSymbol → Hook returned),
            (∀ fn s r s', k fn s = Some (r, s') → same_dependencies s s') →
            match tagVar id st with
            | Some (x, s) => k x s
            | None => None
            end = Some (r, st') → same_dependencies st st') as Htag.
  { intros k Hk. destruct (tagVar id st) as [[fn s]|] eqn:Etag; [|done].
    apply tagVar_same in Etag. intros Hrun%Hk.
    destruct Etag as (Em & Ep & Eg), Hrun as (Em' & Ep' & Eg').
    split_and!; [congruence..|]. intros g Hg.
    destruct (Eg g Hg) as (g1 & Hg1 & H1). destruct (Eg' g1 Hg1) as (g2 & Hg2 & H2).
    exists g2. auto. }
  destruct init; cbn;
    try (destruct (pure_condition gc _ _);
         [|intros [= _ <-]; apply same_dependencies_refl]);
    apply Htag; intros fn s r0 s' [= _ <-]; by apply same_dependencies_fields.
Qed.

Lemma statement_same stmt st r st' :
  statement stmt st = Some (r, st') → same_dependencies st st'.
Proof.
  unfold statement. hook_unfold.
  destruct (topLevelScope st);
    try (intros [= _ <-]; apply same_dependencies_refl).
  cbn. destruct (JsMap.get stmt (statementWithTopLevelSymbol st));
    intros [= _ <-]; by apply same_dependencies_fields.
Qed.

Lemma expression_same x st r st' :
  expression x st = Some (r, st') → same_dependencies st st'.
Proof.
  unfold expression. hook_unfold.
  destruct (harmonyInnerGraph st) as [g|] eqn:Hg; [|done].
  intros [= _ <-]. split_and!; [done..|]. intros g0 Hg0.
  assert (g0 = g) by congruence. subst g0.
  eexists. split; [done|]. intros k. apply addDependency_keys.
Qed.

Lemma finish_same st r st' :
  finish st = Some (r, st') → same_dependencies st st'.
Proof.
  destruct (harmonyInnerGraph st) as [g|] eqn:Hg.
  - destruct (finish_runs st g Hg) as (g' & Hflat & ->). intros [= _ <-].
    split_and!; [done..|]. intros g0 Hg0. exists g'. split; [done|].
    assert (g0 = g) by congruence. subst g0.
    intros k. by rewrite (flatten_in_order_keys _ _ _ Hflat).
  - unfold finish. hook_unfold. rewrite Hg. intros [= _ <-].
    apply same_dependencies_refl.
Qed.

Lemma add_pure_dependency_tracked init loc fn st st' :
  dependencies_tracked st →
  add_pure_dependency init loc fn st = Some (tt, st') →
  dependencies_tracked st'.
Proof.
  intros [Hiff Hkeys]. unfold add_pure_dependency, new_PureExpressionDependency.
  hook_unfold. cbn. destruct (harmonyInnerGraph st) as [g|] eqn:Hg; [|done].
  cbn. intros [= <-]. split; cbn.
  - intros dep. rewrite elem_of_app, list_elem_of_singleton, jsset_elem_of_add.
    rewrite Hiff. tauto.
  - intros dep [->|Hdep]%jsset_elem_of_add; eexists; (split; [done|]).
    + apply jsmap_keys_set_new.
    + destruct (Hkeys dep Hdep) as (g0 & Hg0 & Hk).
      assert (g0 = g) by congruence. subst g0. by apply jsmap_keys_set_mono.
Qed.

Lemma declarator_tracked walk decl st r st' :
  (∀ init s s', dependencies_tracked s → walk init s = Some (tt, s') →
     dependencies_tracked s') →
  dependencies_tracked st →
  declarator walk decl st = Some (r, st') →
  dependencies_tracked st'.
Proof.
  intros Hwalk Htr. unfold declarator. hook_unfold.
  destruct (JsMap.get decl (declWithTopLevelSymbol st)) as [fn|];
    [|by intros [= _ <-]].
  destruct (decl_init decl) as [init|]; [|done].
  destruct ((if JsSet.has decl (pureDeclarators st)
             then add_pure_dependency init (decl_loc decl) fn
             else λ s, Some (tt, s)) st) as [[[] st1]|] eqn:E1; [|done].
  assert (dependencies_tracked st1) as Htr1.
  { destruct (JsSet.has decl (pureDeclarators st)).
    - by eapply add_pure_dependency_tracked.
    - by injection E1 as <-. }
  destruct (walk init (set_currentTopLevelSymbol (Some fn) st1))
    as [[[] st2]|] eqn:E2; [|done].
  intros [= _ <-].
  apply Hwalk in E2.
  - eapply dependencies_tracked_same; [exact E2|].
    by apply same_dependencies_fields.
  - eapply dependencies_tracked_same; [exact Htr1|].
    by apply same_dependencies_fields.
Qed.

Lemma run_events_tracked gc events :
  Forall (λ e, ∀ st st', dependencies_tracked st →
                 run_event gc e st = Some (tt, st') →
                 dependencies_tracked st') events →
  ∀ st st', dependencies_tracked st →
    run_events gc events st = Some (tt, st') → dependencies_tracked st'.
Proof.
  induction 1 as [|e events He _ IH]; intros st st' Htr; cbn.
  - by intros [= <-].
  - hook_unfold. destruct (run_event gc e st) as [[[] s1]|] eqn:E1; [|done].
    apply IH. by eapply He.
Qed.

Lemma run_event_tracked gc e st st' :
  dependencies_tracked st →
  run_event gc e st = Some (tt, st') →
  dependencies_tracked st'.
Proof.
  revert st st'.
  induction e as [|s|s|d|s|d walk IH|sym|op|sc] using Event_nested_ind;
    intros st st' Htr; cbn [run_event]; hook_unfold.
  - destruct (finish st) as [[r s1]|] eqn:E; [|done]. intros [= <-].
    eapply dependencies_tracked_same; [done | by eapply finish_same].
  - destruct (preStatement s st) as [[r s1]|] eqn:E; [|done]. intros [= <-].
    eapply dependencies_tracked_same; [done | by eapply preStatement_same].
  - destruct (blockPreStatement s st) as [[r s1]|] eqn:E; [|done].
    intros [= <-].
    eapply dependencies_tracked_same; [done | by eapply blockPreStatement_same].
  - destruct (preDeclarator gc d st) as [[r s1]|] eqn:E; [|done]. intros [= <-].
    eapply dependencies_tracked_same; [done | by eapply preDeclarator_same].
  - destruct (statement s st) as [[r s1]|] eqn:E; [|done]. intros [= <-].
    eapply dependencies_tracked_same; [done | by eapply statement_same].
  - change (match declarator (λ _, run_events gc walk) d st with
            | Some (_, s1) => Some (tt, s1)
            | None => None
            end = Some (tt, st') → dependencies_tracked st').
    destruct (declarator _ d st) as [[r s1]|] eqn:E; [|done]. intros [= <-].
    eapply declarator_tracked; [|done|exact E].
    intros init s0 s0'. cbn beta. by apply run_events_tracked.
  - destruct (expression sym st) as [[r s1]|] eqn:E; [|done]. intros [= <-].
    eapply dependencies_tracked_same; [done | by eapply expression_same].
  - unfold assign. hook_unfold. destruct (bool_decide _); by intros [= <-].
  - intros [= <-]. eapply dependencies_tracked_same; [done|].
    by apply same_dependencies_fields.
Qed.

Lemma trace_tracked gc events st st' :
  dependencies_tracked st →
  run_events gc events st = Some (tt, st') →
  dependencies_tracked st'.
Proof.
  apply run_events_tracked. apply Forall_forall. intros e _ s s'.
  apply run_event_tracked.
Qed.

Lemma run_events_snoc gc events e st :
  run_events gc (events ++ [e]) st
  = match run_events gc events st with
    | Some (_, st1) => run_event gc e st1
    | None => None
    end.
Proof.
  revert st. induction events as [|e0 events IH]; intros st; cbn.
  - hook_unfold. by destruct (run_event gc e st) as [[[] s]|].
  - hook_unfold. destruct (run_event gc e0 st) as [[[] s]|]; [apply IH | done].
Qed.

(** X19: whatever hooks were called, once [finish] has run every
    dependency the plugin added to the module has its decision: the
    dependencies added to the module stay the members of the pending
    set, each with an entry in the graph, and [finish] writes for each
    the decision of its flattened value. *)
Theorem every_dependency_decided
    (getComments : Range → list Comment) (events : list Event)
    (st : ParserState) :
  hooks_ready st →
  dependencies_tracked st →
  ∃ g' st',
    run_events getComments (events ++ [EvFinish]) st = Some (tt, st')
    ∧ harmonyInnerGraph st' = Some g'
    ∧ dependencies_tracked st'
    ∧ ∀ dep, dep ∈ module_dependencies st' →
        KDependency dep ∈ JsMap.keys g'
        ∧ JsMap.get dep (usedByExports st')
          = Some (decision (graph_get g' (KDependency dep))).
Proof.
  intros Hready Htr.
  destruct (trace_ok getComments events st Hready) as (st1 & Hrun & Hok).
  pose proof (trace_tracked _ _ _ _ Htr Hrun) as Htr1.
  destruct (step_ready _ _ Hok) as [[g Hg] _].
  destruct (finish_runs st1 g Hg) as (g' & Hflat & Hfin).
  assert (dependencies_tracked
            (set_usedByExports
               (publish g' (harmonyAllExportDependentDependencies st1)
                  (usedByExports st1))
               (set_harmonyInnerGraph (Some g') st1))) as Htr2.
  { eapply dependencies_tracked_same; [exact Htr1 | by eapply finish_same]. }
  eexists g', _. split_and!.
  - rewrite run_events_snoc, Hrun. cbn [run_event]. hook_unfold.
    by rewrite Hfin.
  - done.
  - exact Htr2.
  - intros dep Hdep. cbn in Hdep. apply Htr1 in Hdep. split.
    + destruct Htr2 as [_ Hkeys]. destruct (Hkeys dep Hdep) as (g0 & [= <-] & ?).
      done.
    + cbn. by rewrite publish_spec, bool_decide_eq_true_2.
Qed.

(** ** The further properties on the samples *)

Section more_samples.
Import Samples MoreSamples PragmaSamples.

Lemma flatten_idempotent_witness :
  flatten cyclic = Some cyclic_flat ∧ flatten cyclic_flat = Some cyclic_flat.
Proof.
  assert (flatten cyclic = Some cyclic_flat) as H by reflexivity.
  split; [exact H | exact (flatten_idempotent cyclic cyclic_flat H)].
Defined.

Lemma flatten_keeps_keys_witness :
  flatten_in_order [KSymbol b; KSymbol a; KSymbol c] cyclic
  = Some [ (KSymbol a, VUndefined); (KSymbol b, VSet [IString "x"]);
           (KSymbol c, VSet [IString "x"]) ]
  ∧ JsMap.keys [ (KSymbol a, VUndefined); (KSymbol b, VSet [IString "x"]);
                 (KSymbol c, VSet [IString "x"]) ]
    = JsMap.keys cyclic.
Proof.
  assert (flatten_in_order [KSymbol b; KSymbol a; KSymbol c] cyclic
          = Some [ (KSymbol a, VUndefined); (KSymbol b, VSet [IString "x"]);
                   (KSymbol c, VSet [IString "x"]) ]) as H by reflexivity.
  split; [exact H | exact (flatten_keeps_keys _ cyclic _ H)].
Defined.

(** In [mutual] the two symbols reach each other only. *)
Lemma mutual_reach k k' :
  reach mutual k k' →
  k = KSymbol a ∨ k = KSymbol b →
  k' = KSymbol a ∨ k' = KSymbol b.
Proof.
  induction 1 as [k|k child k' He Hr IH]; [done|].
  intros [->| ->]; apply IH.
  - right. cbn in He. apply list_elem_of_singleton in He. congruence.
  - left. cbn in He. apply list_elem_of_singleton in He. congruence.
Defined.

Lemma mutual_not_always : ¬ uses_always mutual (KSymbol a).
Proof.
  intros (k' & Hr & Ht).
  destruct (mutual_reach _ _ Hr) as [->| ->]; [by left | discriminate..].
Defined.

Lemma mutual_no_export s : ¬ uses_export mutual (KSymbol a) s.
Proof.
  intros (k' & Hr & Hs).
  destruct (mutual_reach _ _ Hr) as [->| ->]; [by left |..]; cbn in Hs;
    apply list_elem_of_singleton in Hs; discriminate.
Defined.

Lemma flatten_unused_unset_witness :
  ¬ uses_always mutual (KSymbol a)
  ∧ (∀ s, ¬ uses_export mutual (KSymbol a) s)
  ∧ ∃ g', flatten mutual = Some g' ∧ graph_get g' (KSymbol a) = VUndefined.
Proof.
  split_and!; [exact mutual_not_always | exact mutual_no_export |].
  exact (flatten_unused_unset mutual (KSymbol a)
           mutual_not_always mutual_no_export).
Defined.

Lemma flatten_exact_acyclic_witness :
  acyclic chain
  ∧ ∃ g', flatten chain = Some g'
      ∧ ∀ k, (graph_get g' k = VTrue ↔ uses_always chain k)
             ∧ (∀ s, value_has (graph_get g' k) (IString s)
                     ↔ ¬ uses_always chain k ∧ uses_export chain k s).
Proof.
  split; [exact chain_acyclic | exact (flatten_exact_acyclic chain chain_acyclic)].
Defined.

Lemma dependency_shares_fate_witness :
  graph_get [ (KDependency dep_a, VSet [ISymbol a]);
              (KSymbol a, VSet [IString "bar"]) ] (KDependency dep_a)
  = VSet [ISymbol a]
  ∧ ∃ g', flatten [ (KDependency dep_a, VSet [ISymbol a]);
                    (KSymbol a, VSet [IString "bar"]) ] = Some g'
      ∧ graph_get g' (KDependency dep_a) = graph_get g' (KSymbol a).
Proof.
  split; [reflexivity|].
  apply (dependency_shares_fate _ dep_a a). reflexivity.
Defined.

Lemma nested_scope_untracked_witness :
  topLevelScope in_arrow ≠ ScopeTrue
  ∧ (∀ stmt, preStatement stmt in_arrow = Some (undefined, in_arrow))
  ∧ (∀ stmt, blockPreStatement stmt in_arrow = Some (undefined, in_arrow))
  ∧ (∀ decl, preDeclarator comments_with_pragma decl in_arrow
             = Some (undefined, in_arrow))
  ∧ (∀ stmt, statement stmt in_arrow = Some (undefined, in_arrow)).
Proof.
  assert (topLevelScope in_arrow ≠ ScopeTrue) as H by discriminate.
  split; [exact H | exact (nested_scope_untracked comments_with_pragma in_arrow H)].
Defined.

Lemma pure_shape_declarator_witness :
  topLevelScope module_start = ScopeTrue
  ∧ isPure (ConditionalExpression (10, 19)%Z
              (Identifier (10, 11)%Z "c") (Literal (14, 15)%Z)
              (Identifier (18, 19)%Z "x")) = true
  ∧ ∃ fn st1,
      preDeclarator (λ _, []) conditional module_start = Some (true, st1)
      ∧ JsMap.get conditional (declWithTopLevelSymbol st1) = Some fn
      ∧ definitions st1 !! "t" = Some (Some fn)
      ∧ conditional ∈ pureDeclarators st1.
Proof.
  split_and!; [reflexivity | reflexivity |].
  exact (pure_shape_declarator (λ _, []) conditional (6, 7)%Z "t" _ module_start
           eq_refl eq_refl eq_refl eq_refl).
Defined.

Lemma impure_initializer_passed_over_witness :
  decl_init near_call = Some (CallExpression (16, 25)%Z)
  ∧ is_function_like (CallExpression (16, 25)%Z) = false
  ∧ isPure (CallExpression (16, 25)%Z) = false
  ∧ (16 - 7 ≤ 9)%Z
  ∧ preDeclarator comments_with_pragma near_call module_start
    = Some (undefined, module_start).
Proof.
  assert (16 - 7 ≤ 9)%Z as Hgap by lia.
  split_and!; [reflexivity | reflexivity | reflexivity | exact Hgap |].
  exact (impure_initializer_passed_over comments_with_pragma near_call
           (CallExpression (16, 25)%Z) module_start eq_refl eq_refl eq_refl
           (or_introl Hgap)).
Defined.

Lemma function_initializer_no_dependency_witness :
  topLevelScope module_start = ScopeTrue
  ∧ is_function_like (FunctionExpression (24, 38)%Z) = true
  ∧ (pragma_function ∉ pureDeclarators module_start)
  ∧ ∃ fn st1,
      preDeclarator comments_with_pragma pragma_function module_start
      = Some (true, st1)
      ∧ JsMap.get pragma_function (declWithTopLevelSymbol st1) = Some fn
      ∧ definitions st1 !! "a" = Some (Some fn)
      ∧ pureDeclarators st1 = pureDeclarators module_start
      ∧ harmonyInnerGraph st1 = harmonyInnerGraph module_start
      ∧ harmonyAllExportDependentDependencies st1
        = harmonyAllExportDependentDependencies module_start
      ∧ module_dependencies st1 = module_dependencies module_start
      ∧ declarator no_walk pragma_function st1
        = (modify (set_currentTopLevelSymbol (Some fn)) ;;
           no_walk (FunctionExpression (24, 38)%Z) ;;
           modify (set_currentTopLevelSymbol None) ;;
           mret true) st1.
Proof.
  assert (pragma_function ∉ pureDeclarators module_start) as Hnot
    by apply not_elem_of_nil.
  split_and!; [reflexivity | reflexivity | exact Hnot |].
  exact (function_initializer_no_dependency comments_with_pragma no_walk
           pragma_function (4, 5)%Z "a" _ module_start
           eq_refl eq_refl eq_refl eq_refl Hnot).
Defined.

Lemma declaration_body_attributed_witness :
  topLevelScope module_start = ScopeTrue
  ∧ harmonyInnerGraph module_start = Some []
  ∧ ∃ fn st',
      name fn = "f"
      ∧ run_events comments_with_pragma
          [ EvPreStatement first_f; EvStatement first_f; EvExpression a ]
          module_start
        = Some (tt, st')
      ∧ definitions st' !! "f" = Some (Some fn)
      ∧ currentTopLevelSymbol st' = Some fn
      ∧ harmonyInnerGraph st'
        = Some (addDependency a (ArgItem (ISymbol fn)) []).
Proof.
  split_and!; [reflexivity | reflexivity |].
  exact (proj1 (declaration_body_attributed comments_with_pragma (0, 15)%Z
                  (Some "f") a module_start [] eq_refl eq_refl)).
Defined.

Lemma initializer_reference_attributed_witness :
  JsMap.get pragma_call
    (declWithTopLevelSymbol (state_after [EvPreDeclarator pragma_call]))
  = Some a
  ∧ harmonyInnerGraph (state_after [EvPreDeclarator pragma_call]) = Some []
  ∧ ∃ st',
      declarator (λ _, expression b ≫= λ _, mret tt) pragma_call
        (state_after [EvPreDeclarator pragma_call]) = Some (true, st')
      ∧ currentTopLevelSymbol st' = None
      ∧ harmonyInnerGraph st'
        = Some [ (KDependency
                    {| dep_id := 1; dep_range := (26, 35)%Z;
                       dep_loc := ((1, 6), (1, 35)) |},
                  VSet [ISymbol a]);
                 (KSymbol b, VSet [ISymbol a]) ]
      ∧ graph_value st' (KSymbol b) = VSet [ISymbol a].
Proof.
  split_and!; [reflexivity | reflexivity |].
  exact (initializer_reference_attributed pragma_call a b
           (CallExpression (26, 35)%Z)
           (state_after [EvPreDeclarator pragma_call]) []
           eq_refl eq_refl eq_refl).
Defined.

Lemma pragma_between_declarator_witness :
  topLevelScope module_start = ScopeTrue
  ∧ harmonyInnerGraph module_start = Some []
  ∧ is_function_like (CallExpression (22, 25)%Z) = false
  ∧ located hash_pragma_between
    ∈ getComments_in [hash_pragma_between] (5, 22)%Z
  ∧ block_comment_fits hash_pragma_between
  ∧ (5 ≤ (comment_range hash_pragma_between).1)%Z
  ∧ ((comment_range hash_pragma_between).2 ≤ 22)%Z
  ∧ ∃ fn st1 dep st2,
      preDeclarator (getComments_in [hash_pragma_between]) call_with_pragma
        module_start
      = Some (true, st1)
      ∧ JsMap.get call_with_pragma (declWithTopLevelSymbol st1) = Some fn
      ∧ call_with_pragma ∈ pureDeclarators st1
      ∧ add_pure_dependency (CallExpression (22, 25)%Z)
          (decl_loc call_with_pragma) fn st1 = Some (tt, st2)
      ∧ dep_range dep = (22, 25)%Z
      ∧ dep ∈ harmonyAllExportDependentDependencies st2
      ∧ dep ∈ module_dependencies st2
      ∧ graph_value st2 (KDependency dep) = VSet [ISymbol fn]
      ∧ declarator no_walk call_with_pragma st1
        = (modify (set_currentTopLevelSymbol (Some fn)) ;;
           no_walk (CallExpression (22, 25)%Z) ;;
           modify (set_currentTopLevelSymbol None) ;;
           mret true) st2.
Proof.
  assert (located hash_pragma_between
          ∈ getComments_in [hash_pragma_between] (5, 22)%Z) as Hc
    by (vm_compute; by left).
  assert (block_comment_fits hash_pragma_between) as Hfit by reflexivity.
  assert (5 ≤ (comment_range hash_pragma_between).1)%Z as Hafter
    by (simpl; lia).
  assert ((comment_range hash_pragma_between).2 ≤ 22)%Z as Hbefore
    by (simpl; lia).
  split_and!;
    [reflexivity | reflexivity | reflexivity | exact Hc | exact Hfit
    | exact Hafter | exact Hbefore |].
  exact (pragma_between_declarator (getComments_in [hash_pragma_between])
           no_walk call_with_pragma (4, 5)%Z "a" (CallExpression (22, 25)%Z)
           hash_pragma_between module_start []
           eq_refl eq_refl eq_refl eq_refl eq_refl Hc eq_refl eq_refl
           Hfit Hafter Hbefore).
Defined.

Lemma hooks_never_throw_witness :
  hooks_ready module_start
  ∧ ∃ st',
      run_events comments_with_pragma
        [ EvPreDeclarator pragma_call; EvStatement first_f;
          EvDeclarator pragma_call [EvExpression a]; EvExpression b; EvFinish ]
        module_start = Some (tt, st')
      ∧ hooks_ready st'.
Proof.
  split; [exact module_start_ready|].
  exact (hooks_never_throw comments_with_pragma _ module_start
           module_start_ready).
Defined.

Lemma finish_idempotent_witness :
  finish before_finish = Some (undefined, after_finish)
  ∧ finish after_finish = Some (undefined, after_finish).
Proof.
  assert (finish before_finish = Some (undefined, after_finish)) as H
    by reflexivity.
  split; [exact H | exact (finish_idempotent _ _ _ H)].
Defined.

Lemma finish_publishes_symbol_fate_witness :
  harmonyInnerGraph before_finish
  = Some [ (KDependency dep_a, VSet [ISymbol a]);
           (KSymbol a, VSet [IString "bar"]) ]
  ∧ dep_a ∈ harmonyAllExportDependentDependencies before_finish
  ∧ ∃ g' st',
      flatten [ (KDependency dep_a, VSet [ISymbol a]);
                (KSymbol a, VSet [IString "bar"]) ] = Some g'
      ∧ finish before_finish = Some (undefined, st')
      ∧ JsMap.get dep_a (usedByExports st')
        = Some (decision (graph_get g' (KSymbol a)))
      ∧ (graph_get [ (KDependency dep_a, VSet [ISymbol a]);
                     (KSymbol a, VSet [IString "bar"]) ] (KSymbol a)
         = VUndefined →
         JsMap.get dep_a (usedByExports st') = Some UsedFalse)
      ∧ (graph_get [ (KDependency dep_a, VSet [ISymbol a]);
                     (KSymbol a, VSet [IString "bar"]) ] (KSymbol a)
         = VTrue →
         JsMap.get dep_a (usedByExports st') = Some UsedTrue).
Proof.
  assert (dep_a ∈ harmonyAllExportDependentDependencies before_finish) as Hin
    by (by left).
  split_and!; [reflexivity | exact Hin |].
  exact (finish_publishes_symbol_fate before_finish _ dep_a a
           eq_refl Hin eq_refl).
Defined.

Lemma module_start_tracked : dependencies_tracked module_start.
Proof.
  split.
  - intros dep. split; intros H; by apply elem_of_nil in H.
  - intros dep H. by apply elem_of_nil in H.
Defined.

Lemma every_dependency_decided_witness :
  hooks_ready module_start
  ∧ dependencies_tracked module_start
  ∧ ∃ g' st',
      run_events comments_with_pragma
        ([ EvPreDeclarator pragma_call; EvDeclarator pragma_call [] ]
         ++ [EvFinish]) module_start = Some (tt, st')
      ∧ harmonyInnerGraph st' = Some g'
      ∧ dependencies_tracked st'
      ∧ ∀ dep, dep ∈ module_dependencies st' →
          KDependency dep ∈ JsMap.keys g'
          ∧ JsMap.get dep (usedByExports st')
            = Some (decision (graph_get g' (KDependency dep))).
Proof.
  split_and!; [exact module_start_ready | exact module_start_tracked |].
  exact (every_dependency_decided comments_with_pragma _ module_start
           module_start_ready module_start_tracked).
Defined.

(** The dependency of [const a = /* @__PURE__ */ compute()], never
    referenced, is published as not used. *)
Example unreferenced_pure_declarator :
  module_dependencies
    (state_after
       [ EvPreDeclarator pragma_call; EvDeclarator pragma_call []; EvFinish ])
  = [ {| dep_id := 1; dep_range := (26, 35)%Z; dep_loc := ((1, 6), (1, 35)) |} ]
  ∧ JsMap.get
      {| dep_id := 1; dep_range := (26, 35)%Z; dep_loc := ((1, 6), (1, 35)) |}
      (usedByExports
         (state_after
            [ EvPreDeclarator pragma_call; EvDeclarator pragma_call [];
              EvFinish ]))
    = Some UsedFalse.
Proof. split; vm_compute; reflexivity. Qed.

End more_samples.
